(** * irc.ts: a shallow embedding of the protocol engine

    The development follows the TypeScript sources of the client:
    [parse_message.ts] (the line parser), [cycling_ping_timer.ts] (the
    watchdog) and [irc.ts] (the [Client] class: dispatcher, line framing,
    reconnect policy and long-line splitter).

    Conventions of the embedding.
    - A JavaScript string is a [list ascii]; the character classes of the
      regular expressions are given on code units below 256.
    - A value that may be [undefined] is an [option]; [None] is [undefined].
    - A function that may throw returns a [result]; the only exception the
      modelled code raises by itself is a [TypeError].
    - An object used as a dictionary is an insertion-ordered association
      list of its own string-keyed properties, which is the order
      [Object.keys] visits them in (keys that are canonical array indices
      and the members inherited from [Object.prototype] are not modelled). *)

From Stdlib Require Import String Ascii List Bool ZArith Lia Arith.
From Equations Require Import Equations.
From Equations.Prop Require Import Logic.
Import ListNotations.

Set Implicit Arguments.

Local Open Scope char_scope.
Local Open Scope list_scope.

(** ** JavaScript values *)

Definition str := list ascii.

(** String literals of the sources, as code-unit lists. *)
Definition lit (s : string) : str := list_ascii_of_string s.

Inductive js_error : Type :=
| TypeError.

Inductive result (A : Type) : Type :=
| Ok (a : A)
| Throw (e : js_error).

Arguments Ok {A} a.
Arguments Throw {A} e.

Definition bind {A B : Type} (r : result A) (k : A -> result B) : result B :=
  match r with
  | Ok a => k a
  | Throw e => Throw e
  end.

Notation "x <- r ;; k" := (bind r (fun x => k))
  (at level 61, r at next level, right associativity).

Definition str_eqb (a b : str) : bool :=
  if list_eq_dec ascii_dec a b then true else false.

Definition ostr_eqb (a b : option str) : bool :=
  match a, b with
  | Some x, Some y => str_eqb x y
  | None, None => true
  | _, _ => false
  end.

(** [x.length] on a string that may be [undefined]. *)
Definition js_length (o : option str) : result Z :=
  match o with
  | Some s => Ok (Z.of_nat (length s))
  | None => Throw TypeError
  end.

(** ** Character classes *)

Definition CR : ascii := ascii_of_nat 13.
Definition LF : ascii := ascii_of_nat 10.

Definition code (c : ascii) : nat := nat_of_ascii c.

(** [/ /] *)
Definition is_space (c : ascii) : bool := Ascii.eqb c " ".

(** [/[^ ]/] *)
Definition not_space (c : ascii) : bool := negb (is_space c).

(** [/\s/]: TAB, LF, VT, FF, CR, SPACE and NBSP. *)
Definition is_ws (c : ascii) : bool :=
  let n := code c in
  (((9 <=? n) && (n <=? 13)) || (n =? 32) || (n =? 160))%nat.

(** [/./] (no [s] flag): anything but a line terminator. *)
Definition is_dot (c : ascii) : bool :=
  let n := code c in
  negb ((n =? 10) || (n =? 13))%nat.

Definition in_range (lo hi c : ascii) : bool :=
  ((code lo <=? code c) && (code c <=? code hi))%nat.

(** [/[_a-zA-Z0-9\~\[\]\\`^{}|-]/] *)
Definition is_nick_char (c : ascii) : bool :=
  in_range "a" "z" c || in_range "A" "Z" c || in_range "0" "9" c ||
  existsb (Ascii.eqb c) ["_"; "~"; "["; "]"; "\"; "`"; "^"; "{"; "}"; "|"; "-"].

(** [/[^@]/] *)
Definition not_at (c : ascii) : bool := negb (Ascii.eqb c "@").

(** ** String primitives *)

(** The longest prefix whose characters satisfy [p], and the rest. *)
Fixpoint span (p : ascii -> bool) (s : str) : str * str :=
  match s with
  | c :: r =>
      if p c then let (a, b) := span p r in (c :: a, b) else ([], s)
  | [] => ([], [])
  end.

Definition nonempty (s : str) : bool :=
  match s with
  | [] => false
  | _ :: _ => true
  end.

(** [/^:/] *)
Definition starts_with_colon (s : str) : bool :=
  match s with
  | ":" :: _ => true
  | _ => false
  end.

(** [String.prototype.toLowerCase] on code units below 256. *)
Definition lower_char (c : ascii) : ascii :=
  let n := code c in
  if (((65 <=? n) && (n <=? 90)) ||
      ((192 <=? n) && (n <=? 222) && negb (n =? 215)))%nat
  then ascii_of_nat (n + 32)%nat
  else c.

Definition toLowerCase (s : str) : str := map lower_char s.

(** [s.split(/ +/)]: a cut at every maximal run of spaces. [in_sep] tells
    that the previous character belonged to a separator; [cur] is the
    piece being read. *)
Fixpoint split_spaces_from (in_sep : bool) (cur : str) (s : str) : list str :=
  match s with
  | [] => [cur]
  | c :: r =>
      if is_space c
      then if in_sep then split_spaces_from true cur r
           else cur :: split_spaces_from true [] r
      else split_spaces_from false (cur ++ [c]) r
  end.

Definition split_spaces (s : str) : list str := split_spaces_from false [] s.

(** [s.trimRight()] *)
Definition trimRight (s : str) : str :=
  rev (snd (span is_ws (rev s))).

(** ** The message parser ([parse_message.ts]) *)

Module ParseMessage.

Inductive CommandType : Type :=
| normal
| reply
| error.

(** One entry of the reply table of [codes.ts]. *)
Record reply_entry : Type := mkReply {
  reply_name : str;
  reply_type : CommandType
}.

Record IMessage : Type := mkMessage {
  prefix : option str;
  nick : option str;
  user : option str;
  host : option str;
  server : option str;
  command : str;
  rawCommand : str;
  commandType : CommandType;
  args : list str
}.

(** [line.match(/^:([^ ]+) +/)]: the captured prefix. *)
Definition match_prefix (line : str) : option str :=
  match line with
  | ":" :: r =>
      let (tok, r1) := span not_space r in
      let (sp, _) := span is_space r1 in
      if nonempty tok && nonempty sp then Some tok else None
  | _ => None
  end.

(** [line.replace(/^:[^ ]+ +/, "")] *)
Definition strip_prefix (line : str) : str :=
  match line with
  | ":" :: r =>
      let (tok, r1) := span not_space r in
      let (sp, r2) := span is_space r1 in
      if nonempty tok && nonempty sp then r2 else line
  | _ => line
  end.

(** The match of the prefix against the nick pattern: a run of nick
    characters, then optionally [!], a non-empty run without [@], an [@]
    and any characters up to the end of the string; the result is groups
    1, 3 and 4. The nick class excludes [!], so the greedy first group is
    the longest run of nick characters; the user group stops at the first
    [@]; the host group has to reach the end of the string and the dot
    does not cross a line terminator. *)
Definition match_nick (p : str) : option (str * option str * option str) :=
  let (n, r) := span is_nick_char p in
  match r with
  | [] => Some (n, None, None)
  | "!" :: r1 =>
      let (u, r2) := span not_at r1 in
      match r2 with
      | "@" :: h =>
          if nonempty u && forallb is_dot h
          then Some (n, Some u, Some h)
          else None
      | _ => None
      end
  | _ => None
  end.

(** [line.match(/^([^ ]+) */)]: the captured command token. *)
Definition match_command (line : str) : option str :=
  let (tok, _) := span not_space line in
  if nonempty tok then Some tok else None.

(** [line.replace(/^[^ ]+ +/, "")]: unlike the match above, the
    replacement needs at least one space after the token. *)
Definition strip_command (line : str) : str :=
  let (tok, r1) := span not_space line in
  let (sp, r2) := span is_space r1 in
  if nonempty tok && nonempty sp then r2 else line.

(** [/\s+:/] at the head of [s]: the text after the colon. *)
Definition ws_colon (s : str) : option str :=
  let (w, r) := span is_ws s in
  match w, r with
  | _ :: _, ":" :: t => Some t
  | _, _ => None
  end.

(** [/^:|\s+:/] at the head of [s]; [at0] tells that [s] starts at index 0. *)
Definition colon_here (at0 : bool) (s : str) : option str :=
  match s with
  | ":" :: t => if at0 then Some t else ws_colon s
  | _ => ws_colon s
  end.

(** [line.search(/^:|\s+:/) !== -1] *)
Fixpoint search_colon_from (at0 : bool) (s : str) : bool :=
  match colon_here at0 s with
  | Some _ => true
  | None =>
      match s with
      | [] => false
      | _ :: r => search_colon_from false r
      end
  end.

Definition search_colon (line : str) : bool := search_colon_from true line.

(** The parameter pattern (lazy group, colon alternation, greedy group)
    from one start index: the lazy first group
    grows one character at a time, over characters [.] accepts, until the
    alternation matches; the last group then takes the rest of the line up
    to a line terminator. [acc] is the first group read so far. *)
Fixpoint lazy_colon (at0 : bool) (acc : str) (s : str) : option (str * str) :=
  match colon_here at0 s with
  | Some t => Some (acc, fst (span is_dot t))
  | None =>
      match s with
      | c :: r => if is_dot c then lazy_colon false (acc ++ [c]) r else None
      | [] => None
      end
  end.

(** [line.match] of the parameter pattern: groups 1 and 2, at the first
    start index that matches. *)
Fixpoint match_params_from (at0 : bool) (s : str) : option (str * str) :=
  match lazy_colon at0 [] s with
  | Some r => Some r
  | None =>
      match s with
      | [] => None
      | _ :: r => match_params_from false r
      end
  end.

Definition match_params (line : str) : option (str * str) :=
  match_params_from true line.

Section Parser.

(** The reply table of [codes.ts] ([replyFor[token]]) and the colour
    filter of [color-utils.ts] are the parser's two collaborators. *)
Variable replyFor : str -> option reply_entry.
Variable stripColorsAndStyle : str -> str.

(** Lines 21-36: the prefix. Returns the five prefix fields and the line
    without its prefix. *)
Definition parse_prefix (line : str)
  : (option str * option str * option str * option str * option str) * str :=
  match match_prefix line with
  | Some p =>
      let line' := strip_prefix line in
      match match_nick p with
      | Some (n, u, h) => ((Some p, Some n, u, h, None), line')
      | None => ((Some p, None, None, None, Some p), line')
      end
  | None => ((None, None, None, None, None), line)
  end.

(** Lines 45-48: the table lookup. *)
Definition normalize (raw : str) : str * CommandType :=
  match replyFor raw with
  | Some e => (reply_name e, reply_type e)
  | None => (raw, normal)
  end.

(** Lines 53-59: the parameters. [trim] is the identity in
    [src/parse_message.ts] and [trimRight] in the default export that
    accompanies [irc.ts]. *)
Definition parse_params (trim : str -> str) (line : str) : result (list str) :=
  mt <- (if search_colon line
         then match match_params line with
              | Some (m, t) => Ok (trim m, Some t)
              | None => Throw TypeError
              end
         else Ok (line, None)) ;;
  let (middle, trailing) := mt in
  let args1 := if nonempty middle then split_spaces middle else [] in
  Ok (match trailing with
      | Some t => if nonempty t then args1 ++ [t] else args1
      | None => args1
      end).

Definition parseMessage_with (trim : str -> str) (line : str) (stripColors : bool)
  : result IMessage :=
  let line := if stripColors then stripColorsAndStyle line else line in
  let '((pfx, n, u, h, srv), line) := parse_prefix line in
  match match_command line with
  | None => Throw TypeError
  | Some raw =>
      let line := strip_command line in
      let (cmd, ty) := normalize raw in
      a <- parse_params trim line ;;
      Ok (mkMessage pfx n u h srv cmd raw ty a)
  end.

(** [parseMessage] of [src/parse_message.ts]. *)
Definition parseMessage : str -> bool -> result IMessage :=
  parseMessage_with (fun m => m).

(** The default export [parseMessage] next to [irc.ts]. *)
Definition parseMessage_default : str -> bool -> result IMessage :=
  parseMessage_with trimRight.

End Parser.

(** *** Well-formed lines, for the statements below *)

(** A middle parameter: not empty, free of white space, not opened by a
    colon. *)
Definition middle (w : str) : bool :=
  nonempty w && forallb (fun x => negb (is_ws x)) w &&
  negb (starts_with_colon w).

(** The parts of a line [:nick!user@host COMMAND a b :trailing] that make
    it well formed. *)
Definition well_formed (n u h cmd a b t : str) : bool :=
  forallb is_nick_char n &&
  nonempty u && forallb (fun x => not_at x && not_space x) u &&
  forallb (fun x => not_space x && is_dot x) h &&
  nonempty cmd && forallb not_space cmd &&
  middle a && middle b &&
  nonempty t && forallb is_dot t.

Definition line_of (n u h cmd a b t : str) : str :=
  ":" :: n ++ "!" :: u ++ "@" :: h ++ " " :: cmd ++ " " :: a ++ " " :: b
      ++ " " :: ":" :: t.

(** The message a well-formed line parses to. *)
Definition parsed (replyFor : str -> option reply_entry)
  (n u h cmd a b t : str) : IMessage :=
  mkMessage (Some (n ++ "!" :: u ++ "@" :: h)) (Some n) (Some u) (Some h) None
    (fst (normalize replyFor cmd)) cmd (snd (normalize replyFor cmd)) [a; b; t].

(** A table with three of the entries of [codes.ts], for the examples. *)
Definition sample_replies (raw : str) : option reply_entry :=
  if str_eqb raw (lit "001") then Some (mkReply (lit "rpl_welcome") reply)
  else if str_eqb raw (lit "433") then Some (mkReply (lit "err_nicknameinuse") error)
  else if str_eqb raw (lit "PING") then Some (mkReply (lit "PING") normal)
  else None.

(** The command token of a line: what the command pattern captures once
    the prefix is gone. *)
Definition command_token (line : str) : option str :=
  match_command (snd (parse_prefix line)).

End ParseMessage.

(** ** The long-line splitter ([Client._splitLongLines]) *)

Module Splitter.

(** [words[i]] for a number [i]. *)
Definition char_at (words : str) (i : Z) : option ascii :=
  if (i <? 0)%Z then None else nth_error words (Z.to_nat i).

(** The backward scan: [pos] is [maxLength - offset]; the loop runs while
    it is positive and stops at the first white-space character. *)
Fixpoint scan_back (words : str) (pos : nat) : result (option nat) :=
  match pos with
  | O => Ok None
  | S p =>
      match nth_error words pos with
      | None => Throw TypeError
      | Some c => if is_ws c then Ok (Some pos) else scan_back words p
      end
  end.

(** What one call does before it recurses. *)
Inductive cut : Type :=
| Empty                          (* [words.length == 0] *)
| Whole                          (* [words.length <= maxLength] *)
| Fault                          (* [c.match] on [undefined] *)
| CutAt (cutPos wsLength : nat). (* push [part], recurse on the rest *)

Definition find_cut (words : str) (maxLength : Z) : cut :=
  if (length words =? 0)%nat then Empty
  else if (Z.of_nat (length words) <=? maxLength)%Z then Whole
  else
    match char_at words maxLength with
    | None => Fault
    | Some c =>
        if is_ws c then CutAt (Z.to_nat maxLength) 1
        else
          match scan_back words (Z.to_nat maxLength - 1) with
          | Throw _ => Fault
          | Ok (Some p) => CutAt p 1
          | Ok None => CutAt (Z.to_nat maxLength) 0
          end
    end.

(** [maxLength || 450] *)
Definition or_450 (maxLength : Z) : Z :=
  if (maxLength =? 0)%Z then 450%Z else maxLength.

(** [words.substring(from, words.length)] and [words.substring(0, to)] *)
Definition substring_from (from : nat) (words : str) : str := skipn from words.
Definition substring_to (to : nat) (words : str) : str := firstn to words.

Lemma find_cut_shrinks (words : str) (maxLength : Z) (cutPos wsLength : nat) :
  find_cut words (or_450 maxLength) = CutAt cutPos wsLength ->
  (length (substring_from (cutPos + wsLength) words) < length words)%nat.
Proof.
  unfold find_cut, substring_from, char_at, or_450.
  destruct (Nat.eqb_spec (length words) 0) as [|Hne]; [discriminate|].
  destruct (Z.leb_spec (Z.of_nat (length words))
              (if (maxLength =? 0)%Z then 450%Z else maxLength)) as [|Hlt];
    [discriminate|].
  set (n := if (maxLength =? 0)%Z then 450%Z else maxLength) in *.
  assert (Hn0 : n <> 0%Z) by (subst n; destruct (Z.eqb_spec maxLength 0); lia).
  destruct (Z.ltb_spec n 0) as [|Hpos]; [discriminate|].
  destruct (nth_error words (Z.to_nat n)) as [c|]; [|discriminate].
  rewrite length_skipn.
  destruct (is_ws c).
  - intros H; inversion H; subst. lia.
  - destruct (scan_back words (Z.to_nat n - 1)) as [[p|]|] eqn:Hs;
      try discriminate; intros H; inversion H; subst; lia.
Qed.

Equations _splitLongLines (words : str) (maxLength : Z) (destination : list str)
  : result (list str) by wf (length words) lt :=
  _splitLongLines words maxLength destination
    with inspect (find_cut words (or_450 maxLength)) := {
    | exist _ Empty _ => Ok destination
    | exist _ Whole _ => Ok (destination ++ [words])
    | exist _ Fault _ => Throw TypeError
    | exist _ (CutAt cutPos wsLength) H =>
        _splitLongLines (substring_from (cutPos + wsLength) words)
          (or_450 maxLength) (destination ++ [substring_to cutPos words])
    }.
Next Obligation.
  eapply find_cut_shrinks; eauto.
Qed.

(** *** Cuts, for the statements below *)

(** The same walk, keeping with each chunk the [wsLength] of the cut that
    ended it: 1 when the cut fell on a white-space character (which is
    dropped), 0 for a hard cut and for the last chunk. *)
Equations split_cuts (words : str) (maxLength : Z) : list (str * nat)
  by wf (length words) lt :=
  split_cuts words maxLength
    with inspect (find_cut words (or_450 maxLength)) := {
    | exist _ Empty _ => []
    | exist _ Whole _ => [(words, 0%nat)]
    | exist _ Fault _ => []
    | exist _ (CutAt cutPos wsLength) H =>
        (substring_to cutPos words, wsLength)
          :: split_cuts (substring_from (cutPos + wsLength) words)
               (or_450 maxLength)
    }.
Next Obligation.
  eapply find_cut_shrinks; eauto.
Qed.

(** The chunks put back together, with one space wherever a cut fell on
    white space and another chunk follows. *)
Fixpoint rejoin (cuts : list (str * nat)) : str :=
  match cuts with
  | [] => []
  | [(part, _)] => part
  | (part, wsLength) :: rest =>
      part ++ (if (wsLength =? 1)%nat then [" "] else []) ++ rejoin rest
  end.

(** The words of a string: its maximal runs of characters that are not
    white space. [cur] is the word being read. *)
Fixpoint words_from (cur : str) (s : str) : list str :=
  match s with
  | [] => if nonempty cur then [cur] else []
  | c :: r =>
      if is_ws c
      then if nonempty cur then cur :: words_from [] r else words_from [] r
      else words_from (cur ++ [c]) r
  end.

Definition words_of (s : str) : list str := words_from [] s.

End Splitter.

(** ** The watchdog ([cycling_ping_timer.ts]) *)

Module CyclingPingTimer.

Inductive timer_event : Type :=
| wantPing
| pingTimeout.

(** The two arrow functions handed to [setTimeout]. *)
Inductive callback : Type :=
| idle_elapsed   (* armed by [start] *)
| wait_elapsed.  (* armed by the [wantPing] listener of the constructor *)

(** A timeout the runtime holds for this object: its handle, the
    milliseconds left and what it runs. *)
Record timeout : Type := mkTimeout {
  handle : nat;
  remaining : nat;
  fires : callback
}.

Record t : Type := mkTimer {
  started : bool;
  loopingTimeout : option nat;
  pingWaitTimeout : option nat;
  (* the runtime: armed timeouts, oldest first, and the next fresh handle *)
  armed : list timeout;
  next_handle : nat;
  (* [client.opt] *)
  millisecondsOfSilenceBeforePingSent : nat;
  millisecondsBeforePingTimeout : nat
}.

(** [new CyclingPingTimer(client)] *)
Definition create (silence wait : nat) : t :=
  mkTimer false None None [] 0 silence wait.

(** [setTimeout(cb, delay)]: a delay below one millisecond counts as one. *)
Definition setTimeout (cb : callback) (delay : nat) (c : t) : nat * t :=
  let h := next_handle c in
  (h, mkTimer (started c) (loopingTimeout c) (pingWaitTimeout c)
        (armed c ++ [mkTimeout h (Nat.max 1 delay) cb]) (S h)
        (millisecondsOfSilenceBeforePingSent c)
        (millisecondsBeforePingTimeout c)).

(** [clearTimeout(h)]; clearing [undefined] does nothing. *)
Definition clearTimeout (h : option nat) (c : t) : t :=
  match h with
  | None => c
  | Some h =>
      mkTimer (started c) (loopingTimeout c) (pingWaitTimeout c)
        (filter (fun x => negb (handle x =? h)%nat) (armed c)) (next_handle c)
        (millisecondsOfSilenceBeforePingSent c)
        (millisecondsBeforePingTimeout c)
  end.

Definition set_started (b : bool) (c : t) : t :=
  mkTimer b (loopingTimeout c) (pingWaitTimeout c) (armed c) (next_handle c)
    (millisecondsOfSilenceBeforePingSent c) (millisecondsBeforePingTimeout c).

Definition set_loopingTimeout (h : option nat) (c : t) : t :=
  mkTimer (started c) h (pingWaitTimeout c) (armed c) (next_handle c)
    (millisecondsOfSilenceBeforePingSent c) (millisecondsBeforePingTimeout c).

Definition set_pingWaitTimeout (h : option nat) (c : t) : t :=
  mkTimer (started c) (loopingTimeout c) h (armed c) (next_handle c)
    (millisecondsOfSilenceBeforePingSent c) (millisecondsBeforePingTimeout c).

Definition stop (c : t) : t :=
  if negb (started c) then c
  else
    let c := set_started false c in
    let c := clearTimeout (loopingTimeout c) c in
    let c := clearTimeout (pingWaitTimeout c) c in
    let c := set_loopingTimeout None c in
    set_pingWaitTimeout None c.

Definition start (c : t) : t :=
  if started c then c
  else
    let c := set_started true c in
    let (h, c) := setTimeout idle_elapsed
                    (millisecondsOfSilenceBeforePingSent c) c in
    set_loopingTimeout (Some h) c.

Definition notifyOfActivity (c : t) : t :=
  if started c then start (stop c) else c.

(** The body of a timeout that fires, with the events it emits. The
    [wantPing] listener registered by the constructor runs inside
    [emit("wantPing")]. *)
Definition run_callback (cb : callback) (c : t) : t * list timer_event :=
  match cb with
  | idle_elapsed =>
      let c := set_loopingTimeout None c in
      let (h, c) := setTimeout wait_elapsed
                      (millisecondsBeforePingTimeout c) c in
      (set_pingWaitTimeout (Some h) c, [wantPing])
  | wait_elapsed => (stop c, [pingTimeout])
  end.

Definition is_armed (h : nat) (c : t) : bool :=
  existsb (fun x => (handle x =? h)%nat) (armed c).

Definition disarm (h : nat) (c : t) : t :=
  mkTimer (started c) (loopingTimeout c) (pingWaitTimeout c)
    (filter (fun x => negb (handle x =? h)%nat) (armed c)) (next_handle c)
    (millisecondsOfSilenceBeforePingSent c) (millisecondsBeforePingTimeout c).

(** The timeouts that came due run in the order they were armed; one that
    an earlier callback cleared does not run. *)
Fixpoint run_due (due : list timeout) (c : t) : t * list timer_event :=
  match due with
  | [] => (c, [])
  | d :: rest =>
      if is_armed (handle d) c
      then
        let (c1, ev1) := run_callback (fires d) (disarm (handle d) c) in
        let (c2, ev2) := run_due rest c1 in
        (c2, ev1 ++ ev2)
      else run_due rest c
  end.

(** One millisecond passes. *)
Definition tick (c : t) : t * list timer_event :=
  let aged :=
    map (fun x => mkTimeout (handle x) (remaining x - 1) (fires x)) (armed c) in
  let c := mkTimer (started c) (loopingTimeout c) (pingWaitTimeout c) aged
             (next_handle c) (millisecondsOfSilenceBeforePingSent c)
             (millisecondsBeforePingTimeout c) in
  run_due (filter (fun x => (remaining x =? 0)%nat) aged) c.

(** [ms] milliseconds pass with no call from outside. *)
Fixpoint elapse (ms : nat) (c : t) : t * list timer_event :=
  match ms with
  | O => (c, [])
  | S n =>
      let (c1, ev1) := tick c in
      let (c2, ev2) := elapse n c1 in
      (c2, ev1 ++ ev2)
  end.

(** What can happen to a timer object: a method call, or time passing. *)
Inductive input : Type :=
| Start
| Stop
| NotifyOfActivity
| Elapse (ms : nat).

Definition step (i : input) (c : t) : t * list timer_event :=
  match i with
  | Start => (start c, [])
  | Stop => (stop c, [])
  | NotifyOfActivity => (notifyOfActivity c, [])
  | Elapse ms => elapse ms c
  end.

Fixpoint run (inputs : list input) (c : t) : t * list timer_event :=
  match inputs with
  | [] => (c, [])
  | i :: rest =>
      let (c1, ev1) := step i c in
      let (c2, ev2) := run rest c1 in
      (c2, ev1 ++ ev2)
  end.

(** *** The three states of the timer, for the statements below *)

Inductive phase : Type :=
| stopped
| running_idle (ms : nat)            (* milliseconds to [wantPing] *)
| running_wait_for_pong (ms : nat).  (* milliseconds to [pingTimeout] *)

Definition phase_of (c : t) : phase :=
  if started c then
    match armed c with
    | x :: _ =>
        match fires x with
        | idle_elapsed => running_idle (remaining x)
        | wait_elapsed => running_wait_for_pong (remaining x)
        end
    | [] => stopped
    end
  else stopped.

(** The inputs of a quiet stretch: [start()], then activity after each of
    the [gaps]. *)
Definition quiet (gaps : list nat) : list input :=
  Start :: flat_map (fun d => [Elapse d; NotifyOfActivity]) gaps.

End CyclingPingTimer.

(** ** The client ([irc.ts]) *)

Module Irc.

Import ParseMessage.

(** *** Objects used as dictionaries *)

Section Dict.

Variable V : Type.

Definition dict : Type := list (str * V).

(** [d[k]] on own properties *)
Fixpoint dict_get (k : str) (d : dict) : option V :=
  match d with
  | [] => None
  | (k', v) :: r => if str_eqb k k' then Some v else dict_get k r
  end.

(** [d[k] = v]: a property that exists keeps its place, a new one goes
    last. *)
Fixpoint dict_set (k : str) (v : V) (d : dict) : dict :=
  match d with
  | [] => [(k, v)]
  | (k', v') :: r =>
      if str_eqb k k' then (k', v) :: r else (k', v') :: dict_set k v r
  end.

(** [delete d[k]] *)
Fixpoint dict_delete (k : str) (d : dict) : dict :=
  match d with
  | [] => []
  | (k', v') :: r =>
      if str_eqb k k' then r else (k', v') :: dict_delete k r
  end.

(** [Object.keys(d)] *)
Definition dict_keys (d : dict) : list str := map fst d.

(** [d.hasOwnProperty(k)], and [k in d] for a key that
    [Object.prototype] does not have *)
Definition dict_has (k : str) (d : dict) : bool :=
  match dict_get k d with
  | Some _ => true
  | None => false
  end.

End Dict.

(** *** String helpers of the dispatcher *)

(** The property key, or the text, a value that may be [undefined] turns
    into. *)
Definition to_text (o : option str) : str :=
  match o with
  | Some s => s
  | None => lit "undefined"
  end.

Fixpoint starts_with (needle hay : str) : bool :=
  match needle, hay with
  | [], _ => true
  | a :: n', b :: h' => Ascii.eqb a b && starts_with n' h'
  | _ :: _, [] => false
  end.

(** [hay.indexOf(needle) !== -1] *)
Fixpoint includes (needle hay : str) : bool :=
  starts_with needle hay ||
  match hay with
  | [] => false
  | _ :: h' => includes needle h'
  end.

(** [hay.replace(needle, "")] with a string pattern: the first occurrence
    goes. *)
Fixpoint remove_first (needle hay : str) : str :=
  if starts_with needle hay then skipn (length needle) hay
  else
    match hay with
    | [] => []
    | c :: h' => c :: remove_first needle h'
    end.

(** [s.split(" ")] *)
Fixpoint split_on_space_from (cur : str) (s : str) : list str :=
  match s with
  | [] => [cur]
  | c :: r =>
      if is_space c then cur :: split_on_space_from [] r
      else split_on_space_from (cur ++ [c]) r
  end.

Definition split_on_space (s : str) : list str := split_on_space_from [] s.

(** [s.trim()] *)
Definition trim (s : str) : str := trimRight (snd (span is_ws s)).

(** [s.split(lineDelimiter)], the delimiter being CR LF, CR or LF. *)
Fixpoint split_lines_from (cur : str) (s : str) : list str :=
  match s with
  | [] => [cur]
  | c :: r =>
      if (code c =? 13)%nat then
        match r with
        | c' :: r' =>
            if (code c' =? 10)%nat then cur :: split_lines_from [] r'
            else cur :: split_lines_from [] r
        | [] => cur :: split_lines_from [] r
        end
      else if (code c =? 10)%nat then cur :: split_lines_from [] r
      else split_lines_from (cur ++ [c]) r
  end.

Definition split_lines (s : str) : list str := split_lines_from [] s.

(** *** State *)

Record Channel : Type := mkChannel {
  key : str;
  serverName : str;
  users : dict (option str);
  modeParams : dict (list (option str));
  mode : option str;
  topic : option str;
  topicBy : option str;
  created : option str
}.

(** [this.supported.channel.modes] *)
Module supported.
Record channel_modes : Type := mkModes {
  a : str;
  b : str;
  c : str;
  d : str
}.
End supported.

(** The socket of one [connect] call with the fields the client hangs on
    it. *)
Record Conn : Type := mkConn {
  requestedDisconnect : bool;
  cyclingPingTimer : CyclingPingTimer.t
}.

(** The part of [this.opt] the modelled code reads. *)
Record Options : Type := mkOptions {
  autoRejoin : bool;
  retryCount : option Z;
  retryDelay : Z;
  stripColors : bool;
  millisecondsOfSilenceBeforePingSent : nat;
  millisecondsBeforePingTimeout : nat
}.

Record Client : Type := mkClient {
  opt : Options;
  nick : option str;
  hostMask : str;
  maxLineLength : Z;
  chans : dict Channel;
  prefixForMode : dict (option str);
  modeForPrefix : dict (option str);
  modes : supported.channel_modes;
  conn : option Conn;
  (* the runtime: the pending timeouts of the close listeners, oldest
     first, each with the retry count it will call [connect] with *)
  reconnectTimeouts : list Z
}.

(** *** What the client does to the outside *)

Inductive jsval : Type :=
| VUndefined
| VString (s : str)
| VNumber (z : Z)
| VStrings (l : list str)
| VUsers (u : dict (option str))
| VMessage (m : IMessage).

Definition of_ostr (o : option str) : jsval :=
  match o with
  | Some s => VString s
  | None => VUndefined
  end.

Inductive action : Type :=
| Emit (name : str) (arguments : list jsval)  (* [this.emit(name, ...)] *)
| Write (line : str)                          (* [this.conn.write(line)] *)
| OpenSocket.                                 (* [createConnection], [tlsConnect] *)

(** *** The monad of a method body: state, trace and exceptions. The
    state and the trace survive a throw. *)

Definition M (S A : Type) : Type := S -> result A * S * list action.

Definition ret {S A : Type} (x : A) : M S A := fun s => (Ok x, s, []).

Definition throw {S A : Type} (e : js_error) : M S A :=
  fun s => (Throw e, s, []).

Definition mbind {S A B : Type} (m : M S A) (k : A -> M S B) : M S B :=
  fun s =>
    match m s with
    | (Ok x, s1, t1) =>
        match k x s1 with
        | (r, s2, t2) => (r, s2, t1 ++ t2)
        end
    | (Throw e, s1, t1) => (Throw e, s1, t1)
    end.

Notation "x <~ m ;; k" := (mbind m (fun x => k))
  (at level 61, m at next level, right associativity).
Notation "m ;;; k" := (mbind m (fun _ => k))
  (at level 61, right associativity).

Definition get {S : Type} : M S S := fun s => (Ok s, s, []).

Definition modify {S : Type} (f : S -> S) : M S unit :=
  fun s => (Ok tt, f s, []).

Definition tell {S : Type} (x : action) : M S unit :=
  fun s => (Ok tt, s, [x]).

(** A value that has to be a string: a method call on [undefined] throws. *)
Definition defined {S A : Type} (o : option A) : M S A :=
  match o with
  | Some x => ret x
  | None => throw TypeError
  end.

Definition of_result {S A : Type} (r : result A) : M S A :=
  match r with
  | Ok x => ret x
  | Throw e => throw e
  end.

Definition when {S : Type} (b : bool) (m : M S unit) : M S unit :=
  if b then m else ret tt.

Fixpoint forEach {S A : Type} (l : list A) (f : A -> M S unit) : M S unit :=
  match l with
  | [] => ret tt
  | x :: r => f x ;;; forEach r f
  end.

(** [try { m } catch (err) { h err }] *)
Definition try_catch {S : Type} (m : M S unit) (h : js_error -> M S unit)
  : M S unit :=
  fun s =>
    match m s with
    | (Ok x, s1, t1) => (Ok x, s1, t1)
    | (Throw e, s1, t1) =>
        match h e s1 with
        | (r, s2, t2) => (r, s2, t1 ++ t2)
        end
    end.

(** A computation on a component of the state. *)
Definition zoom {S T A : Type} (proj : S -> T) (inj : T -> S -> S) (m : M T A)
  : M S A :=
  fun s =>
    match m (proj s) with
    | (r, t1, tr) => (r, inj t1 s, tr)
    end.

(** *** Field updates *)

Definition set_users (u : dict (option str)) (ch : Channel) : Channel :=
  mkChannel (key ch) (serverName ch) u (modeParams ch) (mode ch) (topic ch)
    (topicBy ch) (created ch).

Definition set_modeParams (p : dict (list (option str))) (ch : Channel) : Channel :=
  mkChannel (key ch) (serverName ch) (users ch) p (mode ch) (topic ch)
    (topicBy ch) (created ch).

Definition set_mode (m : option str) (ch : Channel) : Channel :=
  mkChannel (key ch) (serverName ch) (users ch) (modeParams ch) m (topic ch)
    (topicBy ch) (created ch).

Definition set_topic (x : option str) (ch : Channel) : Channel :=
  mkChannel (key ch) (serverName ch) (users ch) (modeParams ch) (mode ch) x
    (topicBy ch) (created ch).

Definition set_topicBy (x : option str) (ch : Channel) : Channel :=
  mkChannel (key ch) (serverName ch) (users ch) (modeParams ch) (mode ch)
    (topic ch) x (created ch).

Definition set_created (x : option str) (ch : Channel) : Channel :=
  mkChannel (key ch) (serverName ch) (users ch) (modeParams ch) (mode ch)
    (topic ch) (topicBy ch) x.

Definition set_nick (n : option str) (cl : Client) : Client :=
  mkClient (opt cl) n (hostMask cl) (maxLineLength cl) (chans cl)
    (prefixForMode cl) (modeForPrefix cl) (modes cl) (conn cl)
    (reconnectTimeouts cl).

Definition set_maxLineLength (z : Z) (cl : Client) : Client :=
  mkClient (opt cl) (nick cl) (hostMask cl) z (chans cl)
    (prefixForMode cl) (modeForPrefix cl) (modes cl) (conn cl)
    (reconnectTimeouts cl).

Definition set_chans (x : dict Channel) (cl : Client) : Client :=
  mkClient (opt cl) (nick cl) (hostMask cl) (maxLineLength cl) x
    (prefixForMode cl) (modeForPrefix cl) (modes cl) (conn cl)
    (reconnectTimeouts cl).

Definition set_conn (x : option Conn) (cl : Client) : Client :=
  mkClient (opt cl) (nick cl) (hostMask cl) (maxLineLength cl) (chans cl)
    (prefixForMode cl) (modeForPrefix cl) (modes cl) x
    (reconnectTimeouts cl).

Definition set_reconnectTimeouts (x : list Z) (cl : Client) : Client :=
  mkClient (opt cl) (nick cl) (hostMask cl) (maxLineLength cl) (chans cl)
    (prefixForMode cl) (modeForPrefix cl) (modes cl) (conn cl) x.

(** *** Sending and emitting *)

Definition emit (name : str) (arguments : list jsval) : M Client unit :=
  tell (Emit name arguments).

Fixpoint join_with_space (l : list str) : str :=
  match l with
  | [] => []
  | [x] => x
  | x :: r => x ++ " " :: join_with_space r
  end.

(** [send(...args)] as the class defines it (flood protection swaps it for
    a queue). *)
Definition send (arguments : list str) : M Client unit :=
  final <~ defined (nth_error arguments (length arguments - 1)) ;;
  let arguments :=
    if existsb is_ws final || starts_with [":"] final || negb (nonempty final)
    then removelast arguments ++ [":" :: final]
    else arguments in
  cl <~ get ;;
  cn <~ defined (conn cl) ;;
  if requestedDisconnect cn then ret tt
  else tell (Write (join_with_space arguments ++ [CR; LF])).

(** The listener for [kick] that the constructor registers: it runs inside
    [emit("kick", channel, ...)]. *)
Definition kick_listener (channel : option str) : M Client unit :=
  cl <~ get ;;
  if autoRejoin (opt cl)
  then ch <~ defined channel ;; send (lit "JOIN" :: split_on_space ch)
  else ret tt.

(** *** [_updateMaxLineLength] and [chanData] *)

Definition _updateMaxLineLength : M Client unit :=
  cl <~ get ;;
  n <~ of_result (js_length (nick cl)) ;;
  modify (set_maxLineLength (497 - n - Z.of_nat (length (hostMask cl)))).

Definition new_channel (k name : str) : Channel :=
  mkChannel k name [] [] (Some []) None None None.

(** [chanData(name, create)]. The channel object it returns is shared
    with [this.chans]; the model returns the property of [this.chans] the
    object hangs on, which stands for the reference. *)
Definition chanData (name : option str) (create : bool) : M Client (option str) :=
  name <~ defined name ;;
  let k := toLowerCase name in
  when create
    (modify (fun cl =>
       match dict_get k (chans cl) with
       | Some _ => cl
       | None => set_chans (dict_set k (new_channel k name) (chans cl)) cl
       end)) ;;;
  cl <~ get ;;
  ret (if dict_has k (chans cl) then Some k else None).

(** Reading and writing through a reference. *)
Definition deref (r : str) : M Client Channel :=
  cl <~ get ;; defined (dict_get r (chans cl)).

Definition update_channel (r : str) (f : Channel -> Channel) : M Client unit :=
  modify (fun cl =>
    match dict_get r (chans cl) with
    | Some ch => set_chans (dict_set r (f ch) (chans cl)) cl
    | None => cl
    end).

(** [u[k]]: [undefined] for a missing property too. *)
Definition user_value (k : str) (u : dict (option str)) : option str :=
  match dict_get k u with
  | Some v => v
  | None => None
  end.

Definition arg (i : nat) (message : IMessage) : option str :=
  nth_error (args message) i.

(** *** The [raw] listener of the constructor, case by case *)

Inductive mode_param : Type :=
| PUndefined
| PString (s : str)
| PArray (x : option str).   (* the one-element array [[modeArg]] *)

(** The closure [chanModes] of the MODE case. *)
Definition chanModes (channel : str) (adding : bool) (m : ascii) (param : mode_param)
  : M Client unit :=
  if adding then
    ch <~ deref channel ;;
    cm <~ defined (mode ch) ;;
    when (negb (includes [m] cm))
      (update_channel channel (set_mode (Some (cm ++ [m])))) ;;;
    update_channel channel (fun ch =>
      set_modeParams
        (dict_set [m]
           match param with
           | PUndefined => []
           | PArray x =>
               match dict_get [m] (modeParams ch) with
               | Some l => l ++ [x]
               | None => [x]
               end
           | PString s => [Some s]
           end (modeParams ch)) ch)
  else
    match param with
    | PArray x =>
        ch <~ deref channel ;;
        l <~ defined (dict_get [m] (modeParams ch)) ;;
        let l' := filter (fun v => negb (ostr_eqb v x)) l in
        update_channel channel
          (fun ch => set_modeParams (dict_set [m] l' (modeParams ch)) ch) ;;;
        when (length l' =? 0)%nat
          (ch <~ deref channel ;;
           cm <~ defined (mode ch) ;;
           update_channel channel (set_mode (Some (remove_first [m] cm))) ;;;
           update_channel channel
             (fun ch => set_modeParams (dict_delete [m] (modeParams ch)) ch))
    | _ =>
        ch <~ deref channel ;;
        cm <~ defined (mode ch) ;;
        update_channel channel (set_mode (Some (remove_first [m] cm))) ;;;
        update_channel channel
          (fun ch => set_modeParams (dict_delete [m] (modeParams ch)) ch)
    end.

Definition param_of (modeArg : option str) : mode_param :=
  match modeArg with
  | Some s => PString s
  | None => PUndefined
  end.

(** One letter of the mode string that is neither [+] nor [-]; the result
    is [modeArgs] after the shifts. *)
Definition mode_letter (message : IMessage) (channel : str) (adding : bool)
  (modeArgs : list str) (m : ascii) : M Client (list str) :=
  let eventName := (if adding then "+" else "-") :: lit "mode" in
  let report modeArg :=
    emit eventName [of_ostr (arg 0 message); of_ostr (ParseMessage.nick message);
                    VString [m]; of_ostr modeArg; VMessage message] in
  cl <~ get ;;
  if dict_has [m] (prefixForMode cl) then
    let modeArg := hd_error modeArgs in
    let pfx := to_text (user_value [m] (prefixForMode cl)) in
    ch <~ deref channel ;;
    (if dict_has (to_text modeArg) (users ch) then
       v <~ defined (user_value (to_text modeArg) (users ch)) ;;
       if adding then
         when (negb (includes pfx v))
           (update_channel channel (fun ch =>
              set_users (dict_set (to_text modeArg) (Some (v ++ pfx)) (users ch)) ch))
       else
         update_channel channel (fun ch =>
           set_users (dict_set (to_text modeArg) (Some (remove_first pfx v))
                        (users ch)) ch)
     else ret tt) ;;;
    report modeArg ;;;
    ret (tl modeArgs)
  else if includes [m] (supported.a (modes cl)) then
    let modeArg := hd_error modeArgs in
    chanModes channel adding m (PArray modeArg) ;;;
    report modeArg ;;;
    ret (tl modeArgs)
  else if includes [m] (supported.b (modes cl)) then
    let modeArg := hd_error modeArgs in
    chanModes channel adding m (param_of modeArg) ;;;
    report modeArg ;;;
    ret (tl modeArgs)
  else if includes [m] (supported.c (modes cl)) then
    let modeArg := if adding then hd_error modeArgs else None in
    chanModes channel adding m (param_of modeArg) ;;;
    report modeArg ;;;
    ret (if adding then tl modeArgs else modeArgs)
  else if includes [m] (supported.d (modes cl)) then
    chanModes channel adding m PUndefined ;;;
    report None ;;;
    ret modeArgs
  else ret modeArgs.

(** [modeList.forEach], with the two variables the callback closes over. *)
Fixpoint mode_loop (message : IMessage) (channel : str) (modeList : list ascii)
  (adding : bool) (modeArgs : list str) : M Client unit :=
  match modeList with
  | [] => ret tt
  | m :: rest =>
      if Ascii.eqb m "+" then mode_loop message channel rest true modeArgs
      else if Ascii.eqb m "-" then mode_loop message channel rest false modeArgs
      else
        modeArgs' <~ mode_letter message channel adding modeArgs m ;;
        mode_loop message channel rest adding modeArgs'
  end.

Definition case_MODE (message : IMessage) : M Client unit :=
  channel <~ chanData (arg 0 message) false ;;
  match channel with
  | None => ret tt
  | Some channel =>
      modeList <~ defined (arg 1 message) ;;
      mode_loop message channel modeList true (skipn 2 (args message))
  end.

(** [Object.keys(this.chans).forEach] with a body that rewrites the user
    map of each channel. *)
Definition each_channel_users (f : dict (option str) -> dict (option str))
  : M Client unit :=
  modify (fun cl =>
    set_chans (map (fun kv => (fst kv, set_users (f (users (snd kv))) (snd kv)))
                 (chans cl)) cl).

Definition case_NICK (message : IMessage) : M Client unit :=
  cl <~ get ;;
  when (ostr_eqb (ParseMessage.nick message) (nick cl))
    (modify (set_nick (arg 0 message)) ;;; _updateMaxLineLength) ;;;
  cl <~ get ;;
  let channels := dict_keys (chans cl) in
  let old := to_text (ParseMessage.nick message) in
  each_channel_users
    (fun u => dict_delete old (dict_set (to_text (arg 0 message)) (user_value old u) u)) ;;;
  emit (lit "nick")
    [of_ostr (ParseMessage.nick message); of_ostr (arg 0 message);
     VStrings channels; VMessage message].

(** The pattern that takes one name of a names reply apart (one
    character, then the rest, anchored at both ends): the first character
    and the rest. The dot does not accept a line terminator. *)
Definition match_name (user : str) : option (ascii * str) :=
  match user with
  | c :: r => if is_dot c && forallb is_dot r then Some (c, r) else None
  | [] => None
  end.

Definition case_rpl_namreply (message : IMessage) : M Client unit :=
  channel <~ chanData (arg 2 message) false ;;
  names <~ defined (arg 3 message) ;;
  let names := split_spaces (trim names) in
  match channel with
  | None => ret tt
  | Some channel =>
      forEach names (fun user =>
        match match_name user with
        | Some (c, r) =>
            cl <~ get ;;
            if dict_has [c] (modeForPrefix cl)
            then update_channel channel
                   (fun ch => set_users (dict_set r (Some [c]) (users ch)) ch)
            else update_channel channel
                   (fun ch => set_users (dict_set (c :: r) (Some []) (users ch)) ch)
        | None => ret tt
        end)
  end.

Definition case_rpl_endofnames (message : IMessage) : M Client unit :=
  channel <~ chanData (arg 1 message) false ;;
  match channel with
  | None => ret tt
  | Some channel =>
      ch <~ deref channel ;;
      emit (lit "names") [of_ostr (arg 1 message); VUsers (users ch)] ;;;
      emit (lit "names" ++ to_text (arg 1 message)) [VUsers (users ch)] ;;;
      send [lit "MODE"; to_text (arg 1 message)]
  end.

Definition case_rpl_topic (message : IMessage) : M Client unit :=
  channel <~ chanData (arg 1 message) false ;;
  match channel with
  | None => ret tt
  | Some channel => update_channel channel (set_topic (arg 2 message))
  end.

Definition case_rpl_topicwhotime (message : IMessage) : M Client unit :=
  channel <~ chanData (arg 1 message) false ;;
  match channel with
  | None => ret tt
  | Some channel =>
      update_channel channel (set_topicBy (arg 2 message)) ;;;
      ch <~ deref channel ;;
      emit (lit "topic")
        [of_ostr (arg 1 message); of_ostr (topic ch); of_ostr (topicBy ch);
         VMessage message]
  end.

Definition case_TOPIC (message : IMessage) : M Client unit :=
  emit (lit "topic")
    [of_ostr (arg 0 message); of_ostr (arg 1 message);
     of_ostr (ParseMessage.nick message); VMessage message] ;;;
  channel <~ chanData (arg 0 message) false ;;
  match channel with
  | None => ret tt
  | Some channel =>
      update_channel channel (set_topic (arg 1 message)) ;;;
      update_channel channel (set_topicBy (ParseMessage.nick message))
  end.

Definition case_rpl_channelmodeis (message : IMessage) : M Client unit :=
  channel <~ chanData (arg 1 message) false ;;
  match channel with
  | None => ret tt
  | Some channel => update_channel channel (set_mode (arg 2 message))
  end.

Definition case_rpl_creationtime (message : IMessage) : M Client unit :=
  channel <~ chanData (arg 1 message) false ;;
  match channel with
  | None => ret tt
  | Some channel => update_channel channel (set_created (arg 2 message))
  end.

(** The three emissions of JOIN, PART and KICK: the plain event, the
    event suffixed with the channel and, when the name has an upper-case
    letter, the event suffixed with the lower-cased channel. *)
Definition emit_for_channel (event : str) (channel : option str)
  (arguments : list jsval) : M Client unit :=
  emit (event ++ to_text channel) arguments ;;;
  name <~ defined channel ;;
  when (negb (str_eqb name (toLowerCase name)))
    (emit (event ++ toLowerCase name) arguments).

Definition case_JOIN (message : IMessage) : M Client unit :=
  cl <~ get ;;
  (if ostr_eqb (nick cl) (ParseMessage.nick message)
   then chanData (arg 0 message) true ;;; ret tt
   else
     channel <~ chanData (arg 0 message) false ;;
     match channel with
     | None => ret tt
     | Some channel =>
         update_channel channel (fun ch =>
           set_users (dict_set (to_text (ParseMessage.nick message)) (Some [])
                        (users ch)) ch)
     end) ;;;
  emit (lit "join")
    [of_ostr (arg 0 message); of_ostr (ParseMessage.nick message);
     VMessage message] ;;;
  emit_for_channel (lit "join") (arg 0 message)
    [of_ostr (ParseMessage.nick message); VMessage message].

(** The common end of PART and KICK: [who] leaves the channel named by
    the first argument. *)
Definition leave_channel (message : IMessage) (who : option str) : M Client unit :=
  cl <~ get ;;
  if ostr_eqb (nick cl) who
  then
    channel <~ chanData (arg 0 message) false ;;
    (* [channel.key] on what [chanData] returned *)
    channel <~ defined channel ;;
    ch <~ deref channel ;;
    modify (fun cl => set_chans (dict_delete (key ch) (chans cl)) cl)
  else
    channel <~ chanData (arg 0 message) false ;;
    match channel with
    | None => ret tt
    | Some channel =>
        update_channel channel (fun ch =>
          set_users (dict_delete (to_text who) (users ch)) ch)
    end.

Definition case_PART (message : IMessage) : M Client unit :=
  emit (lit "part")
    [of_ostr (arg 0 message); of_ostr (ParseMessage.nick message);
     of_ostr (arg 1 message); VMessage message] ;;;
  emit_for_channel (lit "part") (arg 0 message)
    [of_ostr (ParseMessage.nick message); of_ostr (arg 1 message);
     VMessage message] ;;;
  leave_channel message (ParseMessage.nick message).

Definition case_KICK (message : IMessage) : M Client unit :=
  emit (lit "kick")
    [of_ostr (arg 0 message); of_ostr (arg 1 message);
     of_ostr (ParseMessage.nick message); of_ostr (arg 2 message);
     VMessage message] ;;;
  kick_listener (arg 0 message) ;;;
  emit_for_channel (lit "kick") (arg 0 message)
    [of_ostr (arg 1 message); of_ostr (ParseMessage.nick message);
     of_ostr (arg 2 message); VMessage message] ;;;
  leave_channel message (arg 1 message).

Definition case_KILL (message : IMessage) : M Client unit :=
  cl <~ get ;;
  let channels := dict_keys (chans cl) in
  each_channel_users (dict_delete (to_text (arg 0 message))) ;;;
  emit (lit "kill")
    [of_ostr (arg 0 message); of_ostr (arg 1 message); VStrings channels;
     VMessage message].

Definition case_QUIT (message : IMessage) : M Client unit :=
  cl <~ get ;;
  if ostr_eqb (nick cl) (ParseMessage.nick message) then ret tt
  else
    let channels := dict_keys (chans cl) in
    each_channel_users (dict_delete (to_text (ParseMessage.nick message))) ;;;
    emit (lit "quit")
      [of_ostr (ParseMessage.nick message); of_ostr (arg 0 message);
       VStrings channels; VMessage message].

(** The cases of the [switch] on [message.command] that read or write
    [this.chans]; the other cases leave it alone and are not modelled. *)
Definition channel_cases : list (str * (IMessage -> M Client unit)) :=
  [ (lit "MODE", case_MODE);
    (lit "NICK", case_NICK);
    (lit "rpl_namreply", case_rpl_namreply);
    (lit "rpl_endofnames", case_rpl_endofnames);
    (lit "rpl_topic", case_rpl_topic);
    (lit "rpl_topicwhotime", case_rpl_topicwhotime);
    (lit "TOPIC", case_TOPIC);
    (lit "rpl_channelmodeis", case_rpl_channelmodeis);
    (lit "rpl_creationtime", case_rpl_creationtime);
    (lit "JOIN", case_JOIN);
    (lit "PART", case_PART);
    (lit "KICK", case_KICK);
    (lit "KILL", case_KILL);
    (lit "QUIT", case_QUIT) ].

Definition raw_listener (message : IMessage) : option (M Client unit) :=
  option_map (fun f => f message) (dict_get (command message) channel_cases).

(** *** The connection: [connect], its [data] and [close] listeners *)

Section Connection.

Variable replyFor : str -> option reply_entry.
Variable stripColorsAndStyle : str -> str.

(** What the listeners of [raw] (the one of the constructor and those of
    the caller) do to the client when [this.emit("raw", message)] runs
    them, and whether they throw. *)
Variable raw_listeners : IMessage -> Client -> result unit * Client.

Definition run_raw_listeners (message : IMessage) : M Client unit :=
  fun cl => (fst (raw_listeners message cl), snd (raw_listeners message cl), []).

(** [connect(retryCount)], from the assignment of [this.chans] to the
    registration of the listeners; the socket's own [connect] callback
    is not part of it. *)
Definition connect (retryCount : option Z) : M Client Z :=
  let retryCount :=
    match retryCount with
    | Some z => z
    | None => 0%Z
    end in
  modify (set_chans []) ;;;
  tell OpenSocket ;;;
  modify (fun cl =>
    set_conn (Some (mkConn false
      (CyclingPingTimer.create
         (millisecondsOfSilenceBeforePingSent (opt cl))
         (millisecondsBeforePingTimeout (opt cl))))) cl) ;;;
  ret retryCount.

(** The [data] listener. [buffer] is a variable of the [connect] call;
    it is the first component of the state here. *)
Definition on_client {A : Type} (m : M Client A) : M (str * Client) A :=
  zoom snd (fun cl s => (fst s, cl)) m.

Definition handle_line (line : str) : M (str * Client) unit :=
  when (negb (length line =? 0)%nat)
    (s <~ get ;;
     message <~ of_result
       (parseMessage replyFor stripColorsAndStyle line (stripColors (opt (snd s)))) ;;
     try_catch
       (on_client
          (emit (lit "raw") [VMessage message] ;;; run_raw_listeners message))
       (fun err =>
          s <~ get ;;
          cn <~ defined (conn (snd s)) ;;
          if negb (requestedDisconnect cn) then throw err else ret tt)).

Definition handleData (chunk : str) : M (str * Client) unit :=
  on_client
    (cl <~ get ;;
     cn <~ defined (conn cl) ;;
     modify (set_conn (Some (mkConn (requestedDisconnect cn)
       (CyclingPingTimer.notifyOfActivity (cyclingPingTimer cn)))))) ;;;
  modify (fun s => (fst s ++ chunk, snd s)) ;;;
  s <~ get ;;
  let lines := split_lines (fst s) in
  if nonempty (last lines [])
  then ret tt
  else
    modify (fun s => ([], snd s)) ;;;
    forEach (removelast lines) handle_line.

(** The complete lines of a buffer: all pieces of the split but the
    last. *)
Definition complete_lines (buffer : str) : list str :=
  removelast (split_lines buffer).

(** The [raw] events of a list of lines: one for each line that is not
    empty and parses. *)
Definition raw_events (flag : bool) (lines : list str) : list action :=
  flat_map (fun line =>
    match parseMessage replyFor stripColorsAndStyle line flag with
    | Ok message => [Emit (lit "raw") [VMessage message]]
    | Throw _ => []
    end) (filter nonempty lines).

(** The client after [cyclingPingTimer.notifyOfActivity()]. *)
Definition notified (cl : Client) : Client :=
  match conn cl with
  | Some cn =>
      set_conn (Some (mkConn (requestedDisconnect cn)
        (CyclingPingTimer.notifyOfActivity (cyclingPingTimer cn)))) cl
  | None => cl
  end.

(** The [close] listener; [retryCount] is the variable of the
    [connect] call that registered it. *)
Definition close_listener (retryCount : Z) : M Client unit :=
  cl <~ get ;;
  if match conn cl with
     | Some cn => requestedDisconnect cn
     | None => false
     end
  then ret tt
  else
    let retry :=
      modify (fun cl =>
        set_reconnectTimeouts (reconnectTimeouts cl ++ [(retryCount + 1)%Z]) cl) in
    match Irc.retryCount (opt cl) with
    | Some cap =>
        if (retryCount >=? cap)%Z
        then emit (lit "abort") [VNumber cap]
        else retry
    | None => retry
    end.

(** The oldest pending reconnect timeout fires: [this.connect(retryCount
    + 1)]. The result is the retry count of the new connection. *)
Definition reconnect_fires : M Client (option Z) :=
  cl <~ get ;;
  match reconnectTimeouts cl with
  | [] => ret None
  | k :: rest =>
      modify (set_reconnectTimeouts rest) ;;;
      k' <~ connect (Some k) ;;
      ret (Some k')
  end.

(** [n] consecutive closes of the live socket, none asked for by the
    caller: after each, the pending reconnect timeout (if any) fires and
    opens the next socket; with nothing pending no socket is left to
    close. *)
Fixpoint consecutive_closes (n : nat) (retryCount : Z) : M Client unit :=
  match n with
  | O => ret tt
  | S n' =>
      close_listener retryCount ;;;
      next <~ reconnect_fires ;;
      match next with
      | Some k => consecutive_closes n' k
      | None => ret tt
      end
  end.

End Connection.

(** *** Reachable states of the channel map

    [this.chans] is assigned by [connect] and by [chanData], and the
    channel objects are written by the cases of the [raw] listener above;
    no other method or case of the class touches either. *)

Definition initial (o : Options) (n : str) : Client :=
  mkClient o (Some n) [] 200 [] [] []
    (supported.mkModes [] [] [] []) None [].

Inductive step : Client -> Client -> Prop :=
| step_raw (message : IMessage) (h : M Client unit) (cl cl' : Client)
    (r : result unit) (tr : list action) :
    raw_listener message = Some h ->
    h cl = (r, cl', tr) ->
    step cl cl'
| step_connect (retryCount : option Z) (cl cl' : Client)
    (r : result Z) (tr : list action) :
    connect retryCount cl = (r, cl', tr) ->
    step cl cl'
| step_other (cl cl' : Client) :
    chans cl' = chans cl ->
    step cl cl'.

Inductive reachable : Client -> Prop :=
| reachable_initial (o : Options) (n : str) : reachable (initial o n)
| reachable_step (cl cl' : Client) :
    reachable cl -> step cl cl' -> reachable cl'.

(** *** One channel object, before and after

    Two states hold the same channel map but for the object under [k]:
    the same properties in the same order, every other channel as it was,
    and under [k] still the object that was there (same [key] and
    [serverName]), whatever was written to its other fields. *)
Definition same_entry (k : str) (cl cl' : Client) : Prop :=
  dict_keys (chans cl') = dict_keys (chans cl) /\
  (forall k', k' <> k -> dict_get k' (chans cl') = dict_get k' (chans cl)) /\
  (forall ch, dict_get k (chans cl) = Some ch ->
     exists ch', dict_get k (chans cl') = Some ch' /\
                 key ch' = key ch /\ serverName ch' = serverName ch).

(** *** A client for the examples *)

(** The defaults of the class, with the retry count given. *)
Definition options_with_retries (cap : option Z) : Options :=
  mkOptions false cap 2000 false (15 * 1000) (8 * 1000).

Definition fresh_client : Client :=
  initial (options_with_retries (Some 2%Z)) (lit "bot").

(** The same client once [connect()] has run. *)
Definition connected_client : Client :=
  snd (fst (connect None fresh_client)).

(** A message as the parser builds it from [:nick!user@host COMMAND
    args], with the fields the dispatcher reads. *)
Definition message_from (sender : str) (command : str) (arguments : list str)
  : IMessage :=
  mkMessage (Some (sender ++ lit "!user@host")) (Some sender) (Some (lit "user"))
    (Some (lit "host")) None command command normal arguments.

(** The state after the [raw] listener has handled [messages] in order. *)
Definition dispatch (cl : Client) (message : IMessage) : Client :=
  match raw_listener message with
  | Some h => snd (fst (h cl))
  | None => cl
  end.

Definition after (messages : list IMessage) (cl : Client) : Client :=
  fold_left dispatch messages cl.

(** The client in two channels: alice is in [#a] with it, bob in [#b]. *)
Definition in_two_channels : Client :=
  after [ message_from (lit "bot") (lit "JOIN") [lit "#a"];
          message_from (lit "bot") (lit "JOIN") [lit "#b"];
          message_from (lit "alice") (lit "JOIN") [lit "#a"];
          message_from (lit "bob") (lit "JOIN") [lit "#b"] ]
    fresh_client.

(** Listeners of [raw] that do nothing. *)
Definition no_listeners (message : IMessage) (cl : Client)
  : result unit * Client :=
  (Ok tt, cl).

End Irc.

(** * More of the client *)

(** ** Lines on the wire *)

Module Wire.

(** [" " + m1 + " " + m2 ...]: the middle parameters, each after one
    space. *)
Definition join_params (ms : list str) : str :=
  flat_map (fun m => " " :: m) ms.

(** The trailing parameter, when there is one: a space, a colon and the
    text. *)
Definition trailing_part (t : option str) : str :=
  match t with
  | Some x => " " :: ":" :: x
  | None => []
  end.

(** [COMMAND m1 ... mk :trailing] *)
Definition command_line (cmd : str) (ms : list str) (t : option str) : str :=
  cmd ++ join_params ms ++ trailing_part t.

(** What the parser keeps of the trailing parameter: an empty one is
    not pushed. *)
Definition trailing_args (t : option str) : list str :=
  match t with
  | Some x => if nonempty x then [x] else []
  | None => []
  end.

(** A command token: not empty, free of spaces, not opened by a colon. *)
Definition command_word (cmd : str) : bool :=
  nonempty cmd && forallb not_space cmd && negb (starts_with_colon cmd).

End Wire.

(** ** Reading a trace of watchdog events *)

Module Watchdog.

Import CyclingPingTimer.

(** Whether the last event of a trace is [wantPing]; [w] answers for the
    empty trace. *)
Definition last_wantPing (w : bool) (events : list timer_event) : bool :=
  fold_left (fun _ e => match e with wantPing => true | pingTimeout => false end)
    events w.

(** Every [pingTimeout] of the trace comes directly after a [wantPing];
    [w] tells whether a [wantPing] came directly before the trace. *)
Fixpoint paired (w : bool) (events : list timer_event) : bool :=
  match events with
  | [] => true
  | wantPing :: rest => paired true rest
  | pingTimeout :: rest => w && paired false rest
  end.

Definition is_start (i : input) : bool :=
  match i with
  | Start => true
  | _ => false
  end.

End Watchdog.

(** ** Ending a session: [end] and [disconnect] *)

Module Session.

Import Irc.

(** [end()]. The socket's [destroy()] acts on the socket alone. *)
Definition end_ : M Client unit :=
  cl <~ get ;;
  match conn cl with
  | Some cn =>
      modify (set_conn (Some (mkConn (requestedDisconnect cn)
        (CyclingPingTimer.stop (cyclingPingTimer cn)))))
  | None => ret tt
  end ;;;
  modify (set_conn None).

(** [disconnect(message)] without flood protection and without a
    callback. [readyState_open] is what the socket answers to
    [readyState == "open"]; the socket's [end()] acts on the socket
    alone. An empty message is falsy and gives way to the default. *)
Definition disconnect (message : option str) (readyState_open : bool)
  : M Client unit :=
  let message :=
    match message with
    | Some (x :: r) => x :: r
    | _ => lit "node-irc says goodbye"
    end in
  cl <~ get ;;
  _ <~ defined (conn cl) ;;
  when readyState_open (send [lit "QUIT"; message]) ;;;
  cl <~ get ;;
  cn <~ defined (conn cl) ;;
  modify (set_conn (Some (mkConn true (cyclingPingTimer cn)))).

(** How many reconnects [closes] consecutive closes lead to under a cap,
    and the [abort] that ends them. *)
Definition reconnects (cap : option Z) (closes : nat) : nat :=
  match cap with
  | Some c => Nat.min closes (Z.to_nat c)
  | None => closes
  end.

Definition gives_up (cap : option Z) (closes : nat) : list action :=
  match cap with
  | Some c =>
      if (Z.to_nat c <? closes)%nat then [Emit (lit "abort") [VNumber c]] else []
  | None => []
  end.

End Session.

(** ** Speaking: [say], [notice] and [_speak] *)

Module Speaking.

Import Splitter Irc.

(** [text.split(/\r?\n/)]: a line feed ends a piece, and takes a carriage
    return directly before it along. *)
Fixpoint split_newlines_from (cur : str) (s : str) : list str :=
  match s with
  | [] => [cur]
  | c :: r =>
      if (code c =? 10)%nat then cur :: split_newlines_from [] r
      else if (code c =? 13)%nat then
        match r with
        | c' :: r' =>
            if (code c' =? 10)%nat then cur :: split_newlines_from [] r'
            else split_newlines_from (cur ++ [c]) r
        | [] => split_newlines_from (cur ++ [c]) r
        end
      else split_newlines_from (cur ++ [c]) r
  end.

Definition split_newlines (s : str) : list str := split_newlines_from [] s.

Section Speak.

(** [this.opt.messageSplit] *)
Variable messageSplit : Z.

(** [_speak(kind, target, text)]; [text] may be [undefined]. *)
Definition _speak (kind target : str) (text : option str) : M Client unit :=
  cl <~ get ;;
  let maxLength :=
    Z.min (maxLineLength cl - Z.of_nat (length target)) messageSplit in
  match text with
  | None => ret tt
  | Some text =>
      forEach (filter nonempty (split_newlines text)) (fun line =>
        linesToSend <~ of_result (_splitLongLines line maxLength []) ;;
        forEach linesToSend (fun toSend =>
          send [kind; target; toSend] ;;;
          when (str_eqb kind (lit "PRIVMSG"))
            (emit (lit "selfMessage") [VString target; VString toSend])))
  end.

Definition say (target : str) (text : option str) : M Client unit :=
  _speak (lit "PRIVMSG") target text.

Definition notice (target : str) (text : option str) : M Client unit :=
  _speak (lit "NOTICE") target text.

End Speak.

(** What the server relays to the other clients for a line [l] this
    client wrote: the line behind the client's prefix. *)
Definition relayed (n hostMask l : str) : str :=
  lit ":" ++ n ++ lit "!" ++ hostMask ++ lit " " ++ l.

(** An action of [say]: a line that, relayed, is at most 512 characters
    long with its CR LF, or the [selfMessage] event. *)
Definition within_limit (n hostMask : str) (a : action) : Prop :=
  match a with
  | Write l => (length (relayed n hostMask l) <= 512)%nat
  | Emit name _ => name = lit "selfMessage"
  | OpenSocket => False
  end.

End Speaking.

(** ** Flood protection *)

Module FloodProtection.

Import Irc.

(** The state after [activateFloodProtection]: the variable [cmdQueue]
    of the call, and the client. [_sendImmediate] and [_clearCmdQueue]
    are not modelled. *)
Definition protected : Type := (list (list str) * Client)%type.

(** What [this.send] is replaced with. *)
Definition send (arguments : list str) : M protected unit :=
  modify (fun s => (fst s ++ [arguments], snd s)).

(** [dequeue]: the callback of the interval; [origSend] is the [send] of
    the class. *)
Definition dequeue : M protected unit :=
  s <~ get ;;
  match fst s with
  | [] => ret tt
  | arguments :: rest =>
      modify (fun s => (rest, snd s)) ;;;
      zoom snd (fun cl s => (fst s, cl)) (Irc.send arguments)
  end.

(** [activateFloodProtection()]: a fresh queue, and one [dequeue()] at
    once. *)
Definition activateFloodProtection (cl : Client)
  : result unit * protected * list action :=
  dequeue ([], cl).

(** The interval fires [n] times. *)
Fixpoint ticks (n : nat) : M protected unit :=
  match n with
  | O => ret tt
  | S n' => dequeue ;;; ticks n'
  end.

End FloodProtection.

(** ** What is known about a nick: [_addWhoisData], [_clearWhoisData] *)

Module Whois.

Import Irc.

(** [this._whoisData]: for each nick an object with the properties
    collected so far. *)
Definition whois_data : Type := dict (dict jsval).

Definition _addWhoisData (nick key : str) (value : jsval) (onlyIfExists : bool)
  (w : whois_data) : whois_data :=
  if onlyIfExists && negb (dict_has nick w) then w
  else
    let entry :=
      match dict_get nick w with
      | Some e => e
      | None => [(lit "nick", VString nick)]
      end in
    dict_set nick (dict_set key value entry) w.

(** [_clearWhoisData(nick)]: the object returned, and the state left. *)
Definition _clearWhoisData (nick : str) (w : whois_data)
  : option (dict jsval) * whois_data :=
  let w := _addWhoisData nick (lit "nick") (VString nick) false w in
  (dict_get nick w, dict_delete nick w).

End Whois.

(** ** Private messages and CTCP *)

Module Ctcp.

Import ParseMessage Irc Speaking.

(** The delimiter of a CTCP text, U+0001. *)
Definition SOH : ascii := ascii_of_nat 1.

(** [s.indexOf(c)], [None] standing for -1. *)
Fixpoint index_of (c : ascii) (s : str) : option nat :=
  match s with
  | [] => None
  | x :: r => if Ascii.eqb x c then Some 0%nat else option_map S (index_of c r)
  end.

(** [s.slice(0, i)] for the [i] that [indexOf] gave: -1 counts from the
    end and drops the last character. *)
Definition slice_to (i : option nat) (s : str) : str :=
  match i with
  | Some n => firstn n s
  | None => removelast s
  end.

Section Client.

(** [this.opt.messageSplit], [this.supported.channel.types] and
    [String.prototype.toUpperCase]. *)
Variable messageSplit : Z.
Variable channel_types : str.
Variable toUpperCase : str -> str.

(** [ctcp(to, type, text)] *)
Definition ctcp (to : option str) (type text : str) : M Client unit :=
  to <~ defined to ;;
  (if str_eqb type (lit "privmsg") then say messageSplit else notice messageSplit)
    to (Some (SOH :: text ++ [SOH])).

(** [_handleCTCP(from, to, text, type, message)] *)
Definition _handleCTCP (from to : option str) (text type : str)
  (message : IMessage) : M Client unit :=
  let text := tl text in
  let text := slice_to (index_of SOH text) text in
  let parts := split_on_space text in
  emit (lit "ctcp")
    [of_ostr from; of_ostr to; VString text; VString type; VMessage message] ;;;
  emit (lit "ctcp-" ++ type)
    [of_ostr from; of_ostr to; VString text; VMessage message] ;;;
  when (str_eqb type (lit "privmsg") && str_eqb text (lit "VERSION"))
    (emit (lit "ctcp-version") [of_ostr from; of_ostr to; VMessage message]) ;;;
  when (ostr_eqb (hd_error parts) (Some (lit "ACTION"))
        && (1 <? length parts)%nat)
    (emit (lit "action")
       [of_ostr from; of_ostr to; VString (join_with_space (tl parts));
        VMessage message]) ;;;
  when (ostr_eqb (hd_error parts) (Some (lit "PING"))
        && str_eqb type (lit "privmsg") && (1 <? length parts)%nat)
    (ctcp from (lit "notice") text).

(** The PRIVMSG case of the [raw] listener. *)
Definition case_PRIVMSG (message : IMessage) : M Client unit :=
  let from := ParseMessage.nick message in
  let to := arg 0 message in
  let text :=
    match arg 1 message with
    | Some (x :: r) => x :: r
    | _ => []
    end in
  if match text with
     | x :: r => Ascii.eqb x SOH && existsb (fun y => Ascii.eqb y SOH) r
     | [] => false
     end
  then _handleCTCP from to text (lit "privmsg") message
  else
    emit (lit "message")
      [of_ostr from; of_ostr to; VString text; VMessage message] ;;;
    to <~ defined to ;;
    when (includes (firstn 1 to) channel_types)
      (emit (lit "message#")
         [of_ostr from; VString to; VString text; VMessage message] ;;;
       emit (lit "message" ++ to) [of_ostr from; VString text; VMessage message] ;;;
       when (negb (str_eqb to (toLowerCase to)))
         (emit (lit "message" ++ toLowerCase to)
            [of_ostr from; VString text; VMessage message])) ;;;
    cl <~ get ;;
    n <~ defined (nick cl) ;;
    when (str_eqb (toUpperCase to) (toUpperCase n))
      (emit (lit "pm") [of_ostr from; VString text; VMessage message]).

End Client.

End Ctcp.

(** ** Reading a names reply *)

Module Names.

Import Irc.

(** What one name of a names reply is listed as: the nick and its prefix
    string, the first character counting as a prefix when it is a
    property of [modeForPrefix]. *)
Definition listed (modeForPrefix : dict (option str)) (name : str)
  : str * option str :=
  match name with
  | c :: r =>
      if dict_has [c] modeForPrefix then (r, Some [c]) else (c :: r, Some [])
  | [] => ([], None)
  end.

(** The user map after the names have been entered in order. *)
Definition enter (modeForPrefix : dict (option str)) (names : list str)
  (users : dict (option str)) : dict (option str) :=
  fold_left (fun u name =>
               dict_set (fst (listed modeForPrefix name))
                 (snd (listed modeForPrefix name)) u)
    names users.

End Names.

(** * Properties *)

Unset Implicit Arguments.

(** ** Strings *)

Lemma span_stops (p : ascii -> bool) (xs : str) (c0 : ascii) (r : str) :
  forallb p xs = true -> p c0 = false ->
  span p (xs ++ c0 :: r) = (xs, c0 :: r).
Proof.
  intros Hxs Hc. induction xs as [|x xs IH]; simpl.
  - now rewrite Hc.
  - simpl in Hxs. apply andb_prop in Hxs as [Hx Hxs].
    rewrite Hx, (IH Hxs). reflexivity.
Qed.

Lemma span_all (p : ascii -> bool) (xs : str) :
  forallb p xs = true -> span p xs = (xs, []).
Proof.
  intros Hxs. induction xs as [|x xs IH]; simpl; [reflexivity|].
  simpl in Hxs. apply andb_prop in Hxs as [Hx Hxs].
  now rewrite Hx, (IH Hxs).
Qed.

Lemma span_none (p : ascii -> bool) (c0 : ascii) (r : str) :
  p c0 = false -> span p (c0 :: r) = ([], c0 :: r).
Proof. intros Hc. simpl. now rewrite Hc. Qed.

Lemma forallb_weaken (p q : ascii -> bool) (xs : str) :
  (forall x, p x = true -> q x = true) ->
  forallb p xs = true -> forallb q xs = true.
Proof.
  intros Hpq H. rewrite forallb_forall in *. auto.
Qed.

Lemma not_ws_not_space (x : ascii) :
  negb (is_ws x) = true -> not_space x = true.
Proof.
  unfold not_space, is_space, is_ws. intros H.
  destruct (Ascii.eqb_spec x " ") as [->|]; [discriminate H | reflexivity].
Qed.

Lemma not_ws_is_dot (x : ascii) :
  negb (is_ws x) = true -> is_dot x = true.
Proof.
  unfold is_dot, is_ws. intros H.
  destruct (Nat.eqb_spec (code x) 10) as [E|]; [rewrite E in H; discriminate H|].
  destruct (Nat.eqb_spec (code x) 13) as [E|]; [rewrite E in H; discriminate H|].
  reflexivity.
Qed.

Lemma nonempty_true (s : str) : s <> [] -> nonempty s = true.
Proof. destruct s; [congruence | reflexivity]. Qed.

Lemma split_spaces_from_token (cur w r : str) :
  forallb not_space w = true ->
  split_spaces_from false cur (w ++ " " :: r)
  = (cur ++ w) :: split_spaces_from true [] r.
Proof.
  revert cur. induction w as [|x w IH]; intros cur Hw; simpl.
  - now rewrite app_nil_r.
  - simpl in Hw. apply andb_prop in Hw as [Hx Hw].
    unfold not_space in Hx. apply negb_true_iff in Hx. rewrite Hx.
    rewrite (IH _ Hw), <- app_assoc. reflexivity.
Qed.

Lemma split_spaces_from_last (b0 : bool) (cur w : str) :
  w <> [] -> forallb not_space w = true ->
  split_spaces_from b0 cur w = [cur ++ w].
Proof.
  revert b0 cur. induction w as [|x w IH]; intros b0 cur Hne Hw; [congruence|].
  simpl in *. apply andb_prop in Hw as [Hx Hw].
  unfold not_space in Hx. apply negb_true_iff in Hx. rewrite Hx.
  destruct w as [|y w].
  - reflexivity.
  - rewrite IH by (congruence || assumption).
    now rewrite <- app_assoc.
Qed.

(** ** The parser *)

Module ParseMessageProofs.

Import ParseMessage.

Lemma nick_char_not_space (x : ascii) :
  is_nick_char x = true -> not_space x = true.
Proof.
  unfold not_space, is_space.
  destruct (Ascii.eqb_spec x " ") as [->|]; [discriminate | reflexivity].
Qed.

Lemma span_one_space (w r : str) :
  w <> [] -> forallb not_space w = true ->
  span is_space (" " :: w ++ r) = ([" "], w ++ r).
Proof.
  intros Hne Hw. destruct w as [|x w]; [congruence|].
  simpl in Hw. apply andb_prop in Hw as [Hx _].
  unfold not_space in Hx. apply negb_true_iff in Hx.
  cbn [span app]. change (is_space " ") with true. cbn iota.
  now rewrite Hx.
Qed.

Lemma colon_here_token (at0 : bool) (x : ascii) (r : str) :
  is_ws x = false -> (at0 = true -> x <> ":") ->
  colon_here at0 (x :: r) = None.
Proof.
  intros Hx Hc.
  assert (Hw : ws_colon (x :: r) = None).
  { unfold ws_colon. now rewrite (span_none is_ws x r Hx). }
  unfold colon_here.
  destruct (ascii_dec x ":") as [->|Hne].
  - destruct at0; [now destruct Hc | exact Hw].
  - destruct x as [[] [] [] [] [] [] [] []]; try exact Hw; congruence.
Qed.

(** The lazy group runs over a token that neither holds white space nor
    opens the line with a colon. *)
Lemma lazy_colon_token (w : str) : forall (at0 : bool) (acc r : str),
  forallb (fun x => negb (is_ws x)) w = true ->
  (at0 = true -> starts_with_colon w = false) ->
  w <> [] ->
  lazy_colon at0 acc (w ++ r) = lazy_colon false (acc ++ w) r.
Proof.
  induction w as [|x w IH]; intros at0 acc r Hw Hc Hne; [congruence|].
  simpl in Hw. apply andb_prop in Hw as [Hx Hw].
  apply negb_true_iff in Hx.
  cbn [app lazy_colon].
  rewrite colon_here_token; [|assumption|].
  - rewrite (not_ws_is_dot x) by now rewrite Hx.
    destruct w as [|y w].
    + reflexivity.
    + rewrite IH; [| assumption | discriminate | discriminate].
      now rewrite <- app_assoc.
  - intros E ->. specialize (Hc E). discriminate Hc.
Qed.

Lemma lazy_colon_space (acc w r : str) :
  middle w = true ->
  lazy_colon false acc (" " :: w ++ r) = lazy_colon false (acc ++ [" "]) (w ++ r).
Proof.
  unfold middle. intros H.
  apply andb_prop in H as [H Hc]. apply andb_prop in H as [Hne Hw].
  destruct w as [|x w]; [discriminate|].
  cbn [lazy_colon].
  assert (Hx : is_ws x = false).
  { simpl in Hw. apply andb_prop in Hw as [Hx _]. now apply negb_true_iff. }
  assert (Hcol : colon_here false (" " :: (x :: w) ++ r) = None).
  { unfold colon_here, ws_colon. cbn [span app].
    change (is_ws " ") with true. cbn iota. rewrite Hx.
    destruct x as [[] [] [] [] [] [] [] []]; try reflexivity.
    discriminate Hc. }
  rewrite Hcol. reflexivity.
Qed.

Lemma lazy_colon_trailing (acc t : str) :
  lazy_colon false acc (" " :: ":" :: t) = Some (acc, fst (span is_dot t)).
Proof.
  destruct t; reflexivity.
Qed.

Lemma middle_parts (w : str) :
  middle w = true ->
  w <> [] /\ forallb (fun x => negb (is_ws x)) w = true /\
  starts_with_colon w = false /\ forallb not_space w = true.
Proof.
  unfold middle. intros H.
  apply andb_prop in H as [H Hc]. apply andb_prop in H as [Hne Hw].
  repeat split.
  - destruct w; [discriminate | congruence].
  - assumption.
  - now apply negb_true_iff.
  - eapply forallb_weaken; [|exact Hw]. apply not_ws_not_space.
Qed.

(** The two middle parameters and the trailing one, as the lazy pattern
    reads them. *)
Lemma lazy_colon_params (a b t : str) :
  middle a = true -> middle b = true ->
  lazy_colon true [] (a ++ " " :: b ++ " " :: ":" :: t)
  = Some (a ++ " " :: b, fst (span is_dot t)).
Proof.
  intros Ha Hb.
  destruct (middle_parts a Ha) as (Hane & Haw & Hac & _).
  destruct (middle_parts b Hb) as (Hbne & Hbw & Hbc & _).
  rewrite lazy_colon_token by auto.
  rewrite lazy_colon_space by assumption.
  rewrite lazy_colon_token by (auto || discriminate).
  rewrite lazy_colon_trailing. simpl.
  now rewrite <- app_assoc.
Qed.

Lemma lazy_colon_found (s : str) : forall (at0 : bool) (acc : str) (r : str * str),
  lazy_colon at0 acc s = Some r -> search_colon_from at0 s = true.
Proof.
  induction s as [|x s IH]; intros at0 acc r H.
  - cbn [lazy_colon search_colon_from] in *.
    destruct (colon_here at0 []); [reflexivity | discriminate].
  - cbn [lazy_colon search_colon_from] in *.
    destruct (colon_here at0 (x :: s)); [reflexivity|].
    destruct (is_dot x); [eauto | discriminate].
Qed.

(** Whenever the search finds the colon the match does too: the
    destructuring of the match never meets [null]. *)
Lemma search_colon_matches (s : str) : forall (at0 : bool),
  search_colon_from at0 s = true ->
  exists r, match_params_from at0 s = Some r.
Proof.
  induction s as [|x s IH]; intros at0 H.
  - cbn in *. discriminate H.
  - cbn [search_colon_from match_params_from lazy_colon] in *.
    destruct (colon_here at0 (x :: s)); [eauto|].
    destruct (is_dot x).
    + destruct (lazy_colon false ([] ++ [x]) s); eauto.
    + eauto.
Qed.

Lemma split_two (a b : str) :
  middle a = true -> middle b = true ->
  split_spaces (a ++ " " :: b) = [a; b].
Proof.
  intros Ha Hb.
  destruct (middle_parts a Ha) as (_ & _ & _ & Has).
  destruct (middle_parts b Hb) as (Hbne & _ & _ & Hbs).
  unfold split_spaces. rewrite split_spaces_from_token by assumption.
  now rewrite split_spaces_from_last.
Qed.

Lemma trimRight_middle (a b : str) :
  middle b = true -> trimRight (a ++ " " :: b) = a ++ " " :: b.
Proof.
  intros Hb. destruct (middle_parts b Hb) as (Hbne & Hbw & _ & _).
  unfold trimRight.
  destruct (exists_last Hbne) as (b' & z & ->).
  rewrite forallb_app in Hbw. apply andb_prop in Hbw as [_ Hz].
  simpl in Hz. rewrite andb_true_r in Hz. apply negb_true_iff in Hz.
  change (a ++ " " :: b' ++ [z]) with (a ++ (" " :: b') ++ [z]).
  rewrite app_assoc, rev_app_distr. cbn [rev app].
  rewrite (span_none is_ws z _ Hz). cbn [snd].
  change (z :: rev (a ++ " " :: b')) with (rev [z] ++ rev (a ++ " " :: b')).
  now rewrite <- rev_app_distr, rev_involutive.
Qed.

Lemma match_prefix_token (p w r : str) :
  p <> [] -> forallb not_space p = true ->
  w <> [] -> forallb not_space w = true ->
  match_prefix (":" :: p ++ " " :: w ++ r) = Some p /\
  strip_prefix (":" :: p ++ " " :: w ++ r) = w ++ r.
Proof.
  intros Hp Hps Hw Hws. unfold match_prefix, strip_prefix.
  rewrite (span_stops not_space p " " (w ++ r) Hps eq_refl).
  rewrite (span_one_space w r Hw Hws).
  rewrite (nonempty_true p Hp). split; reflexivity.
Qed.

Lemma match_nick_full (n u h : str) :
  forallb is_nick_char n = true ->
  u <> [] -> forallb not_at u = true ->
  forallb is_dot h = true ->
  match_nick (n ++ "!" :: u ++ "@" :: h) = Some (n, Some u, Some h).
Proof.
  intros Hn Hu Hus Hh. unfold match_nick.
  rewrite (span_stops is_nick_char n "!" _ Hn eq_refl).
  rewrite (span_stops not_at u "@" h Hus eq_refl).
  now rewrite (nonempty_true u Hu), Hh.
Qed.

Lemma match_command_token (cmd w r : str) :
  cmd <> [] -> forallb not_space cmd = true ->
  w <> [] -> forallb not_space w = true ->
  match_command (cmd ++ " " :: w ++ r) = Some cmd /\
  strip_command (cmd ++ " " :: w ++ r) = w ++ r.
Proof.
  intros Hc Hcs Hw Hws. unfold match_command, strip_command.
  rewrite (span_stops not_space cmd " " (w ++ r) Hcs eq_refl).
  rewrite (span_one_space w r Hw Hws).
  rewrite (nonempty_true cmd Hc). split; reflexivity.
Qed.

Section Parsing.

Variable replyFor : str -> option reply_entry.
Variable stripColorsAndStyle : str -> str.

Lemma parse_params_two (trim : str -> str) (a b t : str) :
  middle a = true -> middle b = true ->
  t <> [] -> forallb is_dot t = true ->
  trim (a ++ " " :: b) = a ++ " " :: b ->
  parse_params trim (a ++ " " :: b ++ " " :: ":" :: t) = Ok [a; b; t].
Proof.
  intros Ha Hb Ht Htd Htrim. unfold parse_params.
  pose proof (lazy_colon_params a b t Ha Hb) as Hlazy.
  unfold search_colon, match_params.
  rewrite (lazy_colon_found _ _ _ _ Hlazy).
  destruct (a ++ " " :: b ++ " " :: ":" :: t) as [|x s] eqn:E.
  - destruct a; discriminate E.
  - cbn [match_params_from]. rewrite Hlazy. cbn [bind].
    rewrite Htrim, (span_all is_dot t Htd). cbn [fst].
    rewrite (nonempty_true t Ht).
    assert (Hne : nonempty (a ++ " " :: b) = true) by (destruct a; reflexivity).
    rewrite Hne, (split_two a b Ha Hb). reflexivity.
Qed.

Lemma parseMessage_with_well_formed (trim : str -> str)
  (n u h cmd a b t : str) (stripColors : bool) :
  well_formed n u h cmd a b t = true ->
  (if stripColors then stripColorsAndStyle (line_of n u h cmd a b t)
   else line_of n u h cmd a b t) = line_of n u h cmd a b t ->
  trim (a ++ " " :: b) = a ++ " " :: b ->
  parseMessage_with replyFor stripColorsAndStyle trim
    (line_of n u h cmd a b t) stripColors
  = Ok (parsed replyFor n u h cmd a b t).
Proof.
  unfold well_formed. intros Hwf Hstrip Htrim.
  rewrite !andb_true_iff in Hwf.
  destruct Hwf as (((((((((Hn & Hune) & Hu') & Hh') & Hcne) & Hcs) & Ha) & Hb)
                     & Htne) & Htd).
  assert (Hu : u <> []) by (destruct u; [discriminate | congruence]).
  assert (Hcmd : cmd <> []) by (destruct cmd; [discriminate | congruence]).
  assert (Ht : t <> []) by (destruct t; [discriminate | congruence]).
  destruct (middle_parts a Ha) as (Hane & _ & _ & Has).
  assert (Hus : forallb not_space u = true).
  { eapply forallb_weaken; [|exact Hu']. intros x Hx.
    now apply andb_prop in Hx as [_ Hx]. }
  assert (Hua : forallb not_at u = true).
  { eapply forallb_weaken; [|exact Hu']. intros x Hx.
    now apply andb_prop in Hx as [Hx _]. }
  assert (Hhs : forallb not_space h = true).
  { eapply forallb_weaken; [|exact Hh']. intros x Hx.
    now apply andb_prop in Hx as [Hx _]. }
  assert (Hhd : forallb is_dot h = true).
  { eapply forallb_weaken; [|exact Hh']. intros x Hx.
    now apply andb_prop in Hx as [_ Hx]. }
  assert (Hps : forallb not_space (n ++ "!" :: u ++ "@" :: h) = true).
  { rewrite forallb_app. cbn [forallb]. rewrite forallb_app. cbn [forallb].
    rewrite Hus, Hhs.
    rewrite (forallb_weaken is_nick_char not_space n nick_char_not_space Hn).
    reflexivity. }
  assert (Hp : n ++ "!" :: u ++ "@" :: h <> []) by (destruct n; discriminate).
  unfold parseMessage_with. rewrite Hstrip.
  assert (Hline : line_of n u h cmd a b t
            = ":" :: (n ++ "!" :: u ++ "@" :: h) ++ " " :: cmd
                  ++ (" " :: a ++ " " :: b ++ " " :: ":" :: t)).
  { unfold line_of. rewrite <- !app_assoc. cbn [app].
    rewrite <- !app_assoc. reflexivity. }
  unfold parse_prefix. rewrite Hline.
  destruct (match_prefix_token (n ++ "!" :: u ++ "@" :: h) cmd
              (" " :: a ++ " " :: b ++ " " :: ":" :: t) Hp Hps Hcmd Hcs)
    as [-> ->].
  rewrite (match_nick_full n u h Hn Hu Hua Hhd).
  destruct (match_command_token cmd a (" " :: b ++ " " :: ":" :: t)
              Hcmd Hcs Hane Has) as [E1 E2].
  rewrite E1, E2.
  rewrite parse_params_two by assumption.
  unfold parsed. destruct (normalize replyFor cmd). reflexivity.
Qed.


Lemma parse_params_returns (trim : str -> str) (line : str) :
  exists l, parse_params trim line = Ok l.
Proof.
  unfold parse_params, search_colon, match_params.
  destruct (search_colon_from true line) eqn:E.
  - destruct (search_colon_matches line true E) as [[m t] ->].
    cbn [bind]. eauto.
  - cbn [bind]. eauto.
Qed.

Lemma parseMessage_with_token (trim : str -> str) (line tok : str)
  (stripColors : bool) :
  command_token (if stripColors then stripColorsAndStyle line else line)
  = Some tok ->
  exists m : IMessage,
    parseMessage_with replyFor stripColorsAndStyle trim line stripColors = Ok m /\
    rawCommand m = tok /\
    command m = fst (normalize replyFor tok) /\
    commandType m = snd (normalize replyFor tok).
Proof.
  unfold command_token, parseMessage_with. intros Htok.
  destruct (parse_prefix (if stripColors then stripColorsAndStyle line else line))
    as [[[[[pfx n] u] h] srv] rest].
  cbn [snd] in Htok. rewrite Htok.
  destruct (normalize replyFor tok) as [cmd ty] eqn:En.
  destruct (parse_params_returns trim (strip_command rest)) as [l ->].
  cbn [bind]. eexists. repeat split.
Qed.

(** C8. A line with a command token (read after the colour filter, when
    the caller asked for it) parses, and the token decides the two command
    fields: a token that is a key of the reply table gives [command] the
    table's name and [commandType] the table's classification; any other
    token gives [commandType = normal] and [command = rawCommand], the
    token itself. *)
Theorem parseMessage_normalizes_command (line tok : str) (stripColors : bool) :
  command_token (if stripColors then stripColorsAndStyle line else line)
  = Some tok ->
  exists m : IMessage,
    parseMessage replyFor stripColorsAndStyle line stripColors = Ok m /\
    rawCommand m = tok /\
    (forall e : reply_entry, replyFor tok = Some e ->
       command m = reply_name e /\ commandType m = reply_type e) /\
    (replyFor tok = None ->
       commandType m = normal /\ command m = rawCommand m).
Proof.
  intros Htok.
  destruct (parseMessage_with_token (fun m => m) line tok stripColors Htok)
    as (m & Hm & Hraw & Hcmd & Hty).
  exists m. unfold normalize in Hcmd, Hty.
  split; [assumption|]. split; [assumption|]. split.
  - intros e He. rewrite He in Hcmd, Hty. auto.
  - intros Hn. rewrite Hn in Hcmd, Hty. cbn [fst snd] in Hcmd, Hty.
    split; congruence.
Qed.

End Parsing.


Lemma parseMessage_normalizes_command_witness :
  exists m : IMessage,
    parseMessage sample_replies (fun s => s)
      (lit ":irc.example.org 433 * bot :Nickname is already in use") false
    = Ok m /\
    rawCommand m = lit "433" /\
    (forall e : reply_entry, sample_replies (lit "433") = Some e ->
       command m = reply_name e /\ commandType m = reply_type e) /\
    (sample_replies (lit "433") = None ->
       commandType m = normal /\ command m = rawCommand m).
Proof.
  exact (parseMessage_normalizes_command sample_replies (fun s => s)
           (lit ":irc.example.org 433 * bot :Nickname is already in use")
           (lit "433") false eq_refl).
Defined.

(** The claim that the empty line parses to a message without arguments
    fails: no message comes back. *)
Lemma parseMessage_empty_line_no_message :
  ~ exists m : IMessage,
      parseMessage sample_replies (fun s => s) (lit "") false = Ok m /\
      args m = [].
Proof.
  intros (m & Hm & _). discriminate Hm.
Qed.

(** C9, amended. On the empty line the command pattern finds no token and
    either version of the parser throws a [TypeError] instead of returning
    a message; the [data] listener skips an empty line without calling the
    parser. *)
Theorem parseMessage_empty_line_throws
  (replyFor : str -> option reply_entry) (stripColorsAndStyle : str -> str)
  (raw_listeners : IMessage -> Irc.Client -> result unit * Irc.Client)
  (s : str * Irc.Client) :
  parseMessage replyFor stripColorsAndStyle (lit "") false = Throw TypeError /\
  parseMessage_default replyFor stripColorsAndStyle (lit "") false
  = Throw TypeError /\
  Irc.handle_line replyFor stripColorsAndStyle raw_listeners (lit "") s
  = (Ok tt, s, []).
Proof.
  repeat split; reflexivity.
Qed.

End ParseMessageProofs.

(** ** The long-line splitter *)

Module SplitterProofs.

Import Splitter.

Lemma splitLongLines_unfold (w : str) (n : Z) (d : list str) :
  _splitLongLines w n d =
  match find_cut w (or_450 n) with
  | Empty => Ok d
  | Whole => Ok (d ++ [w])
  | Fault => Throw TypeError
  | CutAt c ws =>
      _splitLongLines (substring_from (c + ws) w) (or_450 n)
        (d ++ [substring_to c w])
  end.
Proof.
  simp _splitLongLines.
  unfold _splitLongLines_unfold_clause_1, Logic.inspect.
  generalize (find_cut w (or_450 n)).
  intros c; destruct c; reflexivity.
Qed.

Lemma split_cuts_unfold (w : str) (n : Z) :
  split_cuts w n =
  match find_cut w (or_450 n) with
  | Empty => []
  | Whole => [(w, 0%nat)]
  | Fault => []
  | CutAt c ws =>
      (substring_to c w, ws)
        :: split_cuts (substring_from (c + ws) w) (or_450 n)
  end.
Proof.
  simp split_cuts.
  unfold split_cuts_unfold_clause_1, Logic.inspect.
  generalize (find_cut w (or_450 n)).
  intros c; destruct c; reflexivity.
Qed.

Lemma or_450_positive (n : Z) : (0 < n)%Z -> or_450 n = n.
Proof.
  intros H. unfold or_450. destruct (Z.eqb_spec n 0); [lia | reflexivity].
Qed.

(** The backward scan stays inside the string and stops on white space. *)
Lemma scan_back_inside (w : str) (pos : nat) :
  (pos < length w)%nat ->
  scan_back w pos = Ok None \/
  exists p x, scan_back w pos = Ok (Some p) /\ (1 <= p <= pos)%nat /\
              nth_error w p = Some x /\ is_ws x = true.
Proof.
  induction pos as [|k IH]; intros Hlt; cbn [scan_back].
  - now left.
  - destruct (nth_error w (S k)) as [x|] eqn:Ex.
    + destruct (is_ws x) eqn:Ews.
      * right. exists (S k), x. repeat split; auto; lia.
      * destruct IH as [->|(p & y & -> & Hp & Hy & Hws)]; [lia | now left |].
        right. exists p, y. repeat split; auto; lia.
    + apply nth_error_None in Ex. lia.
Qed.

(** What a cut looks like under a positive limit. *)
Lemma find_cut_positive (w : str) (n : Z) :
  (0 < n)%Z ->
  match find_cut w n with
  | Empty => w = []
  | Whole => w <> [] /\ (Z.of_nat (length w) <= n)%Z
  | Fault => False
  | CutAt c ws =>
      (1 <= c <= Z.to_nat n)%nat /\ (c < length w)%nat /\
      ((ws = 1%nat /\ exists x, nth_error w c = Some x /\ is_ws x = true) \/
       (ws = 0%nat /\ c = Z.to_nat n))
  end.
Proof.
  intros Hn. unfold find_cut, char_at.
  destruct (Nat.eqb_spec (length w) 0) as [E|Hne].
  - now apply length_zero_iff_nil.
  - destruct (Z.leb_spec (Z.of_nat (length w)) n) as [Hle|Hlt].
    + split; [|assumption]. intros ->. now apply Hne.
    + destruct (Z.ltb_spec n 0) as [|_]; [lia|].
      destruct (nth_error w (Z.to_nat n)) as [x|] eqn:Ex.
      * destruct (is_ws x) eqn:Ews.
        -- split; [lia|]. split; [lia|]. left. eauto.
        -- destruct (scan_back_inside w (Z.to_nat n - 1))
             as [->|(p & y & -> & Hp & Hy & Hws)]; [lia | |].
           ++ split; [lia|]. split; [lia|]. now right.
           ++ split; [lia|]. split; [lia|]. left. eauto.
      * apply nth_error_None in Ex. lia.
Qed.

(** White space made uniform: the view of a string in which the cuts on
    white space and the spaces put back instead cannot be told apart. *)
Definition blank (x : ascii) : ascii := if is_ws x then " " else x.

Lemma words_from_blank (s : str) : forall cur : str,
  words_from cur (map blank s) = words_from cur s.
Proof.
  induction s as [|x s IH]; intros cur; [reflexivity|].
  cbn [map words_from].
  destruct (is_ws x) eqn:E.
  - assert (Hb : blank x = " ") by (unfold blank; now rewrite E).
    rewrite Hb. change (is_ws " ") with true. cbn iota.
    now rewrite !IH.
  - assert (Hb : blank x = x) by (unfold blank; now rewrite E).
    rewrite Hb, E. apply IH.
Qed.

Lemma words_from_trailing_space (s : str) : forall cur : str,
  words_from cur (s ++ [" "]) = words_from cur s.
Proof.
  induction s as [|x s IH]; intros cur.
  - cbn. destruct (nonempty cur); reflexivity.
  - cbn [app words_from]. now rewrite !IH.
Qed.

Lemma rejoin_cons (part : str) (ws : nat) (rest : list (str * nat)) :
  rest <> [] ->
  rejoin ((part, ws) :: rest)
  = part ++ (if (ws =? 1)%nat then [" "] else []) ++ rejoin rest.
Proof.
  destruct rest; [congruence | reflexivity].
Qed.

Lemma nth_error_skipn_cons (w : str) (c0 : nat) (x : ascii) :
  nth_error w c0 = Some x -> skipn c0 w = x :: skipn (S c0) w.
Proof.
  revert c0. induction w as [|y w IH]; intros [|k] H; try discriminate.
  - cbn in *. congruence.
  - cbn [nth_error] in H. cbn [skipn]. rewrite (IH k H).
    destruct w; reflexivity.
Qed.

Section Limit.

Variable n : Z.
Hypothesis n_positive : (0 < n)%Z.

(** Everything the splitter does to one string, proved for all shorter
    strings first. *)
Lemma split_cuts_spec (len : nat) : forall w : str,
  (length w <= len)%nat ->
  (forall d, _splitLongLines w n d = Ok (d ++ map fst (split_cuts w n))) /\
  Forall (fun ch => (Z.of_nat (length (fst ch)) <= n)%Z) (split_cuts w n) /\
  (split_cuts w n = [] -> w = []) /\
  exists t, (t = [] \/ t = [" "]) /\
            map blank w = map blank (rejoin (split_cuts w n)) ++ t.
Proof.
  induction len as [|len IH]; intros w Hlen.
  - assert (w = []) as -> by (destruct w; [reflexivity | cbn in Hlen; lia]).
    rewrite split_cuts_unfold. repeat split.
    + intros d. rewrite splitLongLines_unfold. cbn. now rewrite app_nil_r.
    + constructor.
    + exists []. split; [now left | reflexivity].
  - pose proof (find_cut_positive w n n_positive) as Hcut.
    rewrite split_cuts_unfold.
    assert (Hunf := fun d => splitLongLines_unfold w n d).
    rewrite (or_450_positive n n_positive) in *.
    destruct (find_cut w n) as [| | |c ws].
    + subst w. repeat split.
      * intros d. rewrite Hunf. cbn. now rewrite app_nil_r.
      * constructor.
      * exists []. split; [now left | reflexivity].
    + destruct Hcut as [Hne Hle]. repeat split.
      * intros d. now rewrite Hunf.
      * constructor; [assumption | constructor].
      * discriminate.
      * exists []. split; [now left|]. cbn [rejoin]. now rewrite app_nil_r.
    + contradiction.
    + destruct Hcut as (Hc & Hclt & Hkind).
      assert (Hshort : (length (substring_from (c + ws) w) <= len)%nat).
      { unfold substring_from. rewrite length_skipn. lia. }
      destruct (IH _ Hshort) as (Hrun & Hlens & Hnil & t & Ht & Hblank).
      split; [|split; [|split]].
      * intros d. rewrite Hunf, Hrun. cbn [map fst].
        now rewrite <- app_assoc.
      * constructor; [|assumption]. cbn [fst]. unfold substring_to.
        rewrite length_firstn. lia.
      * discriminate.
      * assert (Hw : map blank w
                     = map blank (firstn c w) ++ map blank (skipn c w)).
        { now rewrite <- map_app, firstn_skipn. }
        unfold substring_to, substring_from in *.
        destruct Hkind as [[-> (x & Hx & Hws)]|[-> ->]].
        -- rewrite (nth_error_skipn_cons w c x Hx) in Hw.
           replace (c + 1)%nat with (S c) in * by lia.
           assert (Hbx : blank x = " ") by (unfold blank; now rewrite Hws).
           cbn [map] in Hw. rewrite Hbx in Hw.
           destruct (split_cuts (skipn (S c) w) n) as [|y l] eqn:Es.
           ++ rewrite (Hnil eq_refl) in Hw. exists [" "].
              split; [now right | exact Hw].
           ++ rewrite rejoin_cons by discriminate.
              exists t. split; [assumption|].
              rewrite Hw, Hblank, !map_app. cbn [Nat.eqb map app].
              rewrite <- !app_assoc. reflexivity.
        -- replace (Z.to_nat n + 0)%nat with (Z.to_nat n) in * by lia.
           destruct (split_cuts (skipn (Z.to_nat n) w) n) as [|y l] eqn:Es.
           ++ specialize (Hnil eq_refl).
              apply (f_equal (@length ascii)) in Hnil.
              rewrite length_skipn in Hnil. cbn in Hnil. lia.
           ++ rewrite rejoin_cons by discriminate.
              exists t. split; [assumption|].
              rewrite Hw, Hblank, !map_app. cbn [Nat.eqb app].
              rewrite <- !app_assoc. reflexivity.
Qed.

End Limit.

(** C4. Under a positive limit the splitter returns, every chunk it
    pushes is at most [maxLength] long, and the chunks put back together
    in order, with one space where a cut fell on a white-space character,
    have the words of the original string. *)
Theorem splitLongLines_chunks (words : str) (maxLength : Z) :
  (0 < maxLength)%Z ->
  exists chunks : list str,
    _splitLongLines words maxLength [] = Ok chunks /\
    chunks = map fst (split_cuts words maxLength) /\
    Forall (fun ch => (Z.of_nat (length ch) <= maxLength)%Z) chunks /\
    words_of (rejoin (split_cuts words maxLength)) = words_of words.
Proof.
  intros Hn.
  destruct (split_cuts_spec maxLength Hn (length words) words (le_n _))
    as (Hrun & Hlens & _ & t & Ht & Hblank).
  exists (map fst (split_cuts words maxLength)).
  split; [apply (Hrun [])|]. split; [reflexivity|]. split.
  - rewrite Forall_map. exact Hlens.
  - unfold words_of.
    rewrite <- (words_from_blank words), Hblank.
    destruct Ht as [-> | ->].
    + rewrite app_nil_r. symmetry. apply words_from_blank.
    + rewrite words_from_trailing_space. symmetry. apply words_from_blank.
Qed.

Lemma splitLongLines_chunks_witness :
  exists chunks : list str,
    _splitLongLines (lit "hello world foo bar") 7 [] = Ok chunks /\
    chunks = map fst (split_cuts (lit "hello world foo bar") 7) /\
    Forall (fun ch => (Z.of_nat (length ch) <= 7)%Z) chunks /\
    words_of (rejoin (split_cuts (lit "hello world foo bar") 7))
    = words_of (lit "hello world foo bar").
Proof.
  apply (splitLongLines_chunks (lit "hello world foo bar") 7). lia.
Defined.

End SplitterProofs.

(** ** The watchdog *)

Module CyclingPingTimerProofs.

Import CyclingPingTimer.

(** The shape of every state a timer object can be in: stopped with
    nothing armed, or started with exactly one timeout armed, held by the
    field that belongs to it. *)
Definition consistent (c : t) : Prop :=
  match started c, armed c with
  | false, [] => loopingTimeout c = None /\ pingWaitTimeout c = None
  | true, [x] =>
      (1 <= remaining x)%nat /\
      match fires x with
      | idle_elapsed =>
          loopingTimeout c = Some (handle x) /\ pingWaitTimeout c = None
      | wait_elapsed =>
          loopingTimeout c = None /\ pingWaitTimeout c = Some (handle x)
      end
  | _, _ => False
  end.

Definition idle_of (c : t) : nat :=
  Nat.max 1 (millisecondsOfSilenceBeforePingSent c).

Definition patience_of (c : t) : nat :=
  Nat.max 1 (millisecondsBeforePingTimeout c).

Lemma eqb_refl_true (h : nat) : (h =? h)%nat = true.
Proof. apply Nat.eqb_refl. Qed.

Ltac timer_cases c H :=
  destruct c as [st lt pt ar nh si wa];
  unfold consistent in H; cbn in H;
  destruct st; destruct ar as [|[h r cb] [|? ?]]; try contradiction;
  try (destruct H as [Hr H]; destruct cb; destruct H as [Hl Hp]);
  try (destruct H as [Hl Hp]);
  cbn in *; subst.

Ltac timer_done :=
  repeat split; auto; try lia;
  repeat match goal with
         | |- context [match ?n with O => _ | S _ => _ end] => destruct n
         end;
  cbn; auto; try lia.

Lemma phase_start (c : t) :
  consistent c ->
  consistent (start c) /\
  phase_of (start c)
  = match phase_of c with
    | stopped => running_idle (idle_of c)
    | p => p
    end /\
  millisecondsOfSilenceBeforePingSent (start c)
  = millisecondsOfSilenceBeforePingSent c /\
  millisecondsBeforePingTimeout (start c) = millisecondsBeforePingTimeout c.
Proof.
  intros H. timer_cases c H; unfold consistent, phase_of, idle_of; cbn;
    timer_done.
Qed.

Lemma phase_stop (c : t) :
  consistent c ->
  consistent (stop c) /\ phase_of (stop c) = stopped /\
  millisecondsOfSilenceBeforePingSent (stop c)
  = millisecondsOfSilenceBeforePingSent c /\
  millisecondsBeforePingTimeout (stop c) = millisecondsBeforePingTimeout c.
Proof.
  intros H. timer_cases c H; unfold consistent, phase_of; cbn;
    rewrite ?eqb_refl_true; cbn; repeat split; auto.
Qed.

Lemma phase_notifyOfActivity (c : t) :
  consistent c ->
  consistent (notifyOfActivity c) /\
  phase_of (notifyOfActivity c)
  = match phase_of c with
    | stopped => stopped
    | _ => running_idle (idle_of c)
    end /\
  millisecondsOfSilenceBeforePingSent (notifyOfActivity c)
  = millisecondsOfSilenceBeforePingSent c /\
  millisecondsBeforePingTimeout (notifyOfActivity c)
  = millisecondsBeforePingTimeout c.
Proof.
  intros H. timer_cases c H; unfold consistent, phase_of, idle_of; cbn;
    rewrite ?eqb_refl_true; cbn; timer_done.
Qed.

(** One millisecond on the phases. *)
Definition phase_tick (idle patience : nat) (p : phase)
  : phase * list timer_event :=
  match p with
  | stopped => (stopped, [])
  | running_idle ms =>
      if (ms <=? 1)%nat then (running_wait_for_pong patience, [wantPing])
      else (running_idle (ms - 1), [])
  | running_wait_for_pong ms =>
      if (ms <=? 1)%nat then (stopped, [pingTimeout])
      else (running_wait_for_pong (ms - 1), [])
  end.

Lemma phase_tick_simulates (c : t) :
  consistent c ->
  consistent (fst (tick c)) /\
  phase_of (fst (tick c)) = fst (phase_tick (idle_of c) (patience_of c) (phase_of c)) /\
  snd (tick c) = snd (phase_tick (idle_of c) (patience_of c) (phase_of c)) /\
  millisecondsOfSilenceBeforePingSent (fst (tick c))
  = millisecondsOfSilenceBeforePingSent c /\
  millisecondsBeforePingTimeout (fst (tick c)) = millisecondsBeforePingTimeout c.
Proof.
  intros H. timer_cases c H.
  - destruct r as [|[|r]]; [lia | |];
      unfold tick, consistent, phase_of, phase_tick, idle_of, patience_of;
      cbn; rewrite ?eqb_refl_true; cbn; timer_done.
  - destruct r as [|[|r]]; [lia | |];
      unfold tick, consistent, phase_of, phase_tick, idle_of, patience_of;
      cbn; rewrite ?eqb_refl_true; cbn; timer_done.
  - unfold tick, consistent, phase_of, phase_tick; cbn. repeat split; auto.
Qed.

Section Phases.

Variables idle patience : nat.

Fixpoint phase_elapse (ms : nat) (p : phase) : phase * list timer_event :=
  match ms with
  | O => (p, [])
  | S n =>
      let (p1, ev1) := phase_tick idle patience p in
      let (p2, ev2) := phase_elapse n p1 in
      (p2, ev1 ++ ev2)
  end.

Definition phase_step (i : input) (p : phase) : phase * list timer_event :=
  match i with
  | Start =>
      (match p with
       | stopped => running_idle idle
       | _ => p
       end, [])
  | Stop => (stopped, [])
  | NotifyOfActivity =>
      (match p with
       | stopped => stopped
       | _ => running_idle idle
       end, [])
  | Elapse ms => phase_elapse ms p
  end.

Fixpoint phase_run (inputs : list input) (p : phase) : phase * list timer_event :=
  match inputs with
  | [] => (p, [])
  | i :: rest =>
      let (p1, ev1) := phase_step i p in
      let (p2, ev2) := phase_run rest p1 in
      (p2, ev1 ++ ev2)
  end.

Lemma phase_elapse_stopped (ms : nat) :
  phase_elapse ms stopped = (stopped, []).
Proof.
  induction ms as [|n IH]; [reflexivity|]. cbn. now rewrite IH.
Qed.

Lemma phase_elapse_idle_early (ms : nat) : forall r : nat,
  (ms < r)%nat ->
  phase_elapse ms (running_idle r) = (running_idle (r - ms), []).
Proof.
  induction ms as [|n IH]; intros r Hlt; cbn [phase_elapse].
  - now rewrite Nat.sub_0_r.
  - cbn [phase_tick]. destruct (Nat.leb_spec r 1); [lia|].
    rewrite IH by lia. cbn. do 2 f_equal. lia.
Qed.

Lemma phase_elapse_wait_early (ms : nat) : forall r : nat,
  (ms < r)%nat ->
  phase_elapse ms (running_wait_for_pong r)
  = (running_wait_for_pong (r - ms), []).
Proof.
  induction ms as [|n IH]; intros r Hlt; cbn [phase_elapse].
  - now rewrite Nat.sub_0_r.
  - cbn [phase_tick]. destruct (Nat.leb_spec r 1); [lia|].
    rewrite IH by lia. cbn. do 2 f_equal. lia.
Qed.

Lemma phase_elapse_wait_late (r : nat) : forall ms : nat,
  (1 <= r <= ms)%nat ->
  phase_elapse ms (running_wait_for_pong r) = (stopped, [pingTimeout]).
Proof.
  induction r as [|r IH]; intros ms H; [lia|].
  destruct ms as [|n]; [lia|]. cbn [phase_elapse phase_tick].
  destruct (Nat.leb_spec (S r) 1).
  - now rewrite phase_elapse_stopped.
  - replace (S r - 1)%nat with r by lia. rewrite IH by lia. reflexivity.
Qed.

Lemma phase_elapse_idle_late (r : nat) : forall ms : nat,
  (1 <= r <= ms)%nat ->
  phase_elapse ms (running_idle r)
  = (fst (phase_elapse (ms - r) (running_wait_for_pong patience)),
     wantPing :: snd (phase_elapse (ms - r) (running_wait_for_pong patience))).
Proof.
  induction r as [|r IH]; intros ms H; [lia|].
  destruct ms as [|n]; [lia|]. cbn [phase_elapse phase_tick].
  destruct (Nat.leb_spec (S r) 1).
  - replace (S n - S r)%nat with n by lia.
    destruct (phase_elapse n (running_wait_for_pong patience)). reflexivity.
  - replace (S r - 1)%nat with r by lia. rewrite IH by lia.
    replace (S n - S r)%nat with (n - r)%nat by lia. reflexivity.
Qed.

Lemma phase_run_app (l1 l2 : list input) (p : phase) :
  phase_run (l1 ++ l2) p
  = (fst (phase_run l2 (fst (phase_run l1 p))),
     snd (phase_run l1 p) ++ snd (phase_run l2 (fst (phase_run l1 p)))).
Proof.
  revert p. induction l1 as [|i l1 IH]; intros p; cbn [app phase_run].
  - cbn [fst snd app]. destruct (phase_run l2 p). reflexivity.
  - destruct (phase_step i p) as [p1 ev1]. rewrite IH.
    destruct (phase_run l1 p1) as [p2 ev2]. cbn [fst snd].
    now rewrite app_assoc.
Qed.

Lemma phase_run_quiet (gaps : list nat) :
  Forall (fun d => (d < idle)%nat) gaps ->
  phase_run (quiet gaps) stopped = (running_idle idle, []).
Proof.
  intros H. unfold quiet. cbn [phase_run phase_step].
  induction H as [|d gaps Hd _ IH]; [reflexivity|].
  cbn [flat_map app phase_run phase_step].
  rewrite phase_elapse_idle_early by assumption.
  destruct (idle - d)%nat eqn:E; [lia|].
  destruct (phase_run (flat_map _ gaps) (running_idle idle)) as [p ev].
  inversion IH; subst. reflexivity.
Qed.

End Phases.

Lemma elapse_simulates (ms : nat) : forall c : t,
  consistent c ->
  consistent (fst (elapse ms c)) /\
  phase_of (fst (elapse ms c))
  = fst (phase_elapse (idle_of c) (patience_of c) ms (phase_of c)) /\
  snd (elapse ms c)
  = snd (phase_elapse (idle_of c) (patience_of c) ms (phase_of c)) /\
  idle_of (fst (elapse ms c)) = idle_of c /\
  patience_of (fst (elapse ms c)) = patience_of c.
Proof.
  induction ms as [|n IH]; intros c H; [cbn; auto|].
  cbn [elapse phase_elapse].
  destruct (phase_tick_simulates c H) as (H1 & Hp & Hev & Hs & Hw).
  destruct (tick c) as [c1 ev1]. cbn [fst snd] in *.
  destruct (phase_tick (idle_of c) (patience_of c) (phase_of c)) as [p1 pev1].
  cbn [fst snd] in *. subst.
  assert (Hi : idle_of c1 = idle_of c) by (unfold idle_of; now rewrite Hs).
  assert (Hpa : patience_of c1 = patience_of c)
    by (unfold patience_of; now rewrite Hw).
  destruct (IH c1 H1) as (H2 & Hp2 & Hev2 & Hi2 & Hpa2).
  rewrite Hi, Hpa in *.
  destruct (elapse n c1) as [c2 ev2]. cbn [fst snd] in *.
  destruct (phase_elapse (idle_of c) (patience_of c) n (phase_of c1)).
  cbn [fst snd] in *. subst. repeat split; auto; congruence.
Qed.

Lemma step_simulates (i : input) (c : t) :
  consistent c ->
  consistent (fst (step i c)) /\
  phase_of (fst (step i c))
  = fst (phase_step (idle_of c) (patience_of c) i (phase_of c)) /\
  snd (step i c)
  = snd (phase_step (idle_of c) (patience_of c) i (phase_of c)) /\
  idle_of (fst (step i c)) = idle_of c /\
  patience_of (fst (step i c)) = patience_of c.
Proof.
  intros H. destruct i; cbn [step phase_step fst snd].
  - destruct (phase_start c H) as (? & Hph & Hs & Hw).
    unfold idle_of, patience_of. rewrite Hs, Hw. repeat split; auto.
    rewrite Hph. now destruct (phase_of c).
  - destruct (phase_stop c H) as (? & ? & Hs & Hw).
    unfold idle_of, patience_of. rewrite Hs, Hw. auto.
  - destruct (phase_notifyOfActivity c H) as (? & Hph & Hs & Hw).
    unfold idle_of, patience_of. rewrite Hs, Hw. repeat split; auto.
  - apply elapse_simulates. assumption.
Qed.

Lemma run_simulates (inputs : list input) : forall c : t,
  consistent c ->
  consistent (fst (run inputs c)) /\
  phase_of (fst (run inputs c))
  = fst (phase_run (idle_of c) (patience_of c) inputs (phase_of c)) /\
  snd (run inputs c)
  = snd (phase_run (idle_of c) (patience_of c) inputs (phase_of c)).
Proof.
  induction inputs as [|i rest IH]; intros c H; [cbn; auto|].
  cbn [run phase_run].
  destruct (step_simulates i c H) as (H1 & Hp & Hev & Hi & Hpa).
  destruct (step i c) as [c1 ev1]. cbn [fst snd] in *.
  destruct (phase_step (idle_of c) (patience_of c) i (phase_of c)) as [p1 pev1].
  cbn [fst snd] in *. subst.
  destruct (IH c1 H1) as (H2 & Hp2 & Hev2). rewrite Hi, Hpa in *.
  destruct (run rest c1) as [c2 ev2]. cbn [fst snd] in *.
  destruct (phase_run (idle_of c) (patience_of c) rest (phase_of c1)).
  cbn [fst snd] in *. subst. auto.
Qed.

Lemma create_consistent (silence wait : nat) :
  consistent (create silence wait).
Proof. unfold consistent. cbn. auto. Qed.

Lemma consistent_one_armed (c : t) :
  consistent c -> (length (armed c) <= 1)%nat.
Proof.
  unfold consistent.
  destruct (started c), (armed c) as [|x [|y l]]; cbn; intros H;
    try contradiction; lia.
Qed.

Lemma run_fresh_events (silence wait : nat) (inputs : list input) :
  snd (run inputs (create silence wait))
  = snd (phase_run (Nat.max 1 silence) (Nat.max 1 wait) inputs stopped).
Proof.
  destruct (run_simulates inputs (create silence wait)
              (create_consistent silence wait)) as (_ & _ & H).
  exact H.
Qed.

Lemma after_quiet (idle patience : nat) (gaps : list nat) (rest : list input) :
  Forall (fun d => (d < idle)%nat) gaps ->
  snd (phase_run idle patience (quiet gaps ++ rest) stopped)
  = snd (phase_run idle patience rest (running_idle idle)).
Proof.
  intros H. rewrite phase_run_app, (phase_run_quiet idle patience gaps H).
  reflexivity.
Qed.

(** C5. After [start()], activity that always comes before the idle
    interval has elapsed never lets [wantPing] out. Once the idle interval
    elapses with no activity there is exactly one [wantPing], and after
    the wait interval exactly one [pingTimeout], unless [stop()] is called
    in between, which prevents it. Whatever is done to a timer, at most
    one timeout is armed. An interval of zero milliseconds counts as one. *)
Theorem ping_timer_law (silence wait : nat) (gaps : list nat) :
  let idle := Nat.max 1 silence in
  let patience := Nat.max 1 wait in
  let fresh := create silence wait in
  Forall (fun d => (d < idle)%nat) gaps ->
  (forall d, (d < idle)%nat ->
     snd (run (quiet gaps ++ [Elapse d]) fresh) = []) /\
  (forall d, (d < patience)%nat ->
     snd (run (quiet gaps ++ [Elapse (idle + d)]) fresh) = [wantPing]) /\
  (forall d,
     snd (run (quiet gaps ++ [Elapse (idle + patience + d)]) fresh)
     = [wantPing; pingTimeout]) /\
  (forall d d', (d < patience)%nat ->
     snd (run (quiet gaps ++ [Elapse (idle + d); Stop; Elapse d']) fresh)
     = [wantPing]) /\
  (forall inputs, (length (armed (fst (run inputs fresh))) <= 1)%nat).
Proof.
  intros idle patience fresh Hgaps.
  assert (Hi : (1 <= idle)%nat) by (subst idle; lia).
  assert (Hp : (1 <= patience)%nat) by (subst patience; lia).
  assert (Hwait : forall d, (d < patience)%nat ->
            phase_elapse idle patience (idle + d) (running_idle idle)
            = (running_wait_for_pong (patience - d), [wantPing])).
  { intros d Hd. rewrite phase_elapse_idle_late by lia.
    replace (idle + d - idle)%nat with d by lia.
    now rewrite phase_elapse_wait_early. }
  subst fresh. repeat split.
  - intros d Hd. rewrite run_fresh_events, after_quiet by assumption.
    cbn [phase_run phase_step].
    fold idle. rewrite phase_elapse_idle_early by assumption. reflexivity.
  - intros d Hd. rewrite run_fresh_events, after_quiet by assumption.
    cbn [phase_run phase_step]. fold idle patience.
    now rewrite Hwait.
  - intros d. rewrite run_fresh_events, after_quiet by assumption.
    cbn [phase_run phase_step]. fold idle patience.
    rewrite phase_elapse_idle_late by lia.
    rewrite phase_elapse_wait_late by lia. reflexivity.
  - intros d d' Hd. rewrite run_fresh_events, after_quiet by assumption.
    cbn [phase_run phase_step]. fold idle patience.
    rewrite Hwait by assumption. now rewrite phase_elapse_stopped.
  - intros inputs. apply consistent_one_armed.
    apply run_simulates, create_consistent.
Qed.

Lemma ping_timer_law_witness :
  (forall d, (d < 5)%nat ->
     snd (run (quiet [3; 4; 0] ++ [Elapse d]) (create 5 3)) = []) /\
  (forall d, (d < 3)%nat ->
     snd (run (quiet [3; 4; 0] ++ [Elapse (5 + d)]) (create 5 3))
     = [wantPing]) /\
  (forall d,
     snd (run (quiet [3; 4; 0] ++ [Elapse (5 + 3 + d)]) (create 5 3))
     = [wantPing; pingTimeout]) /\
  (forall d d', (d < 3)%nat ->
     snd (run (quiet [3; 4; 0] ++ [Elapse (5 + d); Stop; Elapse d'])
            (create 5 3))
     = [wantPing]) /\
  (forall inputs, (length (armed (fst (run inputs (create 5 3)))) <= 1)%nat).
Proof.
  apply (ping_timer_law 5 3 [3; 4; 0]).
  repeat constructor.
Defined.

End CyclingPingTimerProofs.

(** ** The connection *)

Module ConnectionProofs.

Import ParseMessage Irc.

Section Framing.

Variable replyFor : str -> option reply_entry.
Variable stripColorsAndStyle : str -> str.
Variable raw_listeners : IMessage -> Client -> result unit * Client.

Local Abbreviation handleData :=
  (Irc.handleData replyFor stripColorsAndStyle raw_listeners).
Local Abbreviation handle_line :=
  (Irc.handle_line replyFor stripColorsAndStyle raw_listeners).
Local Abbreviation parse := (parseMessage replyFor stripColorsAndStyle).

(** Listeners that return normally and leave the options alone. *)
Definition well_behaved : Prop :=
  forall (message : IMessage) (cl : Client),
    fst (raw_listeners message cl) = Ok tt /\
    opt (snd (raw_listeners message cl)) = opt cl.

Lemma handle_line_emits (line buffer : str) (cl : Client) (message : IMessage) :
  well_behaved ->
  nonempty line = true ->
  parse line (stripColors (opt cl)) = Ok message ->
  handle_line line (buffer, cl)
  = (Ok tt, (buffer, snd (raw_listeners message cl)),
     [Emit (lit "raw") [VMessage message]]).
Proof.
  intros Hwb Hne Hparse. destruct line as [|x line]; [discriminate|].
  destruct (Hwb message cl) as [Hok _].
  unfold Irc.handle_line, when, mbind, get, of_result, try_catch, on_client,
    zoom, emit, tell, run_raw_listeners, ret.
  cbn [length Nat.eqb negb fst snd]. rewrite Hparse. cbn [fst snd app].
  rewrite Hok. reflexivity.
Qed.

Lemma forEach_lines (lines : list str) : forall (cl : Client) (flag : bool),
  well_behaved ->
  stripColors (opt cl) = flag ->
  Forall (fun line => nonempty line = true ->
            exists message, parse line flag = Ok message) lines ->
  exists cl' : Client,
    forEach lines handle_line ([], cl)
    = (Ok tt, ([], cl'), raw_events replyFor stripColorsAndStyle flag lines).
Proof.
  induction lines as [|line lines IH]; intros cl flag Hwb Hflag Hall.
  - exists cl. reflexivity.
  - inversion Hall as [|? ? Hline Hrest]; subst.
    cbn [forEach]. unfold mbind at 1.
    destruct (nonempty line) eqn:Hne.
    + destruct (Hline eq_refl) as [message Hparse].
      destruct (Hwb message cl) as [_ Hopt].
      destruct (IH (snd (raw_listeners message cl)) (stripColors (opt cl)) Hwb)
        as [cl' Hrun]; [now rewrite Hopt | assumption |].
      exists cl'.
      change (@pair (list ascii) Client [] cl) with (@pair str Client [] cl).
      rewrite (handle_line_emits line [] cl message Hwb Hne Hparse).
      cbv beta iota.
      change (@pair str Client []) with (@pair (list ascii) Client []).
      rewrite Hrun.
      unfold raw_events. cbn [filter]. rewrite Hne.
      cbn [flat_map]. rewrite Hparse. reflexivity.
    + destruct line; [|discriminate].
      destruct (IH cl (stripColors (opt cl)) Hwb eq_refl Hrest) as [cl' Hrun].
      exists cl'.
      change (handle_line [] ([], cl))
        with (@Ok unit tt, (@nil ascii, cl), @nil action).
      cbv beta iota.
      rewrite Hrun. unfold raw_events. cbn [filter nonempty]. reflexivity.
Qed.


End Framing.



(** C6. After a close that the caller did not ask for, the listener
    schedules [connect(retryCount + 1)] exactly when no cap is configured
    or the retry count of the closed connection is below it; otherwise it
    emits [abort] with the cap and schedules nothing. With a cap of 2,
    three closes in a row (each reconnect timeout firing before the next
    close) open three sockets in all and end in exactly one [abort]
    carrying 2, after which no reconnect is pending. *)
Theorem reconnect_policy (cl : Client) :
  (forall k : Z,
     match conn cl with
     | Some cn => requestedDisconnect cn
     | None => false
     end = false ->
     (match retryCount (opt cl) with
      | Some cap => (k < cap)%Z
      | None => True
      end ->
      close_listener k cl
      = (Ok tt, set_reconnectTimeouts (reconnectTimeouts cl ++ [(k + 1)%Z]) cl, []))
     /\
     (forall cap : Z, retryCount (opt cl) = Some cap -> (cap <= k)%Z ->
      close_listener k cl = (Ok tt, cl, [Emit (lit "abort") [VNumber cap]])))
  /\
  (retryCount (opt cl) = Some 2%Z -> reconnectTimeouts cl = [] ->
   exists cl' : Client,
     (k <~ connect None ;; consecutive_closes 3 k) cl
     = (Ok tt, cl',
        [OpenSocket; OpenSocket; OpenSocket; Emit (lit "abort") [VNumber 2]])
     /\ reconnectTimeouts cl' = []
     /\ reconnect_fires cl' = (Ok None, cl', [])).
Proof.
  split.
  - intros k Hreq. unfold close_listener, mbind, get. cbn [fst snd app].
    rewrite Hreq. split.
    + intros Hallowed. destruct (retryCount (opt cl)) as [cap|].
      * destruct (Z.geb_spec k cap); [lia | reflexivity].
      * reflexivity.
    + intros cap Hcap Hle. rewrite Hcap.
      destruct (Z.geb_spec k cap); [reflexivity | lia].
  - intros Hcap Hnone. destruct cl as [o n hm ml ch pfm mfp md cn rt].
    cbn in Hcap, Hnone. subst rt. destruct o as [ar rc rd sc ms mb].
    cbn in Hcap. subst rc.
    exists (set_conn (Some (mkConn false (CyclingPingTimer.create ms mb)))
              (set_chans []
                 (mkClient (mkOptions ar (Some 2%Z) rd sc ms mb) n hm ml ch pfm
                    mfp md cn []))).
    split; [|split]; vm_compute; reflexivity.
Qed.

Lemma reconnect_policy_witness :
  close_listener 1 connected_client
  = (Ok tt, set_reconnectTimeouts [2%Z] connected_client, [])
  /\
  close_listener 2 connected_client
  = (Ok tt, connected_client, [Emit (lit "abort") [VNumber 2]])
  /\
  exists cl' : Client,
    (k <~ connect None ;; consecutive_closes 3 k) fresh_client
    = (Ok tt, cl',
       [OpenSocket; OpenSocket; OpenSocket; Emit (lit "abort") [VNumber 2]])
    /\ reconnectTimeouts cl' = []
    /\ reconnect_fires cl' = (Ok None, cl', []).
Proof.
  destruct (reconnect_policy connected_client) as [Hgeneral _].
  destruct (reconnect_policy fresh_client) as [_ Hscenario].
  split; [|split].
  - apply (proj1 (Hgeneral 1%Z eq_refl)). cbn. lia.
  - apply (proj2 (Hgeneral 2%Z eq_refl) 2%Z eq_refl). lia.
  - apply Hscenario; reflexivity.
Defined.

End ConnectionProofs.

(** ** The dispatcher *)

Module IrcProofs.

Import ParseMessage Irc.

(** *** Dictionaries *)

Lemma str_eqb_eq (x y : str) : str_eqb x y = true <-> x = y.
Proof.
  unfold str_eqb. destruct (list_eq_dec ascii_dec x y); split; congruence.
Qed.

Lemma str_eqb_refl (x : str) : str_eqb x x = true.
Proof. now apply str_eqb_eq. Qed.

Lemma str_eqb_neq (x y : str) : x <> y -> str_eqb x y = false.
Proof.
  intros H. destruct (str_eqb x y) eqn:E; [|reflexivity].
  apply str_eqb_eq in E. contradiction.
Qed.

Section DictFacts.

Variable V : Type.
Implicit Types (d : dict V) (k : str) (v : V).

Lemma dict_get_set_same k v d : dict_get k (dict_set k v d) = Some v.
Proof.
  induction d as [|[k' v'] d IH]; cbn.
  - now rewrite str_eqb_refl.
  - destruct (str_eqb k k') eqn:E; cbn; rewrite E; auto.
Qed.

Lemma dict_get_set_other k k' v d :
  k' <> k -> dict_get k' (dict_set k v d) = dict_get k' d.
Proof.
  intros Hne. induction d as [|[k0 v0] d IH]; cbn.
  - now rewrite str_eqb_neq.
  - destruct (str_eqb k k0) eqn:E; cbn.
    + apply str_eqb_eq in E. subst k0. now rewrite (str_eqb_neq k' k Hne).
    + now rewrite IH.
Qed.

Lemma dict_keys_set_present k v v0 d :
  dict_get k d = Some v0 -> dict_keys (dict_set k v d) = dict_keys d.
Proof.
  induction d as [|[k' v'] d IH]; cbn; [discriminate|].
  destruct (str_eqb k k') eqn:E; cbn; [reflexivity|].
  intros H. f_equal. now apply IH.
Qed.

Lemma dict_keys_set_absent k v d :
  dict_get k d = None -> dict_keys (dict_set k v d) = dict_keys d ++ [k].
Proof.
  induction d as [|[k' v'] d IH]; cbn; [reflexivity|].
  destruct (str_eqb k k') eqn:E; cbn; [discriminate|].
  intros H. f_equal. now apply IH.
Qed.

Lemma dict_get_absent k d : dict_get k d = None -> ~ In k (dict_keys d).
Proof.
  induction d as [|[k' v'] d IH]; cbn; [tauto|].
  destruct (str_eqb k k') eqn:E; [discriminate|].
  intros H [Hk|Hin]; [|now apply IH].
  subst. now rewrite str_eqb_refl in E.
Qed.

Lemma dict_keys_delete_incl k d x :
  In x (dict_keys (dict_delete k d)) -> In x (dict_keys d).
Proof.
  induction d as [|[k' v'] d IH]; cbn; [tauto|].
  destruct (str_eqb k k'); cbn; tauto.
Qed.

Lemma dict_keys_delete_NoDup k d :
  NoDup (dict_keys d) -> NoDup (dict_keys (dict_delete k d)).
Proof.
  induction d as [|[k' v'] d IH]; cbn; [auto|].
  intros H. inversion H as [|? ? Hnin Hnd]; subst.
  destruct (str_eqb k k'); cbn; [assumption|].
  constructor; [|auto]. intros Hin. apply Hnin.
  eapply dict_keys_delete_incl; eassumption.
Qed.

End DictFacts.

(** *** Lower case *)

Lemma lower_char_idempotent (x : ascii) :
  lower_char (lower_char x) = lower_char x.
Proof.
  destruct x as [[] [] [] [] [] [] [] []]; reflexivity.
Qed.

Lemma toLowerCase_idempotent (s : str) :
  toLowerCase (toLowerCase s) = toLowerCase s.
Proof.
  unfold toLowerCase. rewrite map_map.
  apply map_ext. apply lower_char_idempotent.
Qed.

(** *** Reasoning about method bodies

    A body respects a relation between the states before and after when
    every run of it, returning or throwing, relates them. *)

Definition respects {A : Type} (R : Client -> Client -> Prop) (m : M Client A)
  : Prop :=
  forall (cl cl' : Client) (r : result A) (tr : list action),
    m cl = (r, cl', tr) -> R cl cl'.

Section Respects.

Variable R : Client -> Client -> Prop.
Hypothesis R_refl : forall cl, R cl cl.
Hypothesis R_trans : forall x y z, R x y -> R y z -> R x z.

Lemma respects_ret {A : Type} (x : A) : respects R (ret x).
Proof. intros cl cl' r tr H. inversion H; subst. apply R_refl. Qed.

Lemma respects_throw {A : Type} (e : js_error) : respects R (@throw Client A e).
Proof. intros cl cl' r tr H. inversion H; subst. apply R_refl. Qed.

Lemma respects_get : respects R (@get Client).
Proof. intros cl cl' r tr H. inversion H; subst. apply R_refl. Qed.

Lemma respects_tell (x : action) : respects R (@tell Client x).
Proof. intros cl cl' r tr H. inversion H; subst. apply R_refl. Qed.

Lemma respects_emit (name : str) (l : list jsval) : respects R (emit name l).
Proof. apply respects_tell. Qed.

Lemma respects_defined {A : Type} (o : option A) : respects R (defined o).
Proof. destruct o; [apply respects_ret | apply respects_throw]. Qed.

Lemma respects_of_result {A : Type} (x : result A) : respects R (of_result x).
Proof. destruct x; [apply respects_ret | apply respects_throw]. Qed.

Lemma respects_bind {A B : Type} (m : M Client A) (k : A -> M Client B) :
  respects R m -> (forall x, respects R (k x)) -> respects R (mbind m k).
Proof.
  intros Hm Hk cl cl' r tr H. unfold mbind in H.
  destruct (m cl) as [[[x|e] s1] t1] eqn:Em.
  - destruct (k x s1) as [[r2 s2] t2] eqn:Ek. inversion H; subst.
    eapply R_trans; [eapply Hm | eapply Hk]; eassumption.
  - inversion H; subst. eapply Hm; eassumption.
Qed.

Lemma respects_when (b0 : bool) (m : M Client unit) :
  respects R m -> respects R (when b0 m).
Proof. destruct b0; [auto | intros _; apply respects_ret]. Qed.

Lemma respects_forEach {A : Type} (l : list A) (f : A -> M Client unit) :
  (forall x, respects R (f x)) -> respects R (forEach l f).
Proof.
  intros Hf. induction l as [|x l IH]; cbn [forEach].
  - apply respects_ret.
  - apply respects_bind; auto.
Qed.

Lemma respects_modify (f : Client -> Client) :
  (forall cl, R cl (f cl)) -> respects R (modify f).
Proof. intros Hf cl cl' r tr H. inversion H; subst. apply Hf. Qed.

End Respects.

Create HintDb irc.

Ltac respect_with Hrefl Htrans :=
  repeat first
    [ solve [auto with irc nocore]
    | apply (respects_ret _ Hrefl)
    | apply (respects_throw _ Hrefl)
    | apply (respects_get _ Hrefl)
    | apply (respects_emit _ Hrefl)
    | apply (respects_tell _ Hrefl)
    | apply (respects_defined _ Hrefl)
    | apply (respects_of_result _ Hrefl)
    | apply (respects_bind _ Htrans); [|intros ?]
    | apply (respects_when _ Hrefl)
    | apply (respects_forEach _ Hrefl Htrans); intros ?
    | match goal with
      | |- respects _ (match ?x with _ => _ end) => destruct x
      end ].

(** *** The channel map has one entry per case-insensitive name *)

(** The keys of [this.chans] are pairwise distinct and each is its own
    lower-case form. *)
Definition lower_keyed (cl : Client) : Prop :=
  NoDup (dict_keys (chans cl)) /\
  Forall (fun k => toLowerCase k = k) (dict_keys (chans cl)).

Definition keeps_lower_keyed (cl cl' : Client) : Prop :=
  lower_keyed cl -> lower_keyed cl'.

Lemma keeps_refl (cl : Client) : keeps_lower_keyed cl cl.
Proof. unfold keeps_lower_keyed. auto. Qed.

Lemma keeps_trans (x y z : Client) :
  keeps_lower_keyed x y -> keeps_lower_keyed y z -> keeps_lower_keyed x z.
Proof. unfold keeps_lower_keyed. auto. Qed.

Lemma keeps_same_chans (cl cl' : Client) :
  chans cl' = chans cl -> keeps_lower_keyed cl cl'.
Proof. unfold keeps_lower_keyed, lower_keyed. now intros ->. Qed.

Lemma keeps_same_keys (cl cl' : Client) :
  dict_keys (chans cl') = dict_keys (chans cl) -> keeps_lower_keyed cl cl'.
Proof. unfold keeps_lower_keyed, lower_keyed. now intros ->. Qed.

Lemma keeps_update_channel (r : str) (f : Channel -> Channel) :
  respects keeps_lower_keyed (update_channel r f).
Proof.
  apply respects_modify. intros cl.
  destruct (dict_get r (chans cl)) as [ch|] eqn:E.
  - apply keeps_same_keys. cbn. eapply dict_keys_set_present; eassumption.
  - apply keeps_refl.
Qed.

Lemma keeps_each_channel_users (f : dict (option str) -> dict (option str)) :
  respects keeps_lower_keyed (each_channel_users f).
Proof.
  apply respects_modify. intros cl. apply keeps_same_keys. cbn.
  unfold dict_keys. rewrite map_map. reflexivity.
Qed.

Lemma keeps_set_nick (n : option str) :
  respects keeps_lower_keyed (modify (set_nick n)).
Proof. apply respects_modify. intros cl. now apply keeps_same_chans. Qed.

Lemma keeps_set_maxLineLength (z : Z) :
  respects keeps_lower_keyed (modify (set_maxLineLength z)).
Proof. apply respects_modify. intros cl. now apply keeps_same_chans. Qed.

#[local] Hint Resolve keeps_update_channel keeps_each_channel_users
  keeps_set_nick keeps_set_maxLineLength : irc.

Ltac keep := respect_with keeps_refl keeps_trans.

Lemma keeps_updateMaxLineLength : respects keeps_lower_keyed _updateMaxLineLength.
Proof. unfold _updateMaxLineLength. keep. Qed.

Lemma keeps_send (l : list str) : respects keeps_lower_keyed (send l).
Proof. unfold send. keep. Qed.

#[local] Hint Resolve keeps_updateMaxLineLength keeps_send : irc.

Lemma keeps_kick_listener (channel : option str) :
  respects keeps_lower_keyed (kick_listener channel).
Proof. unfold kick_listener. keep. Qed.

Lemma keeps_deref (r : str) : respects keeps_lower_keyed (deref r).
Proof. unfold deref. keep. Qed.

Lemma keeps_chanData (name : option str) (create : bool) :
  respects keeps_lower_keyed (chanData name create).
Proof.
  unfold chanData. keep.
  apply respects_modify. intros cl.
  destruct (dict_get (toLowerCase x) (chans cl)) eqn:E; [apply keeps_refl|].
  intros [Hnd Hlow]. unfold lower_keyed. cbn [chans set_chans].
  rewrite (dict_keys_set_absent _ _ _ _ E). split.
  - apply NoDup_app; [assumption | repeat constructor; intros [] |].
    intros k Hin [<-|[]]. now apply (dict_get_absent _ _ _ E).
  - apply Forall_app. split; [assumption|].
    constructor; [apply toLowerCase_idempotent | constructor].
Qed.

#[local] Hint Resolve keeps_kick_listener keeps_deref keeps_chanData : irc.

Lemma keeps_emit_for_channel (event : str) (channel : option str) (l : list jsval) :
  respects keeps_lower_keyed (emit_for_channel event channel l).
Proof. unfold emit_for_channel. keep. Qed.

Lemma keeps_leave_channel (message : IMessage) (who : option str) :
  respects keeps_lower_keyed (leave_channel message who).
Proof.
  unfold leave_channel. keep.
  apply respects_modify. intros cl [Hnd Hlow]. unfold lower_keyed. cbn. split.
  - now apply dict_keys_delete_NoDup.
  - rewrite Forall_forall in *. intros k Hin. apply Hlow.
    eapply dict_keys_delete_incl; eassumption.
Qed.

#[local] Hint Resolve keeps_emit_for_channel keeps_leave_channel : irc.

Lemma keeps_chanModes (channel : str) (adding : bool) (m : ascii) (p : mode_param) :
  respects keeps_lower_keyed (chanModes channel adding m p).
Proof. unfold chanModes. keep. Qed.

#[local] Hint Resolve keeps_chanModes : irc.

Lemma keeps_mode_letter (message : IMessage) (channel : str) (adding : bool)
  (modeArgs : list str) (m : ascii) :
  respects keeps_lower_keyed (mode_letter message channel adding modeArgs m).
Proof. unfold mode_letter. keep. Qed.

#[local] Hint Resolve keeps_mode_letter : irc.

Lemma keeps_mode_loop (message : IMessage) (channel : str) (modeList : list ascii) :
  forall (adding : bool) (modeArgs : list str),
    respects keeps_lower_keyed (mode_loop message channel modeList adding modeArgs).
Proof.
  induction modeList as [|m rest IH]; intros adding modeArgs; cbn [mode_loop].
  - keep.
  - keep; apply IH.
Qed.

#[local] Hint Resolve keeps_mode_loop : irc.

Lemma keeps_raw_listener (message : IMessage) (h : M Client unit) :
  raw_listener message = Some h -> respects keeps_lower_keyed h.
Proof.
  unfold raw_listener, channel_cases. cbn [dict_get].
  repeat match goal with
         | |- context [if ?b then _ else _] => destruct b
         end;
    cbn [option_map]; intros H; inversion H; subst; clear H;
    match goal with
    | |- respects _ (?f _) => unfold f
    end; keep.
Qed.

Lemma connect_empties (retryCount : option Z) (cl cl' : Client)
  (r : result Z) (tr : list action) :
  connect retryCount cl = (r, cl', tr) -> chans cl' = [].
Proof.
  unfold connect, mbind, modify, tell, ret. cbn. intros H.
  inversion H; subst. reflexivity.
Qed.

Lemma reachable_lower_keyed (cl : Client) : reachable cl -> lower_keyed cl.
Proof.
  induction 1 as [o n|cl cl' _ IH Hstep].
  - split; constructor.
  - destruct Hstep as [message h cl cl' r tr Hh Hrun
                      |rc cl cl' r tr Hrun
                      |cl cl' Hsame].
    + exact (keeps_raw_listener message h Hh cl cl' r tr Hrun IH).
    + unfold lower_keyed. rewrite (connect_empties _ _ _ _ _ Hrun).
      split; constructor.
    + now apply (keeps_same_chans cl cl').
Qed.

(** *** MODE and TOPIC write to the object that JOIN created *)

Lemma same_refl (k : str) (cl : Client) : same_entry k cl cl.
Proof. unfold same_entry. repeat split; eauto. Qed.

Lemma same_trans (k : str) (x y z : Client) :
  same_entry k x y -> same_entry k y z -> same_entry k x z.
Proof.
  intros (Hk1 & Ho1 & He1) (Hk2 & Ho2 & He2). repeat split.
  - congruence.
  - intros k' Hne. rewrite Ho2, Ho1; auto.
  - intros ch Hch. destruct (He1 ch Hch) as (ch1 & Hch1 & Hkey1 & Hname1).
    destruct (He2 ch1 Hch1) as (ch2 & Hch2 & Hkey2 & Hname2).
    exists ch2. repeat split; congruence.
Qed.

Lemma same_chans (k : str) (cl cl' : Client) :
  chans cl' = chans cl -> same_entry k cl cl'.
Proof. unfold same_entry. intros ->. repeat split; eauto. Qed.

Lemma same_update_channel (k : str) (f : Channel -> Channel) :
  (forall ch, key (f ch) = key ch /\ serverName (f ch) = serverName ch) ->
  respects (same_entry k) (update_channel k f).
Proof.
  intros Hf. apply respects_modify. intros cl.
  destruct (dict_get k (chans cl)) as [ch|] eqn:E; [|apply same_refl].
  unfold same_entry. cbn. repeat split.
  - eapply dict_keys_set_present; eassumption.
  - intros k' Hne. now apply dict_get_set_other.
  - intros ch0 Hch0. rewrite E in Hch0. inversion Hch0; subst.
    exists (f ch0). rewrite dict_get_set_same. destruct (Hf ch0). auto.
Qed.

#[local] Hint Extern 1 (respects (same_entry _) (update_channel _ _)) =>
  apply same_update_channel; intros ?; split; reflexivity : irc.

Ltac same k := respect_with (same_refl k) (same_trans k).

Lemma same_deref (k r : str) : respects (same_entry k) (deref r).
Proof. unfold deref. same k. Qed.

#[local] Hint Resolve same_deref : irc.

Lemma same_chanModes (channel : str) (adding : bool) (m : ascii) (p : mode_param) :
  respects (same_entry channel) (chanModes channel adding m p).
Proof. unfold chanModes. same channel. Qed.

#[local] Hint Resolve same_chanModes : irc.

Lemma same_mode_letter (message : IMessage) (channel : str) (adding : bool)
  (modeArgs : list str) (m : ascii) :
  respects (same_entry channel) (mode_letter message channel adding modeArgs m).
Proof. unfold mode_letter. same channel. Qed.

#[local] Hint Resolve same_mode_letter : irc.

Lemma same_mode_loop (message : IMessage) (channel : str) (modeList : list ascii) :
  forall (adding : bool) (modeArgs : list str),
    respects (same_entry channel)
      (mode_loop message channel modeList adding modeArgs).
Proof.
  induction modeList as [|m rest IH]; intros adding modeArgs; cbn [mode_loop].
  - same channel.
  - same channel; apply IH.
Qed.

(** What [chanData(name)] returns, and that it leaves the state alone. *)
Lemma chanData_lookup (name : str) (cl : Client) :
  chanData (Some name) false cl
  = (Ok (if dict_has (toLowerCase name) (chans cl)
         then Some (toLowerCase name) else None), cl, []).
Proof. reflexivity. Qed.

Lemma case_MODE_same_entry (message : IMessage) (name : str) (cl cl' : Client)
  (r : result unit) (tr : list action) :
  arg 0 message = Some name ->
  case_MODE message cl = (r, cl', tr) ->
  same_entry (toLowerCase name) cl cl'.
Proof.
  intros Harg. unfold case_MODE. rewrite Harg. unfold mbind at 1.
  rewrite chanData_lookup.
  destruct (dict_has (toLowerCase name) (chans cl)).
  - destruct ((modeList <~ defined (arg 1 message);;
               mode_loop message (toLowerCase name) modeList true
                 (skipn 2 (args message))) cl) as [[r2 s2] t2] eqn:E.
    intros H. inversion H; subst.
    assert (Hres : respects (same_entry (toLowerCase name))
              (modeList <~ defined (arg 1 message);;
               mode_loop message (toLowerCase name) modeList true
                 (skipn 2 (args message)))).
    { same (toLowerCase name). apply same_mode_loop. }
    exact (Hres _ _ _ _ E).
  - intros H. inversion H; subst. apply same_refl.
Qed.

(** A self-JOIN leaves a channel object under the lower-cased name. *)
Lemma case_JOIN_self (j : IMessage) (name : str) (cl : Client) :
  ostr_eqb (nick cl) (ParseMessage.nick j) = true ->
  arg 0 j = Some name ->
  exists (cl1 : Client) (tr1 : list action) (ch1 : Channel),
    case_JOIN j cl = (Ok tt, cl1, tr1) /\
    dict_get (toLowerCase name) (chans cl1) = Some ch1 /\
    (dict_get (toLowerCase name) (chans cl) = None ->
     ch1 = new_channel (toLowerCase name) name).
Proof.
  intros Hself Harg. unfold case_JOIN, mbind at 1, get.
  cbv beta iota. rewrite Hself, Harg.
  unfold chanData, emit_for_channel, emit, tell, when, defined, modify, mbind,
    get, ret. cbn [fst snd app].
  destruct (dict_get (toLowerCase name) (chans cl)) as [ch|] eqn:E.
  - destruct (negb (str_eqb name (toLowerCase name)));
      do 3 eexists; (split; [reflexivity|]); (split; [exact E | discriminate]).
  - destruct (negb (str_eqb name (toLowerCase name)));
      do 3 eexists; (split; [reflexivity|]); cbn [chans set_chans];
      (split; [apply dict_get_set_same | reflexivity]).
Qed.

Lemma case_TOPIC_known (m : IMessage) (name : str) (cl : Client) (ch : Channel) :
  arg 0 m = Some name ->
  dict_get (toLowerCase name) (chans cl) = Some ch ->
  exists (cl' : Client) (tr : list action),
    case_TOPIC m cl = (Ok tt, cl', tr) /\
    same_entry (toLowerCase name) cl cl' /\
    dict_get (toLowerCase name) (chans cl')
    = Some (set_topicBy (ParseMessage.nick m) (set_topic (arg 1 m) ch)).
Proof.
  intros Harg Hch.
  assert (Hres : respects (same_entry (toLowerCase name))
            (update_channel (toLowerCase name) (set_topic (arg 1 m)) ;;;
             update_channel (toLowerCase name) (set_topicBy (ParseMessage.nick m)))).
  { same (toLowerCase name). }
  unfold case_TOPIC. rewrite Harg.
  unfold mbind at 1, emit, tell. cbv beta iota.
  unfold mbind at 1. rewrite chanData_lookup. unfold dict_has. rewrite Hch.
  cbv beta iota.
  destruct ((update_channel (toLowerCase name) (set_topic (arg 1 m)) ;;;
             update_channel (toLowerCase name) (set_topicBy (ParseMessage.nick m)))
              cl) as [[r2 s2] t2] eqn:E.
  pose proof (Hres _ _ _ _ E) as Hsame.
  unfold update_channel, mbind, modify in E. cbn [fst snd] in E.
  rewrite Hch in E. cbn [chans set_chans] in E.
  rewrite dict_get_set_same in E. inversion E; subst.
  do 2 eexists. split; [reflexivity|]. split; [exact Hsame|].
  cbn [chans set_chans]. apply dict_get_set_same.
Qed.



(** *** PART and KICK for a channel the client does not know *)

Definition untouched (cl cl' : Client) : Prop := cl' = cl.

Lemma untouched_refl (cl : Client) : untouched cl cl.
Proof. reflexivity. Qed.

Lemma untouched_trans (x y z : Client) :
  untouched x y -> untouched y z -> untouched x z.
Proof. unfold untouched. congruence. Qed.

Ltac still := respect_with untouched_refl untouched_trans.

Lemma untouched_send (l : list str) : respects untouched (send l).
Proof. unfold send. still. Qed.

#[local] Hint Resolve untouched_send : irc.

Lemma untouched_kick_listener (channel : option str) :
  respects untouched (kick_listener channel).
Proof. unfold kick_listener. still. Qed.

Lemma leave_channel_self (message : IMessage) (who : option str) (name : str)
  (cl : Client) :
  arg 0 message = Some name ->
  dict_get (toLowerCase name) (chans cl) = None ->
  ostr_eqb (nick cl) who = true ->
  leave_channel message who cl = (Throw TypeError, cl, []).
Proof.
  intros Harg Hnone Hself. unfold leave_channel, mbind at 1, get.
  cbv beta iota. rewrite Hself, Harg. unfold mbind at 1.
  rewrite chanData_lookup. unfold dict_has. rewrite Hnone. reflexivity.
Qed.

Lemma leave_channel_other (message : IMessage) (who : option str) (name : str)
  (cl : Client) :
  arg 0 message = Some name ->
  dict_get (toLowerCase name) (chans cl) = None ->
  ostr_eqb (nick cl) who = false ->
  leave_channel message who cl = (Ok tt, cl, []).
Proof.
  intros Harg Hnone Hother. unfold leave_channel, mbind at 1, get.
  cbv beta iota. rewrite Hother, Harg. unfold mbind at 1.
  rewrite chanData_lookup. unfold dict_has. rewrite Hnone. reflexivity.
Qed.

Lemma emit_for_channel_named (event name : str) (l : list jsval) (cl : Client) :
  exists tr, emit_for_channel event (Some name) l cl = (Ok tt, cl, tr).
Proof.
  unfold emit_for_channel, emit, tell, mbind, defined, ret, when.
  cbn [fst snd].
  destruct (negb (str_eqb name (toLowerCase name))); eexists; reflexivity.
Qed.



(** *** NICK *)

Lemma reachable_dispatch (cl : Client) (message : IMessage) :
  reachable cl -> reachable (dispatch cl message).
Proof.
  intros H. eapply reachable_step; [eassumption|]. unfold dispatch.
  destruct (raw_listener message) as [h|] eqn:Eh.
  - destruct (h cl) as [[r c'] tr] eqn:Er. cbn [fst snd].
    eapply step_raw; eassumption.
  - apply step_other. reflexivity.
Qed.

Lemma in_two_channels_reachable : reachable in_two_channels.
Proof.
  unfold in_two_channels, after. cbn [fold_left].
  repeat apply reachable_dispatch.
  apply reachable_initial.
Qed.

(** C3 at a state where the old nick is in one of two known channels:
    when alice becomes alice2, the [nick] event lists [#b], which alice is
    not in, next to [#a], and the user map of [#b] gains [alice2] with
    no prefix string at all. *)
Theorem case_NICK_lists_every_channel :
  reachable in_two_channels /\
  option_map users (dict_get (lit "#b") (chans in_two_channels))
  = Some [(lit "bob", Some [])] /\
  exists cl' : Client,
    case_NICK (message_from (lit "alice") (lit "NICK") [lit "alice2"])
      in_two_channels
    = (Ok tt, cl',
       [Emit (lit "nick")
          [VString (lit "alice"); VString (lit "alice2");
           VStrings [lit "#a"; lit "#b"];
           VMessage (message_from (lit "alice") (lit "NICK") [lit "alice2"])]])
    /\
    option_map users (dict_get (lit "#a") (chans cl'))
    = Some [(lit "alice2", Some [])] /\
    option_map users (dict_get (lit "#b") (chans cl'))
    = Some [(lit "bob", Some []); (lit "alice2", None)].
Proof.
  split; [exact in_two_channels_reachable|].
  split; [reflexivity|].
  eexists. split; [reflexivity|]. split; reflexivity.
Qed.

End IrcProofs.

(** * More properties *)

(** ** The parser, beyond the claims *)

Module ParseMessageMore.

Import ParseMessage ParseMessageProofs Wire.

Lemma colon_here_after_ws (at0 : bool) (x : ascii) (r t : str) :
  is_ws x = true -> colon_here false r = Some t ->
  colon_here at0 (x :: r) = Some t.
Proof.
  intros Hx Hr.
  assert (Hws : ws_colon r = Some t).
  { destruct r as [|y r]; [discriminate Hr|].
    unfold colon_here in Hr.
    destruct y as [[] [] [] [] [] [] [] []]; exact Hr. }
  assert (Hgoal : ws_colon (x :: r) = Some t).
  { unfold ws_colon in *. cbn [span]. rewrite Hx.
    destruct (span is_ws r) as [w r'].
    destruct w as [|z w]; [discriminate Hws|].
    destruct r' as [|y' r']; [discriminate Hws|].
    destruct y' as [[] [] [] [] [] [] [] []]; try discriminate Hws.
    exact Hws. }
  unfold colon_here.
  destruct x as [[] [] [] [] [] [] [] []]; try exact Hgoal; discriminate Hx.
Qed.

(** The lazy group never ends on white space: it would have stopped one
    character earlier. *)
Lemma lazy_colon_ends (s : str) : forall (at0 : bool) (acc m t : str),
  lazy_colon at0 acc s = Some (m, t) ->
  (m = acc /\ colon_here at0 s <> None) \/
  exists w z, m = acc ++ w ++ [z] /\ is_ws z = false.
Proof.
  induction s as [|x s IH]; intros at0 acc m t H; cbn [lazy_colon] in H.
  - destruct (colon_here at0 []) eqn:E; [|discriminate H].
    inversion H; subst. left. split; congruence.
  - destruct (colon_here at0 (x :: s)) eqn:E.
    + inversion H; subst. left. split; congruence.
    + destruct (is_dot x); [|discriminate H].
      destruct (IH false (acc ++ [x]) m t H) as [[-> Hc]|(w & z & -> & Hz)].
      * right. exists [], x. split; [reflexivity|].
        destruct (is_ws x) eqn:Hx; [|reflexivity].
        destruct (colon_here false s) as [t'|] eqn:Es; [|congruence].
        rewrite (colon_here_after_ws at0 x s t' Hx Es) in E. discriminate E.
      * right. exists (x :: w), z. split; [|assumption].
        now rewrite <- app_assoc.
Qed.

Lemma trimRight_last (w : str) (z : ascii) :
  is_ws z = false -> trimRight (w ++ [z]) = w ++ [z].
Proof.
  intros Hz. unfold trimRight. rewrite rev_app_distr. cbn [rev app].
  rewrite (span_none is_ws z (rev w) Hz). cbn [snd rev].
  now rewrite rev_involutive.
Qed.

Lemma match_params_from_trimmed (s : str) : forall (at0 : bool) (m t : str),
  match_params_from at0 s = Some (m, t) -> trimRight m = m.
Proof.
  induction s as [|x s IH]; intros at0 m t H; cbn [match_params_from] in H.
  - destruct (lazy_colon at0 [] []) as [[m' t']|] eqn:E; [|discriminate H].
    inversion H; subst.
    destruct (lazy_colon_ends [] at0 [] m t E) as [[-> _]|(w & z & -> & Hz)];
      [reflexivity | now apply trimRight_last].
  - destruct (lazy_colon at0 [] (x :: s)) as [[m' t']|] eqn:E.
    + inversion H; subst.
      destruct (lazy_colon_ends (x :: s) at0 [] m t E)
        as [[-> _]|(w & z & -> & Hz)];
        [reflexivity | now apply trimRight_last].
    + eauto.
Qed.

Section Versions.

Variable replyFor : str -> option reply_entry.
Variable stripColorsAndStyle : str -> str.

Lemma parse_params_trim (line : str) :
  parse_params trimRight line = parse_params (fun m => m) line.
Proof.
  unfold parse_params, match_params.
  destruct (search_colon line); [|reflexivity].
  destruct (match_params_from true line) as [[m t]|] eqn:E; [|reflexivity].
  now rewrite (match_params_from_trimmed line true m t E).
Qed.


(** X2. The parser throws exactly when no command token is left once the
    prefix is gone, that is, when the rest of the line is empty or opens
    with a space; in every other case it returns a message whose
    [rawCommand] is that token. *)
Theorem parseMessage_throws_iff_no_command (line : str) (stripColors : bool) :
  let filtered := if stripColors then stripColorsAndStyle line else line in
  (command_token filtered = None <->
   snd (parse_prefix filtered) = [] \/
   exists r, snd (parse_prefix filtered) = " " :: r) /\
  match command_token filtered with
  | Some tok =>
      exists m : IMessage,
        parseMessage replyFor stripColorsAndStyle line stripColors = Ok m /\
        rawCommand m = tok
  | None =>
      parseMessage replyFor stripColorsAndStyle line stripColors = Throw TypeError
  end.
Proof.
  intros filtered. split.
  - unfold command_token, match_command.
    destruct (snd (parse_prefix filtered)) as [|x r].
    + cbn. split; auto.
    + cbn [span]. destruct (not_space x) eqn:Hx.
      * destruct (span not_space r). cbn. split; [discriminate|].
        intros [H|[r' H]]; [discriminate|]. inversion H; subst.
        discriminate Hx.
      * cbn. split; [|reflexivity]. intros _. right. exists r.
        unfold not_space, is_space in Hx. apply negb_false_iff in Hx.
        apply Ascii.eqb_eq in Hx. now subst.
  - destruct (command_token filtered) as [tok|] eqn:E.
    + destruct (parseMessage_with_token replyFor stripColorsAndStyle
                  (fun m => m) line tok stripColors E) as (m & Hm & Hraw & _).
      exists m. split; assumption.
    + unfold parseMessage, parseMessage_with. fold filtered.
      unfold command_token in E.
      destruct (parse_prefix filtered) as [[[[[pfx n] u] h] srv] rest].
      cbn [snd] in E. now rewrite E.
Qed.

End Versions.

(** *** Any number of middle parameters *)

Lemma join_params_cons (m1 : str) (ms : list str) :
  join_params (m1 :: ms) = " " :: m1 ++ join_params ms.
Proof. reflexivity. Qed.

Lemma lazy_colon_middles (ms : list str) : forall (at0 : bool) (acc m1 x : str),
  middle m1 = true -> Forall (fun m => middle m = true) ms ->
  lazy_colon at0 acc (m1 ++ join_params ms ++ " " :: ":" :: x)
  = Some (acc ++ m1 ++ join_params ms, fst (span is_dot x)).
Proof.
  induction ms as [|m2 ms IH]; intros at0 acc m1 x Hm1 Hms.
  - destruct (middle_parts m1 Hm1) as (Hne & Hws & Hc & _).
    cbn [join_params flat_map app].
    rewrite lazy_colon_token by auto.
    rewrite lazy_colon_trailing. now rewrite app_nil_r.
  - inversion Hms as [|? ? Hm2 Hrest]; subst.
    destruct (middle_parts m1 Hm1) as (Hne & Hws & Hc & _).
    rewrite join_params_cons.
    rewrite lazy_colon_token by auto.
    cbn [app].
    change (" " :: (m2 ++ join_params ms) ++ " " :: ":" :: x)
      with (" " :: (m2 ++ join_params ms) ++ " " :: ":" :: x).
    rewrite <- app_assoc.
    rewrite lazy_colon_space by assumption.
    rewrite IH by assumption.
    rewrite <- !app_assoc. reflexivity.
Qed.

Lemma search_colon_token (w : str) : forall (at0 : bool) (r : str),
  forallb (fun x => negb (is_ws x)) w = true ->
  (at0 = true -> starts_with_colon w = false) ->
  w <> [] ->
  search_colon_from at0 (w ++ r) = search_colon_from false r.
Proof.
  induction w as [|x w IH]; intros at0 r Hw Hc Hne; [congruence|].
  cbn [forallb] in Hw. apply andb_prop in Hw as [Hx Hw].
  apply negb_true_iff in Hx.
  cbn [app search_colon_from].
  rewrite colon_here_token; [|assumption|].
  - destruct w as [|y w]; [reflexivity|].
    apply IH; [assumption | discriminate | discriminate].
  - intros E ->. specialize (Hc E). discriminate Hc.
Qed.

Lemma search_colon_space (w r : str) :
  middle w = true ->
  search_colon_from false (" " :: w ++ r) = search_colon_from false (w ++ r).
Proof.
  intros Hm. destruct (middle_parts w Hm) as (Hne & Hws & Hc & _).
  destruct w as [|x w]; [congruence|].
  cbn [forallb] in Hws. apply andb_prop in Hws as [Hx _].
  apply negb_true_iff in Hx.
  cbn [search_colon_from].
  assert (Hcol : colon_here false (" " :: (x :: w) ++ r) = None).
  { unfold colon_here, ws_colon. cbn [span app].
    change (is_ws " ") with true. cbn iota. rewrite Hx.
    destruct x as [[] [] [] [] [] [] [] []]; try reflexivity.
    discriminate Hc. }
  now rewrite Hcol.
Qed.

Lemma search_colon_middles (ms : list str) : forall (at0 : bool) (m1 : str),
  middle m1 = true -> Forall (fun m => middle m = true) ms ->
  search_colon_from at0 (m1 ++ join_params ms) = false.
Proof.
  induction ms as [|m2 ms IH]; intros at0 m1 Hm1 Hms.
  - destruct (middle_parts m1 Hm1) as (Hne & Hws & Hc & _).
    cbn [join_params flat_map].
    rewrite search_colon_token by auto. reflexivity.
  - inversion Hms as [|? ? Hm2 Hrest]; subst.
    destruct (middle_parts m1 Hm1) as (Hne & Hws & Hc & _).
    rewrite join_params_cons.
    rewrite search_colon_token by auto.
    rewrite search_colon_space by assumption.
    now apply IH.
Qed.

Lemma split_spaces_from_start (w r cur : str) (b0 : bool) :
  w <> [] -> forallb not_space w = true ->
  split_spaces_from b0 cur (w ++ r) = split_spaces_from false cur (w ++ r).
Proof.
  intros Hne Hw. destruct w as [|x w]; [congruence|].
  cbn [forallb] in Hw. apply andb_prop in Hw as [Hx _].
  unfold not_space in Hx. apply negb_true_iff in Hx.
  cbn [app split_spaces_from]. now rewrite Hx.
Qed.

Lemma split_spaces_middles (ms : list str) : forall (m1 cur : str),
  middle m1 = true -> Forall (fun m => middle m = true) ms ->
  split_spaces_from false cur (m1 ++ join_params ms) = (cur ++ m1) :: ms.
Proof.
  induction ms as [|m2 ms IH]; intros m1 cur Hm1 Hms.
  - destruct (middle_parts m1 Hm1) as (Hne & _ & _ & Hsp).
    cbn [join_params flat_map]. rewrite app_nil_r.
    now apply split_spaces_from_last.
  - inversion Hms as [|? ? Hm2 Hrest]; subst.
    destruct (middle_parts m1 Hm1) as (Hne & _ & _ & Hsp).
    destruct (middle_parts m2 Hm2) as (Hne2 & _ & _ & Hsp2).
    rewrite join_params_cons.
    rewrite split_spaces_from_token by assumption.
    rewrite split_spaces_from_start by assumption.
    rewrite IH by assumption. reflexivity.
Qed.

Lemma command_word_parts (cmd : str) :
  command_word cmd = true ->
  cmd <> [] /\ forallb not_space cmd = true /\ starts_with_colon cmd = false.
Proof.
  unfold command_word. rewrite !andb_true_iff, negb_true_iff.
  intros [[Hne Hsp] Hc]. repeat split; auto.
  destruct cmd; [discriminate | congruence].
Qed.

Lemma match_prefix_none (cmd r : str) :
  command_word cmd = true -> match_prefix (cmd ++ r) = None.
Proof.
  intros H. destruct (command_word_parts cmd H) as (Hne & _ & Hc).
  destruct cmd as [|x cmd]; [congruence|].
  unfold match_prefix. cbn [app].
  destruct x as [[] [] [] [] [] [] [] []]; try reflexivity. discriminate Hc.
Qed.

Section Parameters.

Variable replyFor : str -> option reply_entry.
Variable stripColorsAndStyle : str -> str.

(** The parameters of a line, once the command is stripped: middles,
    then the trailing part. *)
Lemma parse_params_general (ms : list str) (t : option str) :
  Forall (fun m => middle m = true) ms ->
  (forall x, t = Some x -> forallb is_dot x = true) ->
  parse_params (fun m => m)
    (match ms with
     | [] => match t with Some x => ":" :: x | None => [] end
     | m1 :: ms' => m1 ++ join_params ms' ++ trailing_part t
     end)
  = Ok (ms ++ trailing_args t).
Proof.
  intros Hms Ht. unfold parse_params, search_colon, match_params.
  destruct ms as [|m1 ms].
  - destruct t as [x|]; [|reflexivity].
    cbn [search_colon_from colon_here match_params_from lazy_colon bind].
    rewrite (span_all is_dot x (Ht x eq_refl)). cbn [fst nonempty app].
    unfold trailing_args. destruct (nonempty x); reflexivity.
  - inversion Hms as [|? ? Hm1 Hrest]; subst.
    destruct t as [x|].
    + pose proof (lazy_colon_middles ms true [] m1 x Hm1 Hrest) as Hlazy.
      cbn [trailing_part].
      rewrite (lazy_colon_found _ _ _ _ Hlazy).
      destruct (m1 ++ join_params ms ++ " " :: ":" :: x) as [|c s] eqn:E.
      * destruct (middle_parts m1 Hm1) as (Hne & _).
        destruct m1; [congruence | discriminate E].
      * cbn [match_params_from]. rewrite Hlazy. cbn [bind app].
        rewrite (span_all is_dot x (Ht x eq_refl)). cbn [fst].
        assert (Hne : nonempty (m1 ++ join_params ms) = true).
        { destruct (middle_parts m1 Hm1) as (Hne & _).
          destruct m1; [congruence | reflexivity]. }
        rewrite Hne. unfold split_spaces.
        rewrite (split_spaces_middles ms m1 [] Hm1 Hrest). cbn [app].
        unfold trailing_args.
        destruct (nonempty x); rewrite ?app_nil_r; reflexivity.
    + cbn [trailing_part]. rewrite app_nil_r.
      rewrite (search_colon_middles ms true m1 Hm1 Hrest). cbn [bind].
      assert (Hne : nonempty (m1 ++ join_params ms) = true).
      { destruct (middle_parts m1 Hm1) as (Hne & _).
        destruct m1; [congruence | reflexivity]. }
      rewrite Hne. unfold split_spaces.
      rewrite (split_spaces_middles ms m1 [] Hm1 Hrest). cbn [app].
      unfold trailing_args. now rewrite app_nil_r.
Qed.

Lemma parseMessage_command_line_gen (cmd : str) (ms : list str) (t : option str) :
  command_word cmd = true ->
  Forall (fun m => middle m = true) ms ->
  (forall x, t = Some x -> forallb is_dot x = true) ->
  ms <> [] \/ t <> None ->
  parseMessage replyFor stripColorsAndStyle (command_line cmd ms t) false
  = Ok (mkMessage None None None None None
          (fst (normalize replyFor cmd)) cmd (snd (normalize replyFor cmd))
          (ms ++ trailing_args t)).
Proof.
  intros Hcmd Hms Ht Hsome.
  destruct (command_word_parts cmd Hcmd) as (Hne & Hsp & Hc).
  unfold parseMessage, parseMessage_with, parse_prefix, command_line.
  rewrite (match_prefix_none cmd _ Hcmd).
  assert (Hshape : exists rest,
            join_params ms ++ trailing_part t = " " :: rest /\
            span is_space (" " :: rest) = ([" "], rest) /\
            rest = match ms with
                   | [] => match t with Some x => ":" :: x | None => [] end
                   | m1 :: ms' => m1 ++ join_params ms' ++ trailing_part t
                   end).
  { destruct ms as [|m1 ms'].
    - destruct t as [x|]; [|destruct Hsome; congruence].
      exists (":" :: x). repeat split.
    - inversion Hms as [|? ? Hm1 _]; subst.
      destruct (middle_parts m1 Hm1) as (Hne1 & _ & _ & Hsp1).
      exists (m1 ++ join_params ms' ++ trailing_part t).
      split; [rewrite join_params_cons; cbn [app]; now rewrite <- app_assoc|].
      split; [|reflexivity].
      now apply span_one_space. }
  destruct Hshape as (rest & -> & Hspan & Hrest).
  unfold match_command, strip_command.
  rewrite (span_stops not_space cmd " " rest Hsp eq_refl).
  rewrite Hspan, (nonempty_true cmd Hne). cbn [nonempty andb].
  assert (Hparams : parse_params (fun m => m) rest = Ok (ms ++ trailing_args t)).
  { rewrite Hrest. apply parse_params_general; assumption. }
  destruct (normalize replyFor cmd). rewrite Hparams. reflexivity.
Qed.

(** X3. A line [COMMAND m1 ... mk :trailing] without prefix, with any number
    of middle parameters and a trailing parameter, or with at least one
    middle parameter and no trailing one, parses to a message without
    prefix fields whose [args] are the middle parameters followed by the
    trailing text; an empty trailing text is not pushed. *)
Theorem parseMessage_command_line (cmd : str) (ms : list str) (t : option str) :
  command_word cmd = true ->
  Forall (fun m => middle m = true) ms ->
  (forall x, t = Some x -> forallb is_dot x = true) ->
  ms <> [] \/ t <> None ->
  exists m : IMessage,
    parseMessage replyFor stripColorsAndStyle (command_line cmd ms t) false
    = Ok m /\
    prefix m = None /\ nick m = None /\ server m = None /\
    rawCommand m = cmd /\
    args m = ms ++ trailing_args t.
Proof.
  intros Hcmd Hms Ht Hsome. eexists.
  split; [now apply parseMessage_command_line_gen|].
  repeat split.
Qed.

(** X4. A line that is one command token and nothing else keeps the token as
    its only argument: the pattern that strips the command wants a space
    after it. *)
Theorem parseMessage_bare_command (cmd : str) :
  nonempty cmd = true ->
  forallb (fun x => negb (is_ws x)) cmd = true ->
  starts_with_colon cmd = false ->
  exists m : IMessage,
    parseMessage replyFor stripColorsAndStyle cmd false = Ok m /\
    rawCommand m = cmd /\ args m = [cmd].
Proof.
  intros Hne Hws Hc.
  assert (Hsp : forallb not_space cmd = true).
  { eapply forallb_weaken; [|exact Hws]. apply not_ws_not_space. }
  assert (Hne' : cmd <> []) by (destruct cmd; [discriminate | congruence]).
  assert (Hword : command_word cmd = true).
  { unfold command_word. now rewrite Hne, Hsp, Hc. }
  pose proof (match_prefix_none cmd [] Hword) as Hpre.
  rewrite app_nil_r in Hpre.
  assert (Hsearch : search_colon_from true cmd = false).
  { pose proof (search_colon_token cmd true [] Hws (fun _ => Hc) Hne') as Hs.
    rewrite app_nil_r in Hs. exact Hs. }
  unfold parseMessage, parseMessage_with, parse_prefix.
  rewrite Hpre.
  unfold match_command, strip_command.
  rewrite (span_all not_space cmd Hsp), Hne. cbn [span nonempty andb].
  destruct (normalize replyFor cmd).
  unfold parse_params, search_colon. rewrite Hsearch. cbn [bind]. rewrite Hne.
  unfold split_spaces. rewrite (split_spaces_from_last false [] cmd Hne' Hsp).
  eexists. repeat split.
Qed.

(** X5. A prefix that does not have the shape [nick] or [nick!user@host]
    (its first character outside the nick class is not [!]) is a server
    name: [server] is the whole prefix and [nick], [user] and [host] are
    left undefined. *)
Theorem parseMessage_server_prefix (n : str) (x : ascii) (p cmd : str) :
  forallb is_nick_char n = true ->
  is_nick_char x = false -> x <> "!" -> not_space x = true ->
  forallb not_space (n ++ x :: p) = true ->
  command_word cmd = true ->
  exists m : IMessage,
    parseMessage replyFor stripColorsAndStyle
      (":" :: (n ++ x :: p) ++ " " :: cmd ++ [" "]) false = Ok m /\
    prefix m = Some (n ++ x :: p) /\
    server m = Some (n ++ x :: p) /\
    nick m = None /\ user m = None /\ host m = None /\
    rawCommand m = cmd /\ args m = [].
Proof.
  intros Hn Hx Hbang Hxs Hsp Hcmd.
  destruct (command_word_parts cmd Hcmd) as (Hne & Hcs & Hc).
  assert (Hp : n ++ x :: p <> []) by (destruct n; discriminate).
  unfold parseMessage, parseMessage_with, parse_prefix.
  destruct (match_prefix_token (n ++ x :: p) cmd [" "] Hp Hsp Hne Hcs)
    as [-> ->].
  assert (Hnick : match_nick (n ++ x :: p) = None).
  { unfold match_nick. rewrite (span_stops is_nick_char n x p Hn Hx).
    destruct x as [[] [] [] [] [] [] [] []]; try reflexivity. congruence. }
  rewrite Hnick.
  unfold match_command, strip_command.
  rewrite (span_stops not_space cmd " " [] Hcs eq_refl).
  rewrite (nonempty_true cmd Hne). cbn [span nonempty andb].
  change (is_space " ") with true. cbn iota.
  cbn. destruct (normalize replyFor cmd). eexists. repeat split.
Qed.

End Parameters.

Lemma parseMessage_command_line_witness :
  exists m : IMessage,
    parseMessage sample_replies (fun s => s)
      (lit "MODE #chan +ov alice bob :and more") false = Ok m /\
    prefix m = None /\ nick m = None /\ server m = None /\
    rawCommand m = lit "MODE" /\
    args m = [lit "#chan"; lit "+ov"; lit "alice"; lit "bob"; lit "and more"].
Proof.
  apply (parseMessage_command_line sample_replies (fun s => s) (lit "MODE")
           [lit "#chan"; lit "+ov"; lit "alice"; lit "bob"]
           (Some (lit "and more")) eq_refl).
  - repeat constructor.
  - intros x H. inversion H; subst. reflexivity.
  - left. discriminate.
Defined.

Lemma parseMessage_bare_command_witness :
  exists m : IMessage,
    parseMessage sample_replies (fun s => s) (lit "QUIT") false = Ok m /\
    rawCommand m = lit "QUIT" /\ args m = [lit "QUIT"].
Proof.
  exact (parseMessage_bare_command sample_replies (fun s => s) (lit "QUIT")
           eq_refl eq_refl eq_refl).
Defined.

Lemma parseMessage_server_prefix_witness :
  exists m : IMessage,
    parseMessage sample_replies (fun s => s) (lit ":irc.example.org PING ") false
    = Ok m /\
    prefix m = Some (lit "irc.example.org") /\
    server m = Some (lit "irc.example.org") /\
    nick m = None /\ user m = None /\ host m = None /\
    rawCommand m = lit "PING" /\ args m = [].
Proof.
  apply (parseMessage_server_prefix sample_replies (fun s => s)
           (lit "irc") "." (lit "example.org") (lit "PING")
           eq_refl eq_refl); [discriminate | reflexivity..].
Defined.

End ParseMessageMore.

(** ** What [send] writes, [parseMessage] reads *)

Module SendProofs.

Import ParseMessage ParseMessageProofs Irc Wire ParseMessageMore.

Lemma join_with_space_params (x : str) (l : list str) :
  join_with_space (x :: l) = x ++ join_params l.
Proof.
  revert x. induction l as [|y l IH]; intros x.
  - cbn. now rewrite app_nil_r.
  - change (join_with_space (x :: y :: l))
      with (x ++ " " :: join_with_space (y :: l)).
    rewrite IH. reflexivity.
Qed.

Lemma join_params_last (ms : list str) (x : str) :
  join_params (ms ++ [x]) = join_params ms ++ " " :: x.
Proof.
  unfold join_params. rewrite flat_map_app. cbn. now rewrite app_nil_r.
Qed.

Lemma nth_error_final (A : Type) (l : list A) (x : A) :
  nth_error (l ++ [x]) (length (l ++ [x]) - 1) = Some x.
Proof.
  rewrite length_app. cbn [length].
  replace (length l + 1 - 1)%nat with (length l) by lia.
  rewrite nth_error_app2 by lia. now rewrite Nat.sub_diag.
Qed.

(** A final argument that [send] leaves without a colon is a middle
    parameter. *)
Lemma plain_final_is_middle (final : str) :
  nonempty final = true ->
  existsb is_ws final || starts_with [":"] final || negb (nonempty final) = false ->
  middle final = true.
Proof.
  intros Hne H. rewrite !orb_false_iff in H. destruct H as [[Hws Hc] _].
  unfold middle. rewrite Hne. cbn [andb].
  assert (Hall : forallb (fun x => negb (is_ws x)) final = true).
  { clear - Hws. induction final as [|x f IH]; [reflexivity|].
    cbn in *. apply orb_false_iff in Hws as [Hx Hf].
    now rewrite Hx, IH. }
  rewrite Hall. cbn [andb].
  destruct final as [|x f]; [discriminate|].
  cbn in Hc. rewrite andb_true_r in Hc.
  destruct x as [[] [] [] [] [] [] [] []]; try reflexivity. discriminate Hc.
Qed.

Section RoundTrip.

Variable replyFor : str -> option reply_entry.
Variable stripColorsAndStyle : str -> str.

(** X6. On an open connection, [send(cmd, m1, ..., mk, final)] writes one
    line ending in CR LF and leaves the client as it is; and the line
    without its CR LF parses back to the raw command [cmd] with the
    arguments [m1, ..., mk, final], whether or not [send] marked the last
    argument with a colon. The last argument must not be empty: an empty
    one is written as a lone colon, which the parser drops. *)
Theorem send_then_parse
  (cl : Client) (cn : Conn) (cmd : str) (ms : list str) (final : str) :
  conn cl = Some cn ->
  requestedDisconnect cn = false ->
  command_word cmd = true ->
  Forall (fun m => middle m = true) ms ->
  nonempty final = true ->
  forallb is_dot final = true ->
  exists line : str,
    send (cmd :: ms ++ [final]) cl = (Ok tt, cl, [Write (line ++ [CR; LF])]) /\
    exists m : IMessage,
      parseMessage replyFor stripColorsAndStyle line false = Ok m /\
      rawCommand m = cmd /\
      args m = ms ++ [final].
Proof.
  intros Hconn Hreq Hcmd Hms Hne Hdot.
  assert (Hlast : nth_error (cmd :: ms ++ [final])
                    (length (cmd :: ms ++ [final]) - 1) = Some final).
  { change (cmd :: ms ++ [final]) with ((cmd :: ms) ++ [final]).
    apply nth_error_final. }
  assert (Hinit : removelast (cmd :: ms ++ [final]) = cmd :: ms).
  { change (cmd :: ms ++ [final]) with ((cmd :: ms) ++ [final]).
    apply removelast_last. }
  unfold send, mbind, defined, get, ret, tell.
  rewrite Hlast. cbn [fst snd app]. rewrite Hconn, Hreq.
  destruct (existsb is_ws final || starts_with [":"] final
            || negb (nonempty final)) eqn:Ecolon.
  - rewrite Hinit.
    exists (command_line cmd ms (Some final)). split.
    + change ((cmd :: ms) ++ [":" :: final]) with (cmd :: ms ++ [":" :: final]).
      rewrite join_with_space_params, join_params_last.
      unfold command_line, trailing_part. now rewrite <- app_assoc.
    + eexists. split.
      * apply parseMessage_command_line_gen; try assumption.
        -- intros x Hx. now inversion Hx; subst.
        -- right. discriminate.
      * cbn [rawCommand args trailing_args]. now rewrite Hne.
  - exists (command_line cmd (ms ++ [final]) None). split.
    + rewrite join_with_space_params.
      unfold command_line, trailing_part. now rewrite !app_nil_r.
    + eexists. split.
      * apply parseMessage_command_line_gen; try assumption.
        -- apply Forall_app. split; [assumption|].
           constructor; [|constructor].
           now apply plain_final_is_middle.
        -- discriminate.
        -- left. destruct ms; discriminate.
      * cbn [rawCommand args trailing_args]. now rewrite app_nil_r.
Qed.

End RoundTrip.

Lemma send_then_parse_witness :
  exists line : str,
    send (lit "PRIVMSG" :: [lit "#chan"] ++ [lit "hello there"]) connected_client
    = (Ok tt, connected_client, [Write (line ++ [CR; LF])]) /\
    exists m : IMessage,
      parseMessage sample_replies (fun s => s) line false = Ok m /\
      rawCommand m = lit "PRIVMSG" /\
      args m = [lit "#chan"] ++ [lit "hello there"].
Proof.
  apply (send_then_parse sample_replies (fun s => s) connected_client
           (mkConn false (CyclingPingTimer.create (15 * 1000) (8 * 1000)))
           (lit "PRIVMSG") [lit "#chan"] (lit "hello there")
           eq_refl eq_refl eq_refl).
  - repeat constructor.
  - reflexivity.
  - reflexivity.
Defined.

End SendProofs.

(** ** The splitter, beyond the claim *)

Module SplitterMore.

Import Splitter SplitterProofs.

(** X7. A limit of zero stands for 450, and a negative limit makes the
    splitter throw on every string but the empty one, which always comes
    back as the destination it was given. *)
Theorem splitLongLines_degenerate_limits
  (words : str) (maxLength : Z) (destination : list str) :
  (maxLength <= 0)%Z ->
  _splitLongLines words maxLength destination
  = if (maxLength =? 0)%Z then _splitLongLines words 450 destination
    else if nonempty words then Throw TypeError
    else Ok destination.
Proof.
  intros Hle. rewrite (splitLongLines_unfold words maxLength).
  destruct (Z.eqb_spec maxLength 0) as [->|Hne].
  - now rewrite (splitLongLines_unfold words 450).
  - assert (Hor : or_450 maxLength = maxLength).
    { unfold or_450. destruct (Z.eqb_spec maxLength 0); [lia | reflexivity]. }
    rewrite Hor. unfold find_cut, char_at.
    destruct words as [|x w]; [reflexivity|].
    cbn [length Nat.eqb nonempty].
    destruct (Z.leb_spec (Z.of_nat (S (length w))) maxLength); [lia|].
    destruct (Z.ltb_spec maxLength 0); [reflexivity | lia].
Qed.

Lemma splitLongLines_degenerate_limits_witness :
  _splitLongLines (lit "hello") (-3) []
  = if (-3 =? 0)%Z then _splitLongLines (lit "hello") 450 []
    else if nonempty (lit "hello") then Throw TypeError
    else Ok [].
Proof.
  apply (splitLongLines_degenerate_limits (lit "hello") (-3) []). lia.
Defined.

(** The walk of the splitter under a positive limit, as an induction
    principle: the empty string, a string that fits, and a cut followed by
    the walk over the rest. *)
Lemma split_cuts_walk (n : Z) (P : str -> list (str * nat) -> Prop) :
  (0 < n)%Z ->
  P [] [] ->
  (forall w, w <> [] -> (Z.of_nat (length w) <= n)%Z -> P w [(w, 0%nat)]) ->
  (forall w c ws,
     (1 <= c <= Z.to_nat n)%nat -> (c < length w)%nat ->
     (ws = 1%nat /\ (exists x, nth_error w c = Some x /\ is_ws x = true) \/
      ws = 0%nat /\ c = Z.to_nat n) ->
     P (substring_from (c + ws) w) (split_cuts (substring_from (c + ws) w) n) ->
     P w ((substring_to c w, ws) :: split_cuts (substring_from (c + ws) w) n)) ->
  forall w, P w (split_cuts w n).
Proof.
  intros Hn Hempty Hwhole Hcut w.
  remember (length w) as len eqn:Hlen.
  revert w Hlen. induction len as [len IH] using lt_wf_ind. intros w Hlen.
  pose proof (find_cut_positive w n Hn) as Hfc.
  rewrite split_cuts_unfold, (or_450_positive n Hn).
  destruct (find_cut w n) as [| | |c ws].
  - now subst w.
  - destruct Hfc. now apply Hwhole.
  - contradiction.
  - destruct Hfc as (Hc & Hlt & Hkind).
    apply Hcut; try assumption.
    apply (IH (length (substring_from (c + ws) w))); [|reflexivity].
    unfold substring_from. rewrite length_skipn. lia.
Qed.

(** X8. Under a positive limit no chunk is empty, and a string free of white
    space loses nothing: its chunks, concatenated, are the string, and all
    of them but the last are exactly [maxLength] long. *)
Theorem splitLongLines_hard_cuts
  (words : str) (maxLength : Z) (destination : list str) :
  (0 < maxLength)%Z ->
  exists chunks : list str,
    _splitLongLines words maxLength destination = Ok (destination ++ chunks) /\
    Forall (fun ch => ch <> []) chunks /\
    (forallb (fun x => negb (is_ws x)) words = true ->
     concat chunks = words /\
     Forall (fun ch => Z.of_nat (length ch) = maxLength) (removelast chunks)).
Proof.
  intros Hn.
  destruct (split_cuts_spec maxLength Hn (length words) words (le_n _))
    as (Hrun & _).
  exists (map fst (split_cuts words maxLength)).
  split; [apply Hrun|]. clear Hrun. split.
  - apply (split_cuts_walk maxLength
             (fun _ cuts => Forall (fun ch => ch <> []) (map fst cuts)) Hn).
    + constructor.
    + intros w Hne _. constructor; [assumption | constructor].
    + intros w c ws Hc Hlt _ IH. cbn [map fst]. constructor; [|assumption].
      unfold substring_to. intros E.
      apply (f_equal (@length ascii)) in E.
      rewrite length_firstn in E. cbn in E. lia.
  - revert words.
    apply (split_cuts_walk maxLength
             (fun w cuts =>
                forallb (fun x => negb (is_ws x)) w = true ->
                concat (map fst cuts) = w /\
                Forall (fun ch => Z.of_nat (length ch) = maxLength)
                  (removelast (map fst cuts))) Hn).
    + intros _. split; [reflexivity | constructor].
    + intros w _ _ _. cbn. rewrite app_nil_r. split; [reflexivity | constructor].
    + intros w c ws Hc Hlt Hkind IH Hfree.
      destruct Hkind as [[-> (x & Hx & Hws)]|[-> ->]].
      * exfalso. rewrite forallb_forall in Hfree.
        specialize (Hfree x (nth_error_In _ _ Hx)).
        rewrite Hws in Hfree. discriminate Hfree.
      * replace (Z.to_nat maxLength + 0)%nat with (Z.to_nat maxLength) in * by lia.
        unfold substring_from, substring_to in *.
        assert (Hrest : forallb (fun x => negb (is_ws x))
                          (skipn (Z.to_nat maxLength) w) = true).
        { rewrite forallb_forall in *. intros x Hin. apply Hfree.
          rewrite <- (firstn_skipn (Z.to_nat maxLength) w).
          apply in_or_app. now right. }
        destruct (IH Hrest) as [Hcat Hlens].
        cbn [map fst concat]. rewrite Hcat, firstn_skipn. split; [reflexivity|].
        destruct (map fst (split_cuts (skipn (Z.to_nat maxLength) w) maxLength))
          as [|y l] eqn:Emap.
        -- cbn in Hcat. apply (f_equal (@length ascii)) in Hcat.
           rewrite length_skipn in Hcat. cbn in Hcat. lia.
        -- cbn [removelast]. constructor; [|exact Hlens].
           rewrite length_firstn. lia.
Qed.

Lemma splitLongLines_hard_cuts_witness :
  exists chunks : list str,
    _splitLongLines (lit "abcdefgh") 3 [lit "before"]
    = Ok ([lit "before"] ++ chunks) /\
    Forall (fun ch => ch <> []) chunks /\
    (forallb (fun x => negb (is_ws x)) (lit "abcdefgh") = true ->
     concat chunks = lit "abcdefgh" /\
     Forall (fun ch => Z.of_nat (length ch) = 3%Z) (removelast chunks)).
Proof.
  apply (splitLongLines_hard_cuts (lit "abcdefgh") 3 [lit "before"]). lia.
Defined.

End SplitterMore.

(** ** The watchdog, beyond the claim *)

Module WatchdogProofs.

Import CyclingPingTimer CyclingPingTimerProofs Watchdog.

Lemma paired_app (e1 e2 : list timer_event) : forall w : bool,
  paired w (e1 ++ e2) = paired w e1 && paired (last_wantPing w e1) e2.
Proof.
  induction e1 as [|e e1 IH]; intros w; [reflexivity|].
  destruct e; cbn [app paired].
  - apply IH.
  - rewrite IH. unfold last_wantPing. cbn [fold_left].
    now rewrite andb_assoc.
Qed.

Lemma last_wantPing_app (e1 e2 : list timer_event) (w : bool) :
  last_wantPing w (e1 ++ e2) = last_wantPing (last_wantPing w e1) e2.
Proof. unfold last_wantPing. apply fold_left_app. Qed.

(** What the phase tells about the trace so far: the timer waits for a
    pong only directly after [wantPing]. *)
Definition awaited (p : phase) (w : bool) : Prop :=
  match p with
  | running_wait_for_pong _ => w = true
  | _ => True
  end.

Section Traces.

Variables idle patience : nat.

Lemma phase_tick_paired (p : phase) (w : bool) :
  awaited p w ->
  paired w (snd (phase_tick idle patience p)) = true /\
  awaited (fst (phase_tick idle patience p))
    (last_wantPing w (snd (phase_tick idle patience p))).
Proof.
  intros H. destruct p as [|ms|ms]; cbn [phase_tick].
  - now split.
  - destruct (ms <=? 1)%nat; now split.
  - cbn in H. subst w. destruct (ms <=? 1)%nat; now split.
Qed.

Lemma phase_elapse_paired (ms : nat) : forall (p : phase) (w : bool),
  awaited p w ->
  paired w (snd (phase_elapse idle patience ms p)) = true /\
  awaited (fst (phase_elapse idle patience ms p))
    (last_wantPing w (snd (phase_elapse idle patience ms p))).
Proof.
  induction ms as [|n IH]; intros p w H; [now split|].
  cbn [phase_elapse].
  destruct (phase_tick_paired p w H) as [H1 H2].
  destruct (phase_tick idle patience p) as [p1 ev1]. cbn [fst snd] in *.
  destruct (IH p1 _ H2) as [H3 H4].
  destruct (phase_elapse idle patience n p1) as [p2 ev2]. cbn [fst snd] in *.
  rewrite paired_app, last_wantPing_app, H1, H3. now split.
Qed.

Lemma phase_step_paired (i : input) (p : phase) (w : bool) :
  awaited p w ->
  paired w (snd (phase_step idle patience i p)) = true /\
  awaited (fst (phase_step idle patience i p))
    (last_wantPing w (snd (phase_step idle patience i p))).
Proof.
  intros H. destruct i; cbn [phase_step fst snd].
  - split; [reflexivity|]. now destruct p.
  - now split.
  - split; [reflexivity|]. now destruct p.
  - now apply phase_elapse_paired.
Qed.

Lemma phase_run_paired (inputs : list input) : forall (p : phase) (w : bool),
  awaited p w ->
  paired w (snd (phase_run idle patience inputs p)) = true.
Proof.
  induction inputs as [|i rest IH]; intros p w H; [reflexivity|].
  cbn [phase_run].
  destruct (phase_step_paired i p w H) as [H1 H2].
  destruct (phase_step idle patience i p) as [p1 ev1]. cbn [fst snd] in *.
  specialize (IH p1 _ H2).
  destruct (phase_run idle patience rest p1) as [p2 ev2]. cbn [fst snd] in *.
  now rewrite paired_app, H1, IH.
Qed.

End Traces.

(** X9. Whatever is done to a timer and however time passes, a [pingTimeout]
    is only ever emitted directly after a [wantPing]: the connection is
    never declared dead without the client having been asked to ping, and
    never twice for one ping. *)
Theorem pingTimeout_follows_wantPing
  (silence wait : nat) (inputs : list input) :
  paired false (snd (run inputs (create silence wait))) = true.
Proof.
  rewrite run_fresh_events. now apply phase_run_paired.
Qed.

(** X10. Activity resets the watchdog also while it waits for the pong: the
    pending [pingTimeout] is cancelled and a full idle interval must pass
    before the next [wantPing]. After a [pingTimeout] the timer is
    stopped: activity does not revive it, [start()] does. *)
Theorem activity_resets_watchdog (silence wait : nat) (gaps : list nat) :
  let idle := Nat.max 1 silence in
  let patience := Nat.max 1 wait in
  let fresh := create silence wait in
  Forall (fun d => (d < idle)%nat) gaps ->
  (forall d d', (d < patience)%nat -> (d' < idle)%nat ->
     snd (run (quiet gaps ++ [Elapse (idle + d); NotifyOfActivity; Elapse d'])
            fresh)
     = [wantPing]) /\
  (forall d d', (d < patience)%nat -> (d' < patience)%nat ->
     snd (run (quiet gaps
               ++ [Elapse (idle + d); NotifyOfActivity; Elapse (idle + d')])
            fresh)
     = [wantPing; wantPing]) /\
  (forall d d',
     snd (run (quiet gaps
               ++ [Elapse (idle + patience + d); NotifyOfActivity; Elapse d'])
            fresh)
     = [wantPing; pingTimeout]) /\
  (forall d d', (d' < patience)%nat ->
     snd (run (quiet gaps
               ++ [Elapse (idle + patience + d); Start; Elapse (idle + d')])
            fresh)
     = [wantPing; pingTimeout; wantPing]).
Proof.
  intros idle patience fresh Hgaps.
  assert (Hi : (1 <= idle)%nat) by (subst idle; lia).
  assert (Hp : (1 <= patience)%nat) by (subst patience; lia).
  assert (Hwait : forall d, (d < patience)%nat ->
            phase_elapse idle patience (idle + d) (running_idle idle)
            = (running_wait_for_pong (patience - d), [wantPing])).
  { intros d Hd. rewrite phase_elapse_idle_late by lia.
    replace (idle + d - idle)%nat with d by lia.
    now rewrite phase_elapse_wait_early. }
  assert (Hdead : forall d,
            phase_elapse idle patience (idle + patience + d) (running_idle idle)
            = (stopped, [wantPing; pingTimeout])).
  { intros d. rewrite phase_elapse_idle_late by lia.
    now rewrite phase_elapse_wait_late by lia. }
  subst fresh. repeat split.
  - intros d d' Hd Hd'. rewrite run_fresh_events, after_quiet by assumption.
    cbn [phase_run phase_step]. fold idle patience.
    rewrite Hwait by assumption.
    now rewrite phase_elapse_idle_early by assumption.
  - intros d d' Hd Hd'. rewrite run_fresh_events, after_quiet by assumption.
    cbn [phase_run phase_step]. fold idle patience.
    rewrite !Hwait by assumption. reflexivity.
  - intros d d'. rewrite run_fresh_events, after_quiet by assumption.
    cbn [phase_run phase_step]. fold idle patience.
    rewrite Hdead. now rewrite phase_elapse_stopped.
  - intros d d' Hd'. rewrite run_fresh_events, after_quiet by assumption.
    cbn [phase_run phase_step]. fold idle patience.
    rewrite Hdead. now rewrite Hwait.
Qed.

Lemma activity_resets_watchdog_witness :
  (forall d d', (d < 3)%nat -> (d' < 5)%nat ->
     snd (run (quiet [2; 4] ++ [Elapse (5 + d); NotifyOfActivity; Elapse d'])
            (create 5 3))
     = [wantPing]) /\
  (forall d d', (d < 3)%nat -> (d' < 3)%nat ->
     snd (run (quiet [2; 4]
               ++ [Elapse (5 + d); NotifyOfActivity; Elapse (5 + d')])
            (create 5 3))
     = [wantPing; wantPing]) /\
  (forall d d',
     snd (run (quiet [2; 4]
               ++ [Elapse (5 + 3 + d); NotifyOfActivity; Elapse d'])
            (create 5 3))
     = [wantPing; pingTimeout]) /\
  (forall d d', (d' < 3)%nat ->
     snd (run (quiet [2; 4]
               ++ [Elapse (5 + 3 + d); Start; Elapse (5 + d')])
            (create 5 3))
     = [wantPing; pingTimeout; wantPing]).
Proof.
  apply (activity_resets_watchdog 5 3 [2; 4]).
  repeat constructor.
Defined.

Lemma elapse_nothing_armed (ms : nat) (c : t) :
  armed c = [] -> elapse ms c = (c, []).
Proof.
  intros H. induction ms as [|n IH]; [reflexivity|].
  cbn [elapse]. unfold tick. rewrite H. cbn [map filter run_due].
  rewrite <- H. destruct c. cbn [started loopingTimeout pingWaitTimeout armed
    next_handle millisecondsOfSilenceBeforePingSent
    millisecondsBeforePingTimeout] in *.
  rewrite IH. reflexivity.
Qed.

(** X11. A timer that was never started stays as it was made and emits
    nothing, whatever else is called on it and however long one waits. *)
Theorem unstarted_timer_is_inert (silence wait : nat) (inputs : list input) :
  existsb is_start inputs = false ->
  run inputs (create silence wait) = (create silence wait, []).
Proof.
  induction inputs as [|i rest IH]; intros H; [reflexivity|].
  cbn [existsb] in H. apply orb_false_iff in H as [Hi Hrest].
  cbn [run]. destruct i; try discriminate Hi; cbn [step].
  - change (stop (create silence wait)) with (create silence wait).
    now rewrite (IH Hrest).
  - change (notifyOfActivity (create silence wait)) with (create silence wait).
    now rewrite (IH Hrest).
  - rewrite elapse_nothing_armed by reflexivity. now rewrite (IH Hrest).
Qed.

Lemma unstarted_timer_is_inert_witness :
  run [Elapse 100; NotifyOfActivity; Stop; Elapse 7] (create 5 3)
  = (create 5 3, []).
Proof.
  apply (unstarted_timer_is_inert 5 3
           [Elapse 100; NotifyOfActivity; Stop; Elapse 7]).
  reflexivity.
Defined.

End WatchdogProofs.

(** ** The connection, beyond the claims *)

Module ConnectionMore.

Import ParseMessage Irc ConnectionProofs Session.

Section Data.

Variable replyFor : str -> option reply_entry.
Variable stripColorsAndStyle : str -> str.
Variable raw_listeners : IMessage -> Client -> result unit * Client.

Local Abbreviation handleData :=
  (Irc.handleData replyFor stripColorsAndStyle raw_listeners).
Local Abbreviation handle_line :=
  (Irc.handle_line replyFor stripColorsAndStyle raw_listeners).
Local Abbreviation parse := (parseMessage replyFor stripColorsAndStyle).
Local Abbreviation raw_events := (Irc.raw_events replyFor stripColorsAndStyle).
Local Abbreviation well_behaved := (ConnectionProofs.well_behaved raw_listeners).

(** Listeners that may throw, but leave the options and the connection
    object alone. *)
Definition keeps_connection : Prop :=
  forall (message : IMessage) (cl : Client),
    opt (snd (raw_listeners message cl)) = opt cl /\
    conn (snd (raw_listeners message cl)) = conn cl.

Lemma handleData_unfold (buffer chunk : str) (cl : Client) (cn : Conn) :
  conn cl = Some cn ->
  handleData chunk (buffer, cl)
  = if nonempty (last (split_lines (buffer ++ chunk)) [])
    then (Ok tt, (buffer ++ chunk, notified cl), [])
    else forEach (complete_lines (buffer ++ chunk)) handle_line
           ([], notified cl).
Proof.
  intros Hconn.
  assert (Hstart : forall k : unit -> M (str * Client) unit,
    mbind (on_client
      (cl0 <~ get ;;
       cn0 <~ defined (conn cl0) ;;
       modify (set_conn (Some (mkConn (requestedDisconnect cn0)
         (CyclingPingTimer.notifyOfActivity (cyclingPingTimer cn0))))))) k
      (buffer, cl)
    = k tt (buffer, notified cl)).
  { intros k. unfold mbind, on_client, zoom, get, defined, modify, ret, notified.
    cbn [fst snd]. rewrite Hconn. cbn [fst snd app].
    destruct (k tt _) as [[r s'] tr]. reflexivity. }
  unfold Irc.handleData. rewrite Hstart.
  unfold mbind at 1 2. unfold modify at 1, get at 1. cbn [fst snd app].
  destruct (nonempty (last (split_lines (buffer ++ chunk)) [])).
  - reflexivity.
  - unfold mbind at 1, modify at 1. cbn [fst snd app]. unfold complete_lines.
    destruct (forEach _ _ _) as [[r s'] tr]. reflexivity.
Qed.

Lemma notified_opt (cl : Client) : opt (notified cl) = opt cl.
Proof. unfold notified. now destruct (conn cl). Qed.

Lemma handle_line_empty (s : str * Client) :
  handle_line [] s = (Ok tt, s, []).
Proof. reflexivity. Qed.

Lemma handle_line_parse_throws (line buffer : str) (cl : Client) (e : js_error) :
  nonempty line = true ->
  parse line (stripColors (opt cl)) = Throw e ->
  handle_line line (buffer, cl) = (Throw e, (buffer, cl), []).
Proof.
  intros Hne Hparse. destruct line as [|x line]; [discriminate|].
  unfold Irc.handle_line, when, mbind, get, of_result.
  cbn [length Nat.eqb negb fst snd]. rewrite Hparse. reflexivity.
Qed.

Lemma handle_line_swallows (line buffer : str) (cl : Client) (cn : Conn)
  (message : IMessage) :
  nonempty line = true ->
  parse line (stripColors (opt cl)) = Ok message ->
  conn (snd (raw_listeners message cl)) = Some cn ->
  requestedDisconnect cn = true ->
  handle_line line (buffer, cl)
  = (Ok tt, (buffer, snd (raw_listeners message cl)),
     [Emit (lit "raw") [VMessage message]]).
Proof.
  intros Hne Hparse Hconn Hreq. destruct line as [|x line]; [discriminate|].
  unfold Irc.handle_line, when, mbind, get, of_result, try_catch, on_client,
    zoom, emit, tell, run_raw_listeners, ret, defined, throw.
  cbn [length Nat.eqb negb fst snd]. rewrite Hparse. cbn [fst snd app].
  destruct (raw_listeners message cl) as [r cl1]. cbn [fst snd] in *.
  destruct r as [[]|e]; [reflexivity|].
  cbn [fst snd app]. rewrite Hconn. unfold ret. cbn [fst snd app].
  rewrite Hreq. reflexivity.
Qed.

Lemma forEach_lines_throw (good : list str) (bad : str) (rest : list str)
  (e : js_error) : forall (cl : Client) (flag : bool),
  well_behaved ->
  stripColors (opt cl) = flag ->
  Forall (fun line => nonempty line = true ->
            exists message, parse line flag = Ok message) good ->
  nonempty bad = true ->
  parse bad flag = Throw e ->
  exists cl' : Client,
    forEach (good ++ bad :: rest) handle_line ([], cl)
    = (Throw e, ([], cl'), raw_events flag good).
Proof.
  induction good as [|line lines IH]; intros cl flag Hwb Hflag Hall Hne Hbad.
  - exists cl. cbn [app forEach]. unfold mbind at 1.
    change (@pair (list ascii) Client [] cl) with (@pair str Client [] cl).
    rewrite (handle_line_parse_throws bad [] cl e Hne)
      by (now rewrite Hflag).
    reflexivity.
  - inversion Hall as [|? ? Hline Hrest]; subst.
    cbn [app forEach]. unfold mbind at 1.
    destruct (nonempty line) eqn:Hl.
    + destruct (Hline eq_refl) as [message Hparse].
      destruct (Hwb message cl) as [_ Hopt].
      destruct (IH (snd (raw_listeners message cl)) (stripColors (opt cl)) Hwb)
        as [cl' Hrun]; [now rewrite Hopt | assumption | assumption | assumption |].
      exists cl'.
      change (@pair (list ascii) Client [] cl) with (@pair str Client [] cl).
      rewrite (handle_line_emits replyFor stripColorsAndStyle raw_listeners
                 line [] cl message Hwb Hl Hparse).
      cbv beta iota.
      change (@pair str Client []) with (@pair (list ascii) Client []).
      rewrite Hrun.
      unfold Irc.raw_events. cbn [filter]. rewrite Hl.
      cbn [flat_map]. rewrite Hparse. reflexivity.
    + destruct line; [|discriminate].
      destruct (IH cl (stripColors (opt cl)) Hwb eq_refl Hrest Hne Hbad)
        as [cl' Hrun].
      exists cl'.
      change (handle_line [] ([], cl))
        with (@Ok unit tt, (@nil ascii, cl), @nil action).
      cbv beta iota.
      rewrite Hrun. unfold Irc.raw_events. cbn [filter nonempty]. reflexivity.
Qed.

Lemma forEach_lines_swallow (lines : list str) :
  forall (cl : Client) (cn : Conn) (flag : bool),
  keeps_connection ->
  conn cl = Some cn ->
  requestedDisconnect cn = true ->
  stripColors (opt cl) = flag ->
  Forall (fun line => nonempty line = true ->
            exists message, parse line flag = Ok message) lines ->
  exists cl' : Client,
    forEach lines handle_line ([], cl)
    = (Ok tt, ([], cl'), raw_events flag lines).
Proof.
  induction lines as [|line lines IH]; intros cl cn flag Hk Hconn Hreq Hflag Hall.
  - exists cl. reflexivity.
  - inversion Hall as [|? ? Hline Hrest]; subst.
    cbn [forEach]. unfold mbind at 1.
    destruct (nonempty line) eqn:Hl.
    + destruct (Hline eq_refl) as [message Hparse].
      destruct (Hk message cl) as [Hopt Hc].
      destruct (IH (snd (raw_listeners message cl)) cn (stripColors (opt cl)) Hk)
        as [cl' Hrun];
        [now rewrite Hc | assumption | now rewrite Hopt | assumption |].
      exists cl'.
      change (@pair (list ascii) Client [] cl) with (@pair str Client [] cl).
      rewrite (handle_line_swallows line [] cl cn message Hl Hparse)
        by (try assumption; now rewrite Hc).
      cbv beta iota.
      change (@pair str Client []) with (@pair (list ascii) Client []).
      rewrite Hrun.
      unfold Irc.raw_events. cbn [filter]. rewrite Hl.
      cbn [flat_map]. rewrite Hparse. reflexivity.
    + destruct line; [|discriminate].
      destruct (IH cl cn (stripColors (opt cl)) Hk Hconn Hreq eq_refl Hrest)
        as [cl' Hrun].
      exists cl'.
      change (handle_line [] ([], cl))
        with (@Ok unit tt, (@nil ascii, cl), @nil action).
      cbv beta iota.
      rewrite Hrun. unfold Irc.raw_events. cbn [filter nonempty]. reflexivity.
Qed.


(** X13. Once a disconnect has been requested, what the listeners of [raw]
    throw is swallowed: every complete line is still parsed and emitted
    and the [data] listener returns normally. *)
Theorem handleData_swallows_after_disconnect
  (buffer chunk : str) (cl : Client) (cn : Conn) :
  conn cl = Some cn ->
  requestedDisconnect cn = true ->
  keeps_connection ->
  nonempty (last (split_lines (buffer ++ chunk)) []) = false ->
  Forall (fun line => nonempty line = true ->
            exists message, parse line (stripColors (opt cl)) = Ok message)
    (complete_lines (buffer ++ chunk)) ->
  exists cl' : Client,
    handleData chunk (buffer, cl)
    = (Ok tt, ([], cl'),
       raw_events (stripColors (opt cl)) (complete_lines (buffer ++ chunk))).
Proof.
  intros Hconn Hreq Hk Hlast Hall.
  rewrite (handleData_unfold buffer chunk cl cn Hconn), Hlast.
  apply (forEach_lines_swallow _ (notified cl)
           (mkConn (requestedDisconnect cn)
              (CyclingPingTimer.notifyOfActivity (cyclingPingTimer cn))));
    try assumption.
  - unfold notified. now rewrite Hconn.
  - now rewrite notified_opt.
Qed.

(** *** Splitting a buffer that ends a line *)

Lemma split_lines_from_cons (s cur : str) :
  exists (p : str) (l : list str), split_lines_from cur s = p :: l.
Proof.
  revert cur. induction s as [|c r IH]; intros cur; cbn [split_lines_from].
  - eauto.
  - destruct (code c =? 13)%nat.
    + destruct r as [|c' r']; [eauto|]. destruct (code c' =? 10)%nat; eauto.
    + destruct (code c =? 10)%nat; [eauto | apply IH].
Qed.

Lemma last_after (s cur p : str) :
  last (p :: split_lines_from cur s) [] = last (split_lines_from cur s) [].
Proof.
  destruct (split_lines_from_cons s cur) as (q & l & ->). reflexivity.
Qed.

Lemma filter_nonempty_cons (p : str) (l : list str) :
  filter nonempty (p :: l) = filter nonempty [p] ++ filter nonempty l.
Proof. cbn. now destruct (nonempty p). Qed.

(** When the pieces of [x] end in an empty piece, the lines of [x ++ y]
    that are not empty are those of [x] followed by those of [y], and
    the last piece is that of [y]: also when a CR LF pair is cut in
    two. *)
Lemma split_lines_app (y : str) (n : nat) : forall (x cur : str),
  (length x <= n)%nat ->
  last (split_lines_from cur x) [] = [] ->
  filter nonempty (split_lines_from cur (x ++ y))
  = filter nonempty (split_lines_from cur x)
    ++ filter nonempty (split_lines_from [] y) /\
  last (split_lines_from cur (x ++ y)) [] = last (split_lines_from [] y) [].
Proof.
  induction n as [|n IH]; intros x cur Hlen Hlast.
  - destruct x; [|cbn in Hlen; lia]. cbn in Hlast. subst cur.
    split; reflexivity.
  - destruct x as [|c r].
    { cbn in Hlast. subst cur. split; reflexivity. }
    cbn [length] in Hlen.
    cbn [app split_lines_from] in *.
    destruct (code c =? 13)%nat eqn:Hcr.
    + destruct r as [|c' r'].
      * cbn [app]. destruct y as [|c' y'].
        -- cbn. rewrite app_nil_r. split; reflexivity.
        -- destruct (code c' =? 10)%nat eqn:Hlf.
           ++ assert (Hy : split_lines_from [] (c' :: y')
                           = [] :: split_lines_from [] y').
              { cbn [split_lines_from].
                assert (Hnot : (code c' =? 13)%nat = false).
                { apply Nat.eqb_eq in Hlf. rewrite Hlf. reflexivity. }
                rewrite Hnot.
                rewrite Hlf. reflexivity. }
              rewrite Hy, !last_after. split; [|reflexivity].
              cbn [filter split_lines_from nonempty].
              destruct (nonempty cur); reflexivity.
           ++ rewrite !last_after. split; [|reflexivity].
              cbn [filter split_lines_from nonempty].
              destruct (nonempty cur); reflexivity.
      * cbn [app]. cbn [length] in Hlen.
        destruct (code c' =? 10)%nat eqn:Hlf.
        -- rewrite last_after in Hlast. rewrite !last_after.
           destruct (IH r' [] ltac:(lia) Hlast) as [Hf Hl].
           split; [|exact Hl].
           rewrite (filter_nonempty_cons cur), Hf,
             (filter_nonempty_cons cur (split_lines_from [] r')).
           now rewrite app_assoc.
        -- rewrite last_after in Hlast.
           change (c' :: r' ++ y) with ((c' :: r') ++ y).
           rewrite !last_after.
           destruct (IH (c' :: r') [] ltac:(cbn [length]; lia) Hlast) as [Hf Hl].
           split; [|exact Hl].
           rewrite (filter_nonempty_cons cur), Hf,
             (filter_nonempty_cons cur (split_lines_from [] (c' :: r'))).
           now rewrite app_assoc.
    + destruct (code c =? 10)%nat eqn:Hlf.
      * rewrite last_after in Hlast. rewrite !last_after.
        destruct (IH r [] ltac:(lia) Hlast) as [Hf Hl].
        split; [|exact Hl].
        rewrite (filter_nonempty_cons cur), Hf,
          (filter_nonempty_cons cur (split_lines_from [] r)).
        now rewrite app_assoc.
      * apply IH; [lia | assumption].
Qed.

Lemma filter_nonempty_removelast (l : list str) :
  last l [] = [] ->
  filter nonempty (removelast l) = filter nonempty l.
Proof.
  induction l as [|p l IH]; [reflexivity|].
  destruct l as [|q l].
  - cbn. now intros ->.
  - intros H. change (last (p :: q :: l) []) with (last (q :: l) []) in H.
    change (removelast (p :: q :: l)) with (p :: removelast (q :: l)).
    rewrite (filter_nonempty_cons p), (filter_nonempty_cons p (q :: l)).
    now rewrite IH.
Qed.

Lemma nonempty_false (s : str) : nonempty s = false -> s = [].
Proof. destruct s; [reflexivity | discriminate]. Qed.

Lemma parseable_filter (Q : str -> Prop) (l : list str) :
  Forall (fun line => nonempty line = true -> Q line) l <->
  Forall Q (filter nonempty l).
Proof.
  induction l as [|p l IH]; [split; constructor|].
  cbn [filter]. destruct (nonempty p) eqn:Hp; split; intros H.
  - inversion H; subst. constructor; [auto | now apply IH].
  - inversion H; subst. constructor; [auto | now apply IH].
  - inversion H; subst. now apply IH.
  - constructor; [intros E; congruence | now apply IH].
Qed.

Lemma raw_events_filter (flag : bool) (l l' : list str) :
  filter nonempty l = filter nonempty l' ->
  raw_events flag l = raw_events flag l'.
Proof. unfold Irc.raw_events. now intros ->. Qed.

Lemma raw_events_app (flag : bool) (l l' : list str) :
  raw_events flag (l ++ l') = raw_events flag l ++ raw_events flag l'.
Proof. unfold Irc.raw_events. now rewrite filter_app, flat_map_app. Qed.

Lemma forEach_lines_keep (lines : list str) : forall (cl : Client) (flag : bool),
  well_behaved ->
  keeps_connection ->
  stripColors (opt cl) = flag ->
  Forall (fun line => nonempty line = true ->
            exists message, parse line flag = Ok message) lines ->
  exists cl' : Client,
    forEach lines handle_line ([], cl)
    = (Ok tt, ([], cl'), raw_events flag lines) /\
    opt cl' = opt cl /\ conn cl' = conn cl.
Proof.
  induction lines as [|line lines IH]; intros cl flag Hwb Hk Hflag Hall.
  - exists cl. repeat split.
  - inversion Hall as [|? ? Hline Hrest]; subst.
    destruct (nonempty line) eqn:Hne.
    + destruct (Hline eq_refl) as [message Hparse].
      destruct (Hk message cl) as [Hopt Hconn].
      destruct (IH (snd (raw_listeners message cl)) (stripColors (opt cl)) Hwb Hk)
        as (cl' & Hrun & Hopt' & Hconn'); [now rewrite Hopt | assumption |].
      exists cl'. split; [|split; congruence].
      cbn [forEach]. unfold mbind at 1.
      change (@pair (list ascii) Client [] cl) with (@pair str Client [] cl).
      rewrite (handle_line_emits replyFor stripColorsAndStyle raw_listeners
                 line [] cl message Hwb Hne Hparse).
      cbv beta iota.
      change (@pair str Client []) with (@pair (list ascii) Client []).
      rewrite Hrun.
      unfold Irc.raw_events. cbn [filter]. rewrite Hne.
      cbn [flat_map]. rewrite Hparse. reflexivity.
    + destruct line; [|discriminate].
      destruct (IH cl (stripColors (opt cl)) Hwb Hk eq_refl Hrest)
        as (cl' & Hrun & Hopt' & Hconn').
      exists cl'. split; [|split; assumption].
      cbn [forEach]. unfold mbind at 1.
      change (handle_line [] ([], cl))
        with (@Ok unit tt, (@nil ascii, cl), @nil action).
      cbv beta iota.
      rewrite Hrun. unfold Irc.raw_events. cbn [filter nonempty]. reflexivity.
Qed.


End Data.


(** Listeners that throw on every message. *)
Definition throwing_listeners (message : IMessage) (cl : Client)
  : result unit * Client :=
  (Throw TypeError, cl).

Definition disconnecting_client : Client :=
  set_conn (Some (mkConn true (CyclingPingTimer.create (15 * 1000) (8 * 1000))))
    connected_client.

Lemma handleData_swallows_after_disconnect_witness :
  exists cl' : Client,
    Irc.handleData sample_replies (fun s => s) throwing_listeners
      (lit "PING a" ++ [CR; LF] ++ lit "PING b" ++ [CR; LF])
      ([], disconnecting_client)
    = (Ok tt, ([], cl'),
       Irc.raw_events sample_replies (fun s => s)
         (stripColors (opt disconnecting_client))
         (complete_lines
            ([] ++ lit "PING a" ++ [CR; LF] ++ lit "PING b" ++ [CR; LF]))).
Proof.
  apply (handleData_swallows_after_disconnect sample_replies (fun s => s)
           throwing_listeners []
           (lit "PING a" ++ [CR; LF] ++ lit "PING b" ++ [CR; LF])
           disconnecting_client
           (mkConn true (CyclingPingTimer.create (15 * 1000) (8 * 1000)))
           eq_refl eq_refl).
  - intros message cl. split; reflexivity.
  - reflexivity.
  - repeat constructor; intros _; eexists; reflexivity.
Defined.


End ConnectionMore.

(** ** Reconnecting and giving up *)

Module SessionProofs.

Import ParseMessage Irc Session.

(** A client whose live connection nobody asked to close, with no
    reconnect pending. *)
Definition live (cap : option Z) (cl : Client) : Prop :=
  retryCount (opt cl) = cap /\
  reconnectTimeouts cl = [] /\
  match conn cl with
  | Some cn => requestedDisconnect cn = false
  | None => True
  end.

Lemma connect_live (cap : option Z) (k : option Z) (cl : Client) :
  retryCount (opt cl) = cap ->
  reconnectTimeouts cl = [] ->
  exists cl' : Client,
    connect k cl
    = (Ok match k with Some z => z | None => 0%Z end, cl', [OpenSocket]) /\
    live cap cl'.
Proof.
  intros Hcap Hnone. destruct cl as [o n hm ml ch pfm mfp md cn rt].
  cbn in Hcap, Hnone. subst rt.
  unfold connect, mbind, modify, tell, ret. cbn.
  eexists. split; [reflexivity|]. unfold live. cbn. auto.
Qed.

Lemma close_then_reconnect (cap : option Z) (k : Z) (cl : Client) :
  live cap cl ->
  match cap with
  | Some c => (k < c)%Z
  | None => True
  end ->
  exists cl' : Client,
    (close_listener k ;;; reconnect_fires) cl
    = (Ok (Some (k + 1)%Z), cl', [OpenSocket]) /\
    live cap cl'.
Proof.
  intros (Hcap & Hnone & Hreq) Hbelow.
  destruct cl as [o n hm ml ch pfm mfp md cn rt].
  cbn in Hcap, Hnone, Hreq. subst rt.
  assert (Hflag : match cn with
                  | Some c0 => requestedDisconnect c0
                  | None => false
                  end = false) by (destruct cn; auto).
  unfold close_listener, reconnect_fires, connect, mbind, get, modify, tell, ret.
  cbn [fst snd app conn opt reconnectTimeouts]. rewrite Hflag, Hcap.
  destruct cap as [c|].
  - destruct (Z.geb_spec k c); [lia|]. cbn.
    eexists. split; [reflexivity|]. unfold live. cbn. auto.
  - cbn. eexists. split; [reflexivity|]. unfold live. cbn. auto.
Qed.

Lemma close_at_cap (c k : Z) (cl : Client) :
  live (Some c) cl ->
  (c <= k)%Z ->
  (close_listener k ;;; reconnect_fires) cl
  = (Ok None, cl, [Emit (lit "abort") [VNumber c]]).
Proof.
  intros (Hcap & Hnone & Hreq) Hle.
  destruct cl as [o n hm ml ch pfm mfp md cn rt].
  cbn in Hcap, Hnone, Hreq. subst rt.
  assert (Hflag : match cn with
                  | Some c0 => requestedDisconnect c0
                  | None => false
                  end = false) by (destruct cn; auto).
  unfold close_listener, reconnect_fires, mbind, get, emit, tell, ret.
  cbn [fst snd app conn opt reconnectTimeouts]. rewrite Hflag, Hcap.
  destruct (Z.geb_spec k c); [|lia]. reflexivity.
Qed.

Lemma consecutive_closes_step (n : nat) (k : Z) (cl : Client) :
  consecutive_closes (S n) k cl
  = (next <~ (close_listener k ;;; reconnect_fires) ;;
     match next with
     | Some k' => consecutive_closes n k'
     | None => ret tt
     end) cl.
Proof.
  cbn [consecutive_closes]. unfold mbind.
  destruct (close_listener k cl) as [[[[]|e] s1] t1]; [|reflexivity].
  destruct (reconnect_fires s1) as [[[next|e] s2] t2]; cbn.
  - destruct (match next with
              | Some k' => consecutive_closes n k'
              | None => ret tt
              end s2) as [[r s3] t3].
    now rewrite app_assoc.
  - reflexivity.
Qed.

Lemma closes_from (cap : option Z) (n : nat) : forall (k : nat) (cl : Client),
  live cap cl ->
  match cap with
  | Some c => (k <= Z.to_nat c)%nat
  | None => True
  end ->
  exists cl' : Client,
    consecutive_closes n (Z.of_nat k) cl
    = (Ok tt, cl',
       match cap with
       | Some c =>
           repeat OpenSocket (Nat.min n (Z.to_nat c - k))
           ++ (if (Z.to_nat c - k <? n)%nat
               then [Emit (lit "abort") [VNumber c]] else [])
       | None => repeat OpenSocket n
       end) /\
    reconnectTimeouts cl' = [].
Proof.
  induction n as [|n IH]; intros k cl Hlive Hk.
  - exists cl. split; [|apply Hlive].
    destruct cap as [c|]; [|reflexivity].
    cbn [consecutive_closes Nat.min repeat app].
    destruct (Nat.ltb_spec (Z.to_nat c - k) 0); [lia | reflexivity].
  - rewrite consecutive_closes_step. unfold mbind at 1.
    assert (Hcases : match cap with
                     | Some c => (Z.of_nat k < c)%Z \/ (c <= Z.of_nat k)%Z
                     | None => True
                     end) by (destruct cap; [lia | exact I]).
    destruct cap as [c|].
    + destruct Hcases as [Hlt|Hge].
      * destruct (close_then_reconnect (Some c) (Z.of_nat k) cl Hlive Hlt)
          as (cl1 & Hrun & Hlive1).
        rewrite Hrun.
        replace (Z.of_nat k + 1)%Z with (Z.of_nat (S k)) by lia.
        destruct (IH (S k) cl1 Hlive1) as (cl' & Hrest & Hnone); [lia|].
        exists cl'. split; [|assumption]. rewrite Hrest.
        replace (Z.to_nat c - k)%nat with (S (Z.to_nat c - S k)) by lia.
        cbn [Nat.min repeat app Nat.ltb Nat.leb]. reflexivity.
      * rewrite (close_at_cap c (Z.of_nat k) cl Hlive Hge).
        exists cl. split; [|apply Hlive].
        replace (Z.to_nat c - k)%nat with 0%nat by lia. reflexivity.
    + destruct (close_then_reconnect None (Z.of_nat k) cl Hlive I)
        as (cl1 & Hrun & Hlive1).
      rewrite Hrun.
      replace (Z.of_nat k + 1)%Z with (Z.of_nat (S k)) by lia.
      destruct (IH (S k) cl1 Hlive1 I) as (cl' & Hrest & Hnone).
      exists cl'. split; [|assumption]. rewrite Hrest. reflexivity.
Qed.

(** X15. For any cap and any number of consecutive unrequested closes, each
    followed by its reconnect: with a cap of [c] the client reconnects
    after each of the first [c] closes and answers the next one with
    exactly one [abort] carrying the cap, after which nothing is pending
    and nothing more happens; with no cap it reconnects after every
    close. A cap below zero counts as zero. *)
Theorem reconnects_until_cap (cl : Client) (closes : nat) :
  reconnectTimeouts cl = [] ->
  exists cl' : Client,
    (k <~ connect None ;; consecutive_closes closes k) cl
    = (Ok tt, cl',
       repeat OpenSocket (S (reconnects (retryCount (opt cl)) closes))
       ++ gives_up (retryCount (opt cl)) closes) /\
    reconnectTimeouts cl' = [].
Proof.
  intros Hnone.
  destruct (connect_live (retryCount (opt cl)) None cl eq_refl Hnone)
    as (cl0 & Hconnect & Hlive).
  unfold mbind. rewrite Hconnect.
  destruct (closes_from (retryCount (opt cl)) closes 0 cl0 Hlive)
    as (cl' & Hrun & Hpending).
  { destruct (retryCount (opt cl)); [lia | exact I]. }
  exists cl'. split; [|assumption].
  change (Z.of_nat 0) with 0%Z in Hrun. rewrite Hrun.
  unfold reconnects, gives_up.
  destruct (retryCount (opt cl)) as [c|].
  - now rewrite Nat.sub_0_r.
  - cbn [repeat app]. now rewrite app_nil_r.
Qed.

Lemma reconnects_until_cap_witness :
  exists cl' : Client,
    (k <~ connect None ;; consecutive_closes 7 k) fresh_client
    = (Ok tt, cl',
       repeat OpenSocket (S (reconnects (retryCount (opt fresh_client)) 7))
       ++ gives_up (retryCount (opt fresh_client)) 7) /\
    reconnectTimeouts cl' = [].
Proof.
  apply (reconnects_until_cap fresh_client 7). reflexivity.
Defined.



Section AfterEnd.

Variable replyFor : str -> option reply_entry.
Variable stripColorsAndStyle : str -> str.
Variable raw_listeners : IMessage -> Client -> result unit * Client.

(** X17. [end()] forgets the connection object. What is called on the client
    afterwards and reads it throws a TypeError: [send], and the [data]
    listener of the socket that was dropped. The [close] of that socket
    finds no request to disconnect, so below the cap it schedules a
    reconnect: this is how a ping timeout leads to a new connection. *)
Theorem end_forgets_the_connection (cl : Client) :
  let cl' := set_conn None cl in
  end_ cl = (Ok tt, cl', []) /\
  (forall arguments : list str, send arguments cl' = (Throw TypeError, cl', [])) /\
  (forall buffer chunk : str,
     handleData replyFor stripColorsAndStyle raw_listeners chunk (buffer, cl')
     = (Throw TypeError, (buffer, cl'), [])) /\
  (forall k : Z,
     match retryCount (opt cl) with
     | Some cap => (k <? cap)%Z
     | None => true
     end = true ->
     close_listener k cl'
     = (Ok tt,
        set_reconnectTimeouts (reconnectTimeouts cl ++ [(k + 1)%Z]) cl', [])).
Proof.
  intros cl'. split; [|split; [|split]].
  - unfold end_, mbind, get, modify, ret. cbn [fst snd app].
    destruct cl as [o n hm ml ch pfm mfp md cn rt]. now destruct cn.
  - intros arguments. unfold send, mbind, defined, get, ret, throw.
    destruct (nth_error arguments (length arguments - 1)); reflexivity.
  - intros buffer chunk. reflexivity.
  - intros k Hbelow. destruct cl as [o n hm ml ch pfm mfp md cn rt].
    unfold close_listener, mbind, get, modify. cbn in *.
    destruct (retryCount o) as [cap|]; [|reflexivity].
    apply Z.ltb_lt in Hbelow.
    destruct (Z.geb_spec k cap); [lia | reflexivity].
Qed.

End AfterEnd.

Lemma end_forgets_the_connection_witness :
  close_listener 0 (set_conn None connected_client)
  = (Ok tt,
     set_reconnectTimeouts (reconnectTimeouts connected_client ++ [(0 + 1)%Z])
       (set_conn None connected_client), []).
Proof.
  destruct (end_forgets_the_connection sample_replies (fun s => s) no_listeners
              connected_client) as (_ & _ & _ & H).
  apply H. reflexivity.
Defined.

End SessionProofs.

(** ** The channel map, beyond the claims *)

Module IrcMore.

Import ParseMessage Irc IrcProofs.

(** *** More on objects used as maps *)

Section DictMore.

Variable V : Type.
Implicit Types (k : str) (v : V) (d : dict V).

Lemma dict_get_delete_other k k' d :
  k' <> k -> dict_get k' (dict_delete k d) = dict_get k' d.
Proof.
  intros Hne. induction d as [|[k0 v0] d IH]; [reflexivity|].
  cbn [dict_delete dict_get].
  destruct (str_eqb k k0) eqn:E.
  - apply str_eqb_eq in E. subst k0.
    now rewrite (str_eqb_neq k' k Hne).
  - cbn [dict_get]. now rewrite IH.
Qed.

Lemma dict_get_delete_same k d :
  NoDup (dict_keys d) -> dict_get k (dict_delete k d) = None.
Proof.
  induction d as [|[k0 v0] d IH]; intros Hnd; [reflexivity|].
  cbn in Hnd. inversion Hnd as [|? ? Hnotin Hnd']; subst.
  cbn [dict_delete]. destruct (str_eqb k k0) eqn:E.
  - apply str_eqb_eq in E. subst k0.
    destruct (dict_get k d) as [v|] eqn:G; [|reflexivity].
    exfalso. apply Hnotin. clear - G.
    induction d as [|[k1 v1] d IH]; [discriminate|].
    cbn in *. destruct (str_eqb k k1) eqn:E1.
    + left. symmetry. now apply str_eqb_eq.
    + right. now apply IH.
  - cbn [dict_get]. rewrite E. now apply IH.
Qed.

Lemma dict_keys_set_NoDup k v d :
  NoDup (dict_keys d) -> NoDup (dict_keys (dict_set k v d)).
Proof.
  intros Hnd. destruct (dict_get k d) as [v0|] eqn:G.
  - now rewrite (dict_keys_set_present V k v v0 d G).
  - rewrite (dict_keys_set_absent V k v d G).
    apply NoDup_app; [assumption | repeat constructor; intros [] |].
    intros x Hin [<-|[]]. now apply (dict_get_absent V k d G).
Qed.

Lemma dict_set_Forall (P : str * V -> Prop) k v d :
  Forall P d -> P (k, v) -> Forall P (dict_set k v d).
Proof.
  intros Hd Hkv. induction Hd as [|[k0 v0] d H0 Hd IH]; cbn [dict_set].
  - now repeat constructor.
  - destruct (str_eqb k k0) eqn:E.
    + apply str_eqb_eq in E. subst k0. now constructor.
    + now constructor.
Qed.

Lemma dict_delete_Forall (P : str * V -> Prop) k d :
  Forall P d -> Forall P (dict_delete k d).
Proof.
  intros Hd. induction Hd as [|[k0 v0] d H0 Hd IH]; cbn [dict_delete].
  - constructor.
  - destruct (str_eqb k k0); [assumption | now constructor].
Qed.

Lemma dict_get_In k v d : dict_get k d = Some v -> In (k, v) d.
Proof.
  induction d as [|[k0 v0] d IH]; [discriminate|].
  cbn [dict_get]. destruct (str_eqb k k0) eqn:E.
  - apply str_eqb_eq in E. subst k0. intros H. inversion H; subst. now left.
  - intros H. right. now apply IH.
Qed.

Lemma dict_delete_set_absent k v d :
  dict_get k d = None -> dict_delete k (dict_set k v d) = d.
Proof.
  induction d as [|[k0 v0] d IH]; cbn [dict_get dict_set dict_delete].
  - intros _. now rewrite str_eqb_refl.
  - destruct (str_eqb k k0) eqn:E; [discriminate|].
    intros H. cbn [dict_delete]. rewrite E. now rewrite IH.
Qed.

Lemma dict_set_same_value k v d :
  dict_get k d = Some v -> dict_set k v d = d.
Proof.
  induction d as [|[k0 v0] d IH]; [discriminate|].
  cbn [dict_get dict_set]. destruct (str_eqb k k0) eqn:E.
  - intros H. now inversion H.
  - intros H. now rewrite IH.
Qed.

Lemma dict_set_twice k v v' d :
  dict_set k v (dict_set k v' d) = dict_set k v d.
Proof.
  induction d as [|[k0 v0] d IH]; cbn [dict_set].
  - now rewrite str_eqb_refl.
  - destruct (str_eqb k k0) eqn:E; cbn [dict_set]; rewrite E; [reflexivity|].
    now rewrite IH.
Qed.

End DictMore.

(** *** Which messages change the set of channels *)

Definition same_keys (cl cl' : Client) : Prop :=
  dict_keys (chans cl') = dict_keys (chans cl).

Lemma same_keys_refl (cl : Client) : same_keys cl cl.
Proof. reflexivity. Qed.

Lemma same_keys_trans (x y z : Client) :
  same_keys x y -> same_keys y z -> same_keys x z.
Proof. unfold same_keys. congruence. Qed.

Lemma same_keys_update_channel (r : str) (f : Channel -> Channel) :
  respects same_keys (update_channel r f).
Proof.
  apply respects_modify. intros cl. unfold same_keys.
  destruct (dict_get r (chans cl)) as [ch|] eqn:E; [|reflexivity].
  cbn. eapply dict_keys_set_present; eassumption.
Qed.

Lemma same_keys_each_channel_users (f : dict (option str) -> dict (option str)) :
  respects same_keys (each_channel_users f).
Proof.
  apply respects_modify. intros cl. unfold same_keys. cbn.
  unfold dict_keys. rewrite map_map. reflexivity.
Qed.

Lemma same_keys_set_nick (n : option str) :
  respects same_keys (modify (set_nick n)).
Proof. apply respects_modify. intros cl. reflexivity. Qed.

Lemma same_keys_set_maxLineLength (z : Z) :
  respects same_keys (modify (set_maxLineLength z)).
Proof. apply respects_modify. intros cl. reflexivity. Qed.

Lemma same_keys_chanData_lookup (name : option str) :
  respects same_keys (chanData name false).
Proof.
  intros cl cl' r tr H. destruct name as [name|].
  - rewrite chanData_lookup in H. inversion H; subst. reflexivity.
  - inversion H; subst. reflexivity.
Qed.

#[local] Hint Resolve same_keys_update_channel same_keys_each_channel_users
  same_keys_set_nick same_keys_set_maxLineLength same_keys_chanData_lookup : irc.

Ltac keys := respect_with same_keys_refl same_keys_trans.

Lemma same_keys_updateMaxLineLength : respects same_keys _updateMaxLineLength.
Proof. unfold _updateMaxLineLength. keys. Qed.

Lemma same_keys_send (l : list str) : respects same_keys (send l).
Proof. unfold send. keys. Qed.

Lemma same_keys_deref (r : str) : respects same_keys (deref r).
Proof. unfold deref. keys. Qed.

#[local] Hint Resolve same_keys_updateMaxLineLength same_keys_send
  same_keys_deref : irc.

Lemma same_keys_chanModes (channel : str) (adding : bool) (m : ascii)
  (p : mode_param) :
  respects same_keys (chanModes channel adding m p).
Proof. unfold chanModes. keys. Qed.

#[local] Hint Resolve same_keys_chanModes : irc.

Lemma same_keys_mode_letter (message : IMessage) (channel : str) (adding : bool)
  (modeArgs : list str) (m : ascii) :
  respects same_keys (mode_letter message channel adding modeArgs m).
Proof. unfold mode_letter. keys. Qed.

#[local] Hint Resolve same_keys_mode_letter : irc.

Lemma same_keys_mode_loop (message : IMessage) (channel : str)
  (modeList : list ascii) : forall (adding : bool) (modeArgs : list str),
  respects same_keys (mode_loop message channel modeList adding modeArgs).
Proof.
  induction modeList as [|m rest IH]; intros adding modeArgs; cbn [mode_loop].
  - keys.
  - keys; apply IH.
Qed.

#[local] Hint Resolve same_keys_mode_loop : irc.

(** A step that leaves the state alone, then the rest. *)
Lemma bind_untouched {A B : Type} (m : M Client A) (k : A -> M Client B)
  (cl cl' : Client) (r : result B) (tr : list action) :
  respects untouched m ->
  mbind m k cl = (r, cl', tr) ->
  cl' = cl \/ exists (x : A) (r' : result B) (tr' : list action),
                k x cl = (r', cl', tr').
Proof.
  intros Hm H. unfold mbind in H.
  destruct (m cl) as [[[x|e] s1] t1] eqn:Em;
    pose proof (Hm _ _ _ _ Em) as Hs; unfold untouched in Hs; subst s1.
  - right. destruct (k x cl) as [[r2 s2] t2] eqn:Ek. inversion H; subst. eauto.
  - left. now inversion H.
Qed.

Lemma untouched_emit (name : str) (l : list jsval) :
  respects untouched (emit name l).
Proof. still. Qed.

Lemma untouched_emit_for_channel (event : str) (channel : option str)
  (l : list jsval) :
  respects untouched (emit_for_channel event channel l).
Proof. unfold emit_for_channel. still. Qed.

Lemma leave_channel_other_keys (message : IMessage) (who : option str)
  (cl cl' : Client) (r : result unit) (tr : list action) :
  ostr_eqb (nick cl) who = false ->
  leave_channel message who cl = (r, cl', tr) ->
  same_keys cl cl'.
Proof.
  intros Hother H. unfold leave_channel, mbind at 1, get in H.
  cbv beta iota in H. rewrite Hother in H.
  match type of H with
  | (let (p, t2) := ?m cl in _) = _ =>
      assert (Hm : respects same_keys m) by keys;
      destruct (m cl) as [[r2 s2] t2] eqn:E
  end.
  inversion H; subst. exact (Hm _ _ _ _ E).
Qed.

(** The messages that make the client itself enter or leave a channel:
    a JOIN or PART of its own nick, and a KICK aimed at it. *)
Definition own_membership_change (cl : Client) (message : IMessage) : bool :=
  (str_eqb (command message) (lit "JOIN")
   && ostr_eqb (nick cl) (ParseMessage.nick message))
  || (str_eqb (command message) (lit "PART")
      && ostr_eqb (nick cl) (ParseMessage.nick message))
  || (str_eqb (command message) (lit "KICK")
      && ostr_eqb (nick cl) (arg 1 message)).

(** X18. The cases of the [raw] listener that read or write [this.chans] add
    a channel to it or remove one only for a JOIN or PART of the client's
    own nick or a KICK aimed at it. Whatever else arrives, and whether the
    listener returns or throws, the properties of [this.chans] stay the
    same, in the same order. *)
Theorem chans_keys_change_only_on_own_membership
  (message : IMessage) (h : M Client unit) (cl cl' : Client)
  (r : result unit) (tr : list action) :
  raw_listener message = Some h ->
  h cl = (r, cl', tr) ->
  own_membership_change cl message = false ->
  dict_keys (chans cl') = dict_keys (chans cl).
Proof.
  unfold raw_listener, channel_cases, own_membership_change.
  cbn [dict_get].
  repeat match goal with
         | |- context [if str_eqb (command message) ?c then _ else _] =>
             destruct (str_eqb (command message) c) eqn:?
         end;
    cbn [option_map andb orb]; intros Hh Hrun Hown;
    inversion Hh; subst h; clear Hh;
    try (match type of Hrun with
         | ?f message cl = _ => unfold f in Hrun
         end;
         match type of Hrun with
         | ?m cl = _ =>
             assert (Hm : respects same_keys m) by keys;
             exact (Hm _ _ _ _ Hrun)
         end).
  - (* JOIN *)
    apply orb_false_iff in Hown as [Hown _].
    apply orb_false_iff in Hown as [Hown _].
    unfold case_JOIN, mbind at 1, get in Hrun. cbv beta iota in Hrun.
    rewrite Hown in Hrun.
    match type of Hrun with
    | (let (p, t2) := ?m cl in _) = _ =>
        assert (Hm : respects same_keys m) by keys;
        destruct (m cl) as [[r2 s2] t2] eqn:E
    end.
    inversion Hrun; subst. exact (Hm _ _ _ _ E).
  - (* PART *)
    apply orb_false_iff in Hown as [Hown _]. unfold case_PART in Hrun.
    apply bind_untouched in Hrun; [|apply untouched_emit].
    destruct Hrun as [->|(_ & r1 & tr1 & Hrun)]; [reflexivity|].
    apply bind_untouched in Hrun; [|apply untouched_emit_for_channel].
    destruct Hrun as [->|(_ & r2 & tr2 & Hrun)]; [reflexivity|].
    eapply leave_channel_other_keys; eassumption.
  - (* KICK *)
    unfold case_KICK in Hrun.
    apply bind_untouched in Hrun; [|apply untouched_emit].
    destruct Hrun as [->|(_ & r1 & tr1 & Hrun)]; [reflexivity|].
    apply bind_untouched in Hrun; [|apply untouched_kick_listener].
    destruct Hrun as [->|(_ & r2 & tr2 & Hrun)]; [reflexivity|].
    apply bind_untouched in Hrun; [|apply untouched_emit_for_channel].
    destruct Hrun as [->|(_ & r3 & tr3 & Hrun)]; [reflexivity|].
    eapply leave_channel_other_keys; eassumption.
Qed.

Lemma chans_keys_change_only_on_own_membership_witness :
  dict_keys (chans (dispatch in_two_channels
                      (message_from (lit "alice") (lit "PART") [lit "#a"])))
  = dict_keys (chans in_two_channels).
Proof.
  exact (chans_keys_change_only_on_own_membership
           (message_from (lit "alice") (lit "PART") [lit "#a"])
           (case_PART (message_from (lit "alice") (lit "PART") [lit "#a"]))
           in_two_channels _ _ _ eq_refl eq_refl eq_refl).
Defined.

(** *** Every channel object sits under its own key *)

(** A channel object stored under [k]: its [key] is [k], its server name
    lower-cased is [k], and (a fact about the representation) its user
    map lists no name twice. *)
Definition sound_channel (k : str) (ch : Channel) : Prop :=
  key ch = k /\
  toLowerCase (serverName ch) = k /\
  NoDup (dict_keys (users ch)).

Definition sound (cl : Client) : Prop :=
  Forall (fun kv => sound_channel (fst kv) (snd kv)) (chans cl).

Definition keeps_sound (cl cl' : Client) : Prop := sound cl -> sound cl'.

Lemma keeps_sound_refl (cl : Client) : keeps_sound cl cl.
Proof. unfold keeps_sound. auto. Qed.

Lemma keeps_sound_trans (x y z : Client) :
  keeps_sound x y -> keeps_sound y z -> keeps_sound x z.
Proof. unfold keeps_sound. auto. Qed.

Lemma keeps_sound_same_chans (cl cl' : Client) :
  chans cl' = chans cl -> keeps_sound cl cl'.
Proof. unfold keeps_sound, sound. now intros ->. Qed.

Lemma sound_lookup (cl : Client) (k : str) (ch : Channel) :
  sound cl -> dict_get k (chans cl) = Some ch -> sound_channel k ch.
Proof.
  intros Hs Hget. unfold sound in Hs. rewrite Forall_forall in Hs.
  exact (Hs (k, ch) (dict_get_In _ k ch (chans cl) Hget)).
Qed.

Lemma keeps_sound_update_channel (r : str) (f : Channel -> Channel) :
  (forall k ch, sound_channel k ch -> sound_channel k (f ch)) ->
  respects keeps_sound (update_channel r f).
Proof.
  intros Hf. apply respects_modify. intros cl Hs.
  destruct (dict_get r (chans cl)) as [ch|] eqn:E; [|assumption].
  unfold sound. cbn [chans set_chans].
  apply dict_set_Forall; [assumption|]. cbn [fst snd].
  apply Hf. now apply (sound_lookup cl).
Qed.

Lemma keeps_sound_each_channel_users (f : dict (option str) -> dict (option str)) :
  (forall u, NoDup (dict_keys u) -> NoDup (dict_keys (f u))) ->
  respects keeps_sound (each_channel_users f).
Proof.
  intros Hf. apply respects_modify. intros cl Hs.
  unfold sound in *. cbn [chans set_chans]. rewrite Forall_map.
  eapply Forall_impl; [|exact Hs].
  intros [k ch] (H1 & H2 & H3). cbn [fst snd] in *.
  unfold sound_channel. cbn [fst snd key serverName users set_users].
  repeat split; auto.
Qed.

Ltac sound_step :=
  intros ? ? (? & ? & ?); repeat split;
  cbn [key serverName users set_users set_mode set_modeParams set_topic
       set_topicBy set_created];
  auto using dict_keys_set_NoDup, dict_keys_delete_NoDup.

#[local] Hint Extern 1 (respects keeps_sound (update_channel _ _)) =>
  apply keeps_sound_update_channel; sound_step : irc.

#[local] Hint Extern 1 (respects keeps_sound (each_channel_users _)) =>
  apply keeps_sound_each_channel_users; intros ? ?;
  auto using dict_keys_set_NoDup, dict_keys_delete_NoDup : irc.

#[local] Hint Extern 1 (respects keeps_sound (modify (set_nick _))) =>
  apply respects_modify; intros ?; apply keeps_sound_same_chans;
  reflexivity : irc.

#[local] Hint Extern 1 (respects keeps_sound (modify (set_maxLineLength _))) =>
  apply respects_modify; intros ?; apply keeps_sound_same_chans;
  reflexivity : irc.

Ltac sounds := respect_with keeps_sound_refl keeps_sound_trans.

Lemma keeps_sound_updateMaxLineLength : respects keeps_sound _updateMaxLineLength.
Proof. unfold _updateMaxLineLength. sounds. Qed.

Lemma keeps_sound_send (l : list str) : respects keeps_sound (send l).
Proof. unfold send. sounds. Qed.

Lemma keeps_sound_deref (r : str) : respects keeps_sound (deref r).
Proof. unfold deref. sounds. Qed.

Lemma keeps_sound_chanData (name : option str) (create : bool) :
  respects keeps_sound (chanData name create).
Proof.
  unfold chanData. sounds.
  apply respects_modify. intros cl Hs.
  destruct (dict_get (toLowerCase x) (chans cl)) eqn:E; [assumption|].
  unfold sound. cbn [chans set_chans].
  apply dict_set_Forall; [assumption|].
  repeat split. constructor.
Qed.

#[local] Hint Resolve keeps_sound_updateMaxLineLength keeps_sound_send
  keeps_sound_deref keeps_sound_chanData : irc.

Lemma keeps_sound_kick_listener (channel : option str) :
  respects keeps_sound (kick_listener channel).
Proof. unfold kick_listener. sounds. Qed.

Lemma keeps_sound_emit_for_channel (event : str) (channel : option str)
  (l : list jsval) :
  respects keeps_sound (emit_for_channel event channel l).
Proof. unfold emit_for_channel. sounds. Qed.

Lemma keeps_sound_leave_channel (message : IMessage) (who : option str) :
  respects keeps_sound (leave_channel message who).
Proof.
  unfold leave_channel. sounds.
  apply respects_modify. intros cl Hs. unfold sound. cbn [chans set_chans].
  now apply dict_delete_Forall.
Qed.

Lemma keeps_sound_chanModes (channel : str) (adding : bool) (m : ascii)
  (p : mode_param) :
  respects keeps_sound (chanModes channel adding m p).
Proof. unfold chanModes. sounds. Qed.

#[local] Hint Resolve keeps_sound_kick_listener keeps_sound_emit_for_channel
  keeps_sound_leave_channel keeps_sound_chanModes : irc.

Lemma keeps_sound_mode_letter (message : IMessage) (channel : str)
  (adding : bool) (modeArgs : list str) (m : ascii) :
  respects keeps_sound (mode_letter message channel adding modeArgs m).
Proof. unfold mode_letter. sounds. Qed.

#[local] Hint Resolve keeps_sound_mode_letter : irc.

Lemma keeps_sound_mode_loop (message : IMessage) (channel : str)
  (modeList : list ascii) : forall (adding : bool) (modeArgs : list str),
  respects keeps_sound (mode_loop message channel modeList adding modeArgs).
Proof.
  induction modeList as [|m rest IH]; intros adding modeArgs; cbn [mode_loop].
  - sounds.
  - sounds; apply IH.
Qed.

#[local] Hint Resolve keeps_sound_mode_loop : irc.

Lemma keeps_sound_raw_listener (message : IMessage) (h : M Client unit) :
  raw_listener message = Some h -> respects keeps_sound h.
Proof.
  unfold raw_listener, channel_cases. cbn [dict_get].
  repeat match goal with
         | |- context [if ?b then _ else _] => destruct b
         end;
    cbn [option_map]; intros H; inversion H; subst; clear H;
    match goal with
    | |- respects _ (?f _) => unfold f
    end; sounds.
Qed.

Lemma reachable_sound (cl : Client) : reachable cl -> sound cl.
Proof.
  induction 1 as [o n|cl cl' _ IH Hstep].
  - constructor.
  - destruct Hstep as [message h cl cl' r tr Hh Hrun
                      |rc cl cl' r tr Hrun
                      |cl cl' Hsame].
    + exact (keeps_sound_raw_listener message h Hh cl cl' r tr Hrun IH).
    + unfold sound. rewrite (connect_empties _ _ _ _ _ Hrun). constructor.
    + now apply (keeps_sound_same_chans cl cl').
Qed.



(** *** Leaving a channel the client is in *)

Lemma send_returns (cl : Client) (cn : Conn) (x : str) (l : list str) :
  conn cl = Some cn ->
  exists tr : list action, send (x :: l) cl = (Ok tt, cl, tr).
Proof.
  intros Hconn. unfold send, mbind, defined, get, ret, tell.
  destruct (nth_error (x :: l) (length (x :: l) - 1)) as [final|] eqn:E.
  - cbn [fst snd app]. rewrite Hconn. cbn [fst snd app].
    destruct (requestedDisconnect cn); eexists; reflexivity.
  - apply nth_error_None in E. cbn [length] in E. lia.
Qed.

Lemma kick_listener_returns (cl : Client) (cn : Conn) (name : str) :
  conn cl = Some cn ->
  exists tr : list action, kick_listener (Some name) cl = (Ok tt, cl, tr).
Proof.
  intros Hconn. unfold kick_listener, mbind at 1, get. cbv beta iota.
  destruct (autoRejoin (opt cl)).
  - unfold mbind at 1, defined, ret. cbv beta iota.
    destruct (send_returns cl cn (lit "JOIN") (split_on_space name) Hconn)
      as [tr Hsend].
    rewrite Hsend. eexists. reflexivity.
  - eexists. reflexivity.
Qed.

Lemma leave_channel_self_known (message : IMessage) (who : option str)
  (name : str) (ch : Channel) (cl : Client) :
  sound cl ->
  arg 0 message = Some name ->
  dict_get (toLowerCase name) (chans cl) = Some ch ->
  ostr_eqb (nick cl) who = true ->
  leave_channel message who cl
  = (Ok tt, set_chans (dict_delete (toLowerCase name) (chans cl)) cl, []).
Proof.
  intros Hs Harg Hch Hself.
  destruct (sound_lookup cl _ ch Hs Hch) as (Hkey & _ & _).
  unfold leave_channel, mbind at 1, get.
  cbv beta iota. rewrite Hself, Harg. unfold mbind at 1.
  rewrite chanData_lookup. unfold dict_has. rewrite Hch.
  unfold deref, mbind, defined, get, ret, modify. cbn [fst snd app].
  rewrite Hch. cbn [fst snd app]. now rewrite Hkey.
Qed.


(** The client of the examples, connected and in [#Foo]. *)
Definition in_Foo : Client :=
  dispatch connected_client (message_from (lit "bot") (lit "JOIN") [lit "#Foo"]).

Lemma in_Foo_reachable : reachable in_Foo.
Proof.
  apply reachable_dispatch.
  eapply reachable_step; [apply reachable_initial|].
  apply (@step_connect None fresh_client connected_client (Ok 0%Z) [OpenSocket]).
  reflexivity.
Qed.


(** *** QUIT and NICK walk over every channel *)

Lemma dict_get_map_values (A B : Type) (g : A -> B) (k : str) (d : dict A) :
  dict_get k (map (fun kv => (fst kv, g (snd kv))) d)
  = option_map g (dict_get k d).
Proof.
  induction d as [|[k0 v0] d IH]; [reflexivity|].
  cbn [map dict_get fst snd]. destruct (str_eqb k k0); [reflexivity | apply IH].
Qed.





(** *** Somebody else joins and leaves *)



(** *** Granting and revoking a user prefix *)

Lemma remove_first_appended (c : ascii) (v : str) :
  includes [c] v = false -> remove_first [c] (v ++ [c]) = v.
Proof.
  induction v as [|x v IH]; intros H.
  - cbn. now rewrite Ascii.eqb_refl.
  - cbn [includes starts_with] in H. rewrite andb_true_r in H.
    apply orb_false_iff in H as [Hx Hv].
    cbn [app remove_first starts_with]. rewrite andb_true_r, Hx.
    now rewrite IH.
Qed.

Lemma includes_appended (c : ascii) (v : str) : includes [c] (v ++ [c]) = true.
Proof.
  induction v as [|x v IH].
  - cbn. now rewrite Ascii.eqb_refl.
  - cbn [app includes]. rewrite IH. apply orb_true_r.
Qed.

(** One letter of a MODE message that stands for a user prefix, for a
    user the channel lists. *)
Lemma mode_letter_prefix_known
  (message : IMessage) (k : str) (adding : bool) (who : str) (m c : ascii)
  (v : str) (ch : Channel) (cl : Client) :
  dict_get [m] (prefixForMode cl) = Some (Some [c]) ->
  dict_get k (chans cl) = Some ch ->
  dict_get who (users ch) = Some (Some v) ->
  mode_letter message k adding [who] m cl
  = (Ok [],
     (if adding && includes [c] v then cl
      else set_chans
             (dict_set k
                (set_users
                   (dict_set who
                      (Some (if adding then v ++ [c] else remove_first [c] v))
                      (users ch)) ch) (chans cl)) cl),
     [Emit ((if adding then "+" else "-") :: lit "mode")
        [of_ostr (arg 0 message); of_ostr (ParseMessage.nick message);
         VString [m]; VString who; VMessage message]]).
Proof.
  intros Hpfx Hch Hwho.
  unfold mode_letter, mbind at 1, get. cbv beta iota.
  unfold dict_has, user_value. rewrite Hpfx. cbn [hd_error to_text tl].
  unfold deref, mbind, get, defined, ret. cbn [fst snd app].
  rewrite Hch. cbn [fst snd app]. rewrite Hwho. cbn [fst snd app].
  destruct adding; cbn [andb].
  - unfold when. destruct (includes [c] v); cbn [negb];
      unfold update_channel, modify, emit, tell, ret; cbn [fst snd app];
      rewrite ?Hch; reflexivity.
  - unfold update_channel, modify, emit, tell, ret. cbn [fst snd app].
    rewrite Hch. reflexivity.
Qed.

Lemma case_MODE_one_prefix
  (message : IMessage) (name who : str) (sign m c : ascii) (adding : bool)
  (v : str) (ch : Channel) (cl : Client) :
  args message = [name; [sign; m]; who] ->
  sign = (if adding then "+" else "-")%char ->
  Ascii.eqb m "+" = false ->
  Ascii.eqb m "-" = false ->
  dict_get [m] (prefixForMode cl) = Some (Some [c]) ->
  dict_get (toLowerCase name) (chans cl) = Some ch ->
  dict_get who (users ch) = Some (Some v) ->
  case_MODE message cl
  = (Ok tt,
     (if adding && includes [c] v then cl
      else set_chans
             (dict_set (toLowerCase name)
                (set_users
                   (dict_set who
                      (Some (if adding then v ++ [c] else remove_first [c] v))
                      (users ch)) ch) (chans cl)) cl),
     [Emit (sign :: lit "mode")
        [VString name; of_ostr (ParseMessage.nick message);
         VString [m]; VString who; VMessage message]]).
Proof.
  intros Hargs Hsign Hplus Hminus Hpfx Hch Hwho.
  pose proof (mode_letter_prefix_known message (toLowerCase name) adding who m c
                v ch cl Hpfx Hch Hwho) as Hletter.
  unfold arg in Hletter. rewrite Hargs in Hletter. cbn [nth_error] in Hletter.
  unfold case_MODE, arg. rewrite Hargs. cbn [nth_error skipn].
  unfold mbind at 1. rewrite chanData_lookup. unfold dict_has. rewrite Hch.
  cbv beta iota. unfold mbind at 1, defined, ret. cbv beta iota.
  assert (Hloop : mode_loop message (toLowerCase name) [sign; m] true [who]
                  = (modeArgs' <~ mode_letter message (toLowerCase name) adding
                                    [who] m ;;
                     ret tt)).
  { cbn [mode_loop]. rewrite Hsign, Hplus, Hminus.
    destruct adding; reflexivity. }
  rewrite Hloop. unfold mbind. rewrite Hletter. unfold ret. cbn [app of_ostr].
  rewrite Hsign. destruct adding; reflexivity.
Qed.


(** The client of the examples in [#Foo] with alice, on a server whose
    prefix for mode [o] is [@]. *)
Definition with_alice : Client :=
  let cl := dispatch in_Foo (message_from (lit "alice") (lit "JOIN") [lit "#foo"]) in
  mkClient (opt cl) (nick cl) (hostMask cl) (maxLineLength cl) (chans cl)
    [(lit "o", Some (lit "@"))] [(lit "@", Some (lit "o"))] (modes cl) (conn cl)
    (reconnectTimeouts cl).


End IrcMore.

(** ** Speaking *)

Module SpeakingProofs.

Import ParseMessage Splitter SplitterProofs Irc Wire Speaking.

Lemma mbind_ok {S A B : Type} (m : M S A) (k : A -> M S B) (s s1 s2 : S)
  (x : A) (r : result B) (t1 t2 : list action) :
  m s = (Ok x, s1, t1) ->
  k x s1 = (r, s2, t2) ->
  mbind m k s = (r, s2, t1 ++ t2).
Proof. unfold mbind. intros -> ->. reflexivity. Qed.

Lemma mbind_get {S B : Type} (k : S -> M S B) (s : S) :
  mbind get k s = k s s.
Proof. unfold mbind, get. destruct (k s s) as [[r s2] t2]. reflexivity. Qed.

Lemma is_dot_not_LF (x : ascii) : is_dot x = true -> (code x =? 10)%nat = false.
Proof.
  destruct x as [[] [] [] [] [] [] [] []]; cbn; intros H;
    solve [reflexivity | discriminate H].
Qed.

Lemma split_newlines_one_line (s : str) : forall cur : str,
  forallb is_dot s = true ->
  split_newlines_from cur s = [cur ++ s].
Proof.
  induction s as [|c r IH]; intros cur H.
  - cbn. now rewrite app_nil_r.
  - cbn [forallb] in H. apply andb_true_iff in H as [Hc Hr].
    cbn [split_newlines_from]. rewrite (is_dot_not_LF c Hc).
    assert (Hgo : split_newlines_from (cur ++ [c]) r = [cur ++ c :: r]).
    { rewrite IH by assumption. now rewrite <- app_assoc. }
    destruct (code c =? 13)%nat; [|exact Hgo].
    destruct r as [|c' r']; [exact Hgo|].
    cbn [forallb] in Hr. apply andb_true_iff in Hr as [Hc' _].
    rewrite (is_dot_not_LF c' Hc'). exact Hgo.
Qed.

Lemma send_three (cl : Client) (cn : Conn) (kind target toSend : str) :
  conn cl = Some cn ->
  requestedDisconnect cn = false ->
  send [kind; target; toSend] cl
  = (Ok tt, cl,
     [Write (kind ++ " " :: target ++ " "
             :: (if existsb is_ws toSend || starts_with [":"] toSend
                    || negb (nonempty toSend)
                 then ":" :: toSend else toSend) ++ [CR; LF])]).
Proof.
  intros Hconn Hreq. unfold send, mbind, defined, get, ret, tell.
  cbn [length Nat.sub nth_error fst snd app]. rewrite Hconn.
  cbn [fst snd app]. rewrite Hreq.
  destruct (existsb is_ws toSend || starts_with [":"] toSend
            || negb (nonempty toSend));
    cbn [removelast app join_with_space];
    repeat (rewrite <- app_assoc; cbn [app]); reflexivity.
Qed.

Section Speak.

Variable messageSplit : Z.

(** The lines [say] writes for the chunks of one line of text. *)
Lemma say_chunks (cl : Client) (cn : Conn) (n target : str) (limit : Z)
  (chunks : list str) :
  conn cl = Some cn ->
  requestedDisconnect cn = false ->
  (limit <= 497 - Z.of_nat (length n) - Z.of_nat (length (hostMask cl))
            - Z.of_nat (length target))%Z ->
  Forall (fun ch => (Z.of_nat (length ch) <= limit)%Z) chunks ->
  exists tr : list action,
    forEach chunks (fun toSend =>
      send [lit "PRIVMSG"; target; toSend] ;;;
      when (str_eqb (lit "PRIVMSG") (lit "PRIVMSG"))
        (emit (lit "selfMessage") [VString target; VString toSend])) cl
    = (Ok tt, cl, tr) /\
    Forall (within_limit n (hostMask cl)) tr.
Proof.
  intros Hconn Hreq Hlimit Hall.
  induction Hall as [|ch chunks Hch _ IH].
  - exists []. split; [reflexivity | constructor].
  - destruct IH as (tr & Hrun & Htr).
    assert (Hhead :
      (send [lit "PRIVMSG"; target; ch] ;;;
       when (str_eqb (lit "PRIVMSG") (lit "PRIVMSG"))
         (emit (lit "selfMessage") [VString target; VString ch])) cl
      = (Ok tt, cl,
         [Write (lit "PRIVMSG" ++ " " :: target ++ " "
                 :: (if existsb is_ws ch || starts_with [":"] ch
                        || negb (nonempty ch)
                     then ":" :: ch else ch) ++ [CR; LF]);
          Emit (lit "selfMessage") [VString target; VString ch]])).
    { unfold mbind. rewrite (send_three cl cn _ target ch Hconn Hreq).
      reflexivity. }
    eexists. split.
    { cbn [forEach]. eapply mbind_ok; [exact Hhead | exact Hrun]. }
    cbn [app]. constructor; [|constructor; [reflexivity | exact Htr]].
    unfold within_limit, relayed.
    destruct (existsb is_ws ch || starts_with [":"] ch || negb (nonempty ch));
      repeat (rewrite ?length_app; cbn [length lit list_ascii_of_string]); lia.
Qed.

(** X25. After [_updateMaxLineLength], whatever [say] writes fits the line
    limit of the protocol once the server has put the client's prefix in
    front: [:nick!hostmask PRIVMSG target :chunk] with its CR LF is at
    most 512 characters long. [say] returns normally, leaves the client
    as it is, and emits nothing but [selfMessage]. The limit left for the
    text must be positive. *)
Theorem say_fits_the_line_limit
  (cl : Client) (cn : Conn) (n target text : str) :
  conn cl = Some cn ->
  requestedDisconnect cn = false ->
  nick cl = Some n ->
  (0 < Z.min (497 - Z.of_nat (length n) - Z.of_nat (length (hostMask cl))
              - Z.of_nat (length target)) messageSplit)%Z ->
  exists (cl' : Client) (tr : list action),
    (_updateMaxLineLength ;;; say messageSplit target (Some text)) cl
    = (Ok tt, cl', tr) /\
    cl' = set_maxLineLength
            (497 - Z.of_nat (length n) - Z.of_nat (length (hostMask cl))) cl /\
    Forall (within_limit n (hostMask cl)) tr.
Proof.
  intros Hconn Hreq Hnick Hpos.
  set (cl' := set_maxLineLength
                (497 - Z.of_nat (length n) - Z.of_nat (length (hostMask cl))) cl).
  set (limit := Z.min (497 - Z.of_nat (length n) - Z.of_nat (length (hostMask cl))
                       - Z.of_nat (length target)) messageSplit) in *.
  assert (Hlines : forall lines : list str,
    exists tr : list action,
      forEach lines (fun line =>
        linesToSend <~ of_result (_splitLongLines line limit []) ;;
        forEach linesToSend (fun toSend =>
          send [lit "PRIVMSG"; target; toSend] ;;;
          when (str_eqb (lit "PRIVMSG") (lit "PRIVMSG"))
            (emit (lit "selfMessage") [VString target; VString toSend]))) cl'
      = (Ok tt, cl', tr) /\
      Forall (within_limit n (hostMask cl)) tr).
  { induction lines as [|line lines IH].
    - exists []. split; [reflexivity | constructor].
    - destruct IH as (tr2 & Hrun2 & Htr2).
      destruct (split_cuts_spec limit Hpos (length line) line (le_n _))
        as (Hsplit & Hlens & _).
      destruct (say_chunks cl' cn n target limit
                  (map fst (split_cuts line limit)))
        as (tr1 & Hrun1 & Htr1); try assumption.
      + subst limit. cbn [hostMask set_maxLineLength cl']. lia.
      + rewrite Forall_map. exact Hlens.
      + assert (Hhead :
          (linesToSend <~ of_result (_splitLongLines line limit []) ;;
           forEach linesToSend (fun toSend =>
             send [lit "PRIVMSG"; target; toSend] ;;;
             when (str_eqb (lit "PRIVMSG") (lit "PRIVMSG"))
               (emit (lit "selfMessage") [VString target; VString toSend]))) cl'
          = (Ok tt, cl', tr1)).
        { rewrite Hsplit.
          exact (mbind_ok (of_result (Ok ([] ++ map fst (split_cuts line limit))))
                   _ cl' cl' cl' _ (Ok tt) [] tr1 eq_refl Hrun1). }
        exists (tr1 ++ tr2). split.
        * cbn [forEach]. eapply mbind_ok; [exact Hhead | exact Hrun2].
        * apply Forall_app. split; assumption. }
  destruct (Hlines (filter nonempty (split_newlines text))) as (tr & Hrun & Htr).
  exists cl', tr. split; [|split; [reflexivity | exact Htr]].
  unfold mbind at 1, _updateMaxLineLength, mbind at 1, get at 1.
  cbv beta iota. rewrite Hnick.
  unfold of_result, js_length, mbind, modify, ret. cbn [fst snd app].
  fold cl'. unfold say, _speak, mbind at 1, get.
  cbv beta iota.
  replace (Z.min (maxLineLength cl' - Z.of_nat (length target)) messageSplit)
    with limit by reflexivity.
  rewrite Hrun. reflexivity.
Qed.

End Speak.

Lemma say_fits_the_line_limit_witness :
  exists (cl' : Client) (tr : list action),
    (_updateMaxLineLength ;;;
     say 512 (lit "#chan") (Some (lit "hello there"))) connected_client
    = (Ok tt, cl', tr) /\
    cl' = set_maxLineLength
            (497 - Z.of_nat (length (lit "bot"))
             - Z.of_nat (length (hostMask connected_client))) connected_client /\
    Forall (within_limit (lit "bot") (hostMask connected_client)) tr.
Proof.
  apply (say_fits_the_line_limit 512 connected_client
           (mkConn false (CyclingPingTimer.create (15 * 1000) (8 * 1000)))
           (lit "bot") (lit "#chan") (lit "hello there")
           eq_refl eq_refl eq_refl).
  reflexivity.
Defined.

Section RoundTrip.

Variable messageSplit : Z.
Variable replyFor : str -> option reply_entry.
Variable stripColorsAndStyle : str -> str.

(** X26. [say(target, text)] with a one-line text that fits writes one line
    and emits one [selfMessage]; the line parses back to a PRIVMSG with
    the target and the text as its arguments. *)
Theorem say_then_parse (cl : Client) (cn : Conn) (target text : str) :
  conn cl = Some cn ->
  requestedDisconnect cn = false ->
  middle target = true ->
  nonempty text = true ->
  forallb is_dot text = true ->
  (Z.of_nat (length text)
   <= Z.min (maxLineLength cl - Z.of_nat (length target)) messageSplit)%Z ->
  exists line : str,
    say messageSplit target (Some text) cl
    = (Ok tt, cl,
       [Write (line ++ [CR; LF]);
        Emit (lit "selfMessage") [VString target; VString text]]) /\
    exists m : IMessage,
      parseMessage replyFor stripColorsAndStyle line false = Ok m /\
      rawCommand m = lit "PRIVMSG" /\
      args m = [target; text].
Proof.
  intros Hconn Hreq Htarget Hne Hdot Hfits.
  set (limit := Z.min (maxLineLength cl - Z.of_nat (length target)) messageSplit)
    in *.
  pose proof (send_three cl cn (lit "PRIVMSG") target text Hconn Hreq) as Hsend.
  set (body := if existsb is_ws text || starts_with [":"] text
                  || negb (nonempty text)
               then ":" :: text else text) in *.
  exists (lit "PRIVMSG" ++ " " :: target ++ " " :: body). split.
  - assert (Hline : (lit "PRIVMSG" ++ " " :: target ++ " " :: body) ++ [CR; LF]
                    = lit "PRIVMSG" ++ " " :: target ++ " " :: body ++ [CR; LF])
      by (repeat (rewrite <- app_assoc; cbn [app]); reflexivity).
    rewrite Hline.
    assert (Hlines : filter nonempty (split_newlines text) = [text]).
    { unfold split_newlines. rewrite (split_newlines_one_line text [] Hdot).
      cbn [app filter]. now rewrite Hne. }
    assert (Hwhole : _splitLongLines text limit [] = Ok [text]).
    { rewrite splitLongLines_unfold.
      assert (Hpos : (0 < limit)%Z).
      { destruct text; [discriminate|]. cbn [length] in Hfits. lia. }
      rewrite (or_450_positive _ Hpos). unfold find_cut.
      destruct text as [|x text]; [discriminate|].
      cbn [length Nat.eqb].
      destruct (Z.leb_spec (Z.of_nat (S (length text))) limit); [reflexivity|].
      cbn [length] in Hfits. lia. }
    pose (g := fun toSend : str =>
            send [lit "PRIVMSG"; target; toSend] ;;;
            when (str_eqb (lit "PRIVMSG") (lit "PRIVMSG"))
              (emit (lit "selfMessage") [VString target; VString toSend])).
    pose (f := fun line : str =>
            linesToSend <~ of_result (_splitLongLines line limit []) ;;
            forEach linesToSend g).
    pose proof (mbind_ok (send [lit "PRIVMSG"; target; text])
                  (fun _ => when (str_eqb (lit "PRIVMSG") (lit "PRIVMSG"))
                              (emit (lit "selfMessage")
                                 [VString target; VString text]))
                  cl cl cl tt (Ok tt) _
                  [Emit (lit "selfMessage") [VString target; VString text]]
                  Hsend eq_refl) as Hsay.
    pose proof (mbind_ok (g text) (fun _ => forEach [] g) cl cl cl tt (Ok tt) _ []
                  Hsay eq_refl) as Hchunks.
    pose proof (mbind_ok (of_result (Ok [text])) (fun l => forEach l g)
                  cl cl cl [text] (Ok tt) [] _ eq_refl Hchunks) as Hline1.
    rewrite <- Hwhole in Hline1.
    pose proof (mbind_ok (f text) (fun _ => forEach [] f) cl cl cl tt (Ok tt) _ []
                  Hline1 eq_refl) as Hall.
    unfold say, _speak.
    etransitivity; [apply mbind_get|]. cbv beta iota zeta. fold limit.
    rewrite Hlines. exact Hall.
  - subst body.
    destruct (existsb is_ws text || starts_with [":"] text
              || negb (nonempty text)) eqn:Ecolon.
    + replace (lit "PRIVMSG" ++ " " :: target ++ " " :: ":" :: text)
        with (command_line (lit "PRIVMSG") [target] (Some text)).
      * eexists. split.
        -- apply ParseMessageMore.parseMessage_command_line_gen.
           ++ reflexivity.
           ++ constructor; [assumption | constructor].
           ++ intros x Hx. now inversion Hx; subst.
           ++ right. discriminate.
        -- cbn [rawCommand args trailing_args app]. now rewrite Hne.
      * unfold command_line, join_params, trailing_part.
        cbn [flat_map app]. rewrite app_nil_r. reflexivity.
    + replace (lit "PRIVMSG" ++ " " :: target ++ " " :: text)
        with (command_line (lit "PRIVMSG") [target; text] None).
      * eexists. split.
        -- apply ParseMessageMore.parseMessage_command_line_gen.
           ++ reflexivity.
           ++ constructor; [assumption|]. constructor; [|constructor].
              now apply SendProofs.plain_final_is_middle.
           ++ discriminate.
           ++ left. discriminate.
        -- cbn [rawCommand args trailing_args app]. split; reflexivity.
      * unfold command_line, join_params, trailing_part.
        cbn [flat_map app]. rewrite !app_nil_r.
        repeat (rewrite <- app_assoc; cbn [app]). reflexivity.
Qed.

End RoundTrip.

Lemma say_then_parse_witness :
  exists line : str,
    say 512 (lit "#chan") (Some (lit "hello there")) connected_client
    = (Ok tt, connected_client,
       [Write (line ++ [CR; LF]);
        Emit (lit "selfMessage") [VString (lit "#chan"); VString (lit "hello there")]])
    /\
    exists m : IMessage,
      parseMessage sample_replies (fun s => s) line false = Ok m /\
      rawCommand m = lit "PRIVMSG" /\
      args m = [lit "#chan"; lit "hello there"].
Proof.
  apply (say_then_parse 512 sample_replies (fun s => s) connected_client
           (mkConn false (CyclingPingTimer.create (15 * 1000) (8 * 1000)))
           (lit "#chan") (lit "hello there") eq_refl eq_refl eq_refl eq_refl eq_refl).
  vm_compute. discriminate.
Defined.

End SpeakingProofs.

(** ** Flood protection and the whois store *)

Module FloodProtectionProofs.

Import Irc IrcProofs IrcMore FloodProtection.

Lemma queue_grows (sends : list (list str)) : forall (q : list (list str))
  (cl : Client),
  forEach sends FloodProtection.send (q, cl) = (Ok tt, (q ++ sends, cl), []).
Proof.
  induction sends as [|a sends IH]; intros q cl.
  - cbn. now rewrite app_nil_r.
  - cbn [forEach]. unfold mbind, FloodProtection.send at 1, modify.
    cbn [fst snd]. rewrite IH. now rewrite <- app_assoc.
Qed.

Lemma dequeue_empty (cl : Client) : dequeue ([], cl) = (Ok tt, ([], cl), []).
Proof. reflexivity. Qed.

Lemma ticks_empty (n : nat) (cl : Client) :
  ticks n ([], cl) = (Ok tt, ([], cl), []).
Proof.
  induction n as [|n IH]; [reflexivity|].
  cbn [ticks]. unfold mbind. rewrite dequeue_empty. now rewrite IH.
Qed.

Lemma dequeue_head (cl : Client) (cn : Conn) (x : str) (l : list str)
  (rest : list (list str)) :
  conn cl = Some cn ->
  dequeue ((x :: l) :: rest, cl)
  = (Ok tt, (rest, cl), snd (Irc.send (x :: l) cl)) /\
  fst (Irc.send (x :: l) cl) = (Ok tt, cl).
Proof.
  intros Hconn. destruct (send_returns cl cn x l Hconn) as [tr Hsend].
  unfold dequeue, mbind, get, modify, zoom. cbn [fst snd app].
  rewrite Hsend. cbn [fst snd]. split; reflexivity.
Qed.

Lemma ticks_drain (cl : Client) (cn : Conn) (q : list (list str)) :
  conn cl = Some cn ->
  Forall (fun a => a <> []) q ->
  forall n : nat, (length q <= n)%nat ->
  ticks n (q, cl) = (Ok tt, ([], cl), flat_map (fun a => snd (Irc.send a cl)) q) /\
  forEach q Irc.send cl = (Ok tt, cl, flat_map (fun a => snd (Irc.send a cl)) q).
Proof.
  intros Hconn Hq. induction Hq as [|a q Ha _ IH]; intros n Hn.
  - split; [apply ticks_empty | reflexivity].
  - destruct n as [|n]; [cbn in Hn; lia|].
    destruct a as [|x l]; [congruence|].
    destruct (dequeue_head cl cn x l q Hconn) as [Hd Hs].
    destruct (IH n) as [Hticks Hdirect]; [cbn in Hn; lia|].
    split.
    + cbn [ticks flat_map]. unfold mbind. rewrite Hd, Hticks. reflexivity.
    + cbn [forEach flat_map]. unfold mbind.
      destruct (Irc.send (x :: l) cl) as [[r s1] t1]. cbn [fst snd] in *.
      inversion Hs; subst. rewrite Hdirect. reflexivity.
Qed.

(** X27. With flood protection on, [send] writes nothing at once; the lines
    leave one per tick of the interval, in the order they were sent, and
    once there have been as many ticks as sends the socket has been
    written exactly what the unprotected [send] would have written. The
    queue is empty then and further ticks do nothing. *)
Theorem flood_protection_keeps_order
  (cl : Client) (cn : Conn) (sends : list (list str)) (n : nat) :
  conn cl = Some cn ->
  Forall (fun a => a <> []) sends ->
  (length sends <= n)%nat ->
  activateFloodProtection cl = (Ok tt, ([], cl), []) /\
  forEach sends FloodProtection.send ([], cl) = (Ok tt, (sends, cl), []) /\
  exists tr : list action,
    forEach sends Irc.send cl = (Ok tt, cl, tr) /\
    (forEach sends FloodProtection.send ;;; ticks n) ([], cl)
    = (Ok tt, ([], cl), tr) /\
    forall extra : nat, ticks extra ([], cl) = (Ok tt, ([], cl), []).
Proof.
  intros Hconn Hsends Hn.
  split; [reflexivity|]. split; [apply (queue_grows sends [] cl)|].
  destruct (ticks_drain cl cn sends Hconn Hsends n Hn) as [Hticks Hdirect].
  eexists. split; [exact Hdirect|]. split.
  - unfold mbind. rewrite (queue_grows sends [] cl). cbn [app].
    rewrite Hticks. reflexivity.
  - intros extra. apply ticks_empty.
Qed.

Lemma flood_protection_keeps_order_witness :
  activateFloodProtection connected_client = (Ok tt, ([], connected_client), []) /\
  forEach [[lit "JOIN"; lit "#a"]; [lit "PRIVMSG"; lit "#a"; lit "hello there"]]
    FloodProtection.send ([], connected_client)
  = (Ok tt,
     ([[lit "JOIN"; lit "#a"]; [lit "PRIVMSG"; lit "#a"; lit "hello there"]],
      connected_client), []) /\
  exists tr : list action,
    forEach [[lit "JOIN"; lit "#a"]; [lit "PRIVMSG"; lit "#a"; lit "hello there"]]
      Irc.send connected_client
    = (Ok tt, connected_client, tr) /\
    (forEach [[lit "JOIN"; lit "#a"]; [lit "PRIVMSG"; lit "#a"; lit "hello there"]]
       FloodProtection.send ;;; ticks 3) ([], connected_client)
    = (Ok tt, ([], connected_client), tr) /\
    forall extra : nat,
      ticks extra ([], connected_client) = (Ok tt, ([], connected_client), []).
Proof.
  apply (flood_protection_keeps_order connected_client
           (mkConn false (CyclingPingTimer.create (15 * 1000) (8 * 1000)))
           [[lit "JOIN"; lit "#a"]; [lit "PRIVMSG"; lit "#a"; lit "hello there"]]
           3 eq_refl).
  - repeat constructor; discriminate.
  - cbn. lia.
Defined.

End FloodProtectionProofs.

Module WhoisProofs.

Import Irc IrcProofs IrcMore Whois.



End WhoisProofs.

(** ** CTCP *)

Module CtcpProofs.

Import ParseMessage Irc IrcProofs Speaking Ctcp.

Lemma index_of_first (c : ascii) (s r : str) :
  forallb (fun x => negb (Ascii.eqb x c)) s = true ->
  index_of c (s ++ c :: r) = Some (length s).
Proof.
  induction s as [|x s IH]; intros H.
  - cbn. now rewrite Ascii.eqb_refl.
  - cbn [forallb] in H. apply andb_true_iff in H as [Hx Hs].
    cbn [app index_of length]. apply negb_true_iff in Hx. rewrite Hx.
    now rewrite IH.
Qed.

Lemma split_on_space_from_cons (s cur : str) :
  exists (p : str) (l : list str), split_on_space_from cur s = p :: l.
Proof.
  revert cur. induction s as [|c r IH]; intros cur; cbn [split_on_space_from].
  - eauto.
  - destruct (is_space c); [eauto | apply IH].
Qed.

Lemma join_split_on_space (s : str) : forall cur : str,
  join_with_space (split_on_space_from cur s) = cur ++ s.
Proof.
  induction s as [|c r IH]; intros cur; cbn [split_on_space_from].
  - cbn. now rewrite app_nil_r.
  - destruct (is_space c) eqn:Hc.
    + unfold is_space in Hc. apply Ascii.eqb_eq in Hc. subst c.
      destruct (split_on_space_from_cons r []) as (p & l & E).
      pose proof (IH []) as Hr. rewrite E in *.
      change (join_with_space (cur :: p :: l))
        with (cur ++ " " :: join_with_space (p :: l)).
      now rewrite Hr.
    + rewrite IH. now rewrite <- app_assoc.
Qed.

Section Client.

Variable messageSplit : Z.
Variable channel_types : str.
Variable toUpperCase : str -> str.

(** X29. A PRIVMSG whose text is an ACTION framed by U+0001, as [action]
    sends it, is taken for CTCP: the client emits [ctcp], [ctcp-privmsg]
    and [action], the last with the text of the action as it was before
    framing, and no [message] event; the state is not touched. *)
Theorem ctcp_action_received
  (cl : Client) (message : IMessage) (to body : str) :
  args message = [to; SOH :: lit "ACTION " ++ body ++ [SOH]] ->
  forallb (fun x => negb (Ascii.eqb x SOH)) body = true ->
  case_PRIVMSG messageSplit channel_types toUpperCase message cl
  = (Ok tt, cl,
     [Emit (lit "ctcp")
        [of_ostr (ParseMessage.nick message); VString to;
         VString (lit "ACTION " ++ body); VString (lit "privmsg");
         VMessage message];
      Emit (lit "ctcp-privmsg")
        [of_ostr (ParseMessage.nick message); VString to;
         VString (lit "ACTION " ++ body); VMessage message];
      Emit (lit "action")
        [of_ostr (ParseMessage.nick message); VString to; VString body;
         VMessage message]]).
Proof.
  intros Hargs Hbody.
  assert (Hfree : forallb (fun x => negb (Ascii.eqb x SOH)) (lit "ACTION " ++ body)
                  = true)
    by (rewrite forallb_app, Hbody; reflexivity).
  assert (Hcut : slice_to (index_of SOH ((lit "ACTION " ++ body) ++ [SOH]))
                   ((lit "ACTION " ++ body) ++ [SOH])
                 = lit "ACTION " ++ body).
  { rewrite (index_of_first SOH _ [] Hfree). unfold slice_to.
    rewrite firstn_app, Nat.sub_diag, firstn_all. cbn [firstn].
    apply app_nil_r. }
  assert (Hparts : split_on_space (lit "ACTION " ++ body)
                   = lit "ACTION" :: split_on_space body) by reflexivity.
  destruct (split_on_space_from_cons body []) as (p & l & Hsplit).
  assert (Hjoin : join_with_space (split_on_space body) = body)
    by apply (join_split_on_space body []).
  unfold case_PRIVMSG, arg. rewrite Hargs. cbn [nth_error].
  replace (Ascii.eqb SOH SOH
           && existsb (fun y => Ascii.eqb y SOH) (lit "ACTION " ++ body ++ [SOH]))
    with true.
  2:{ symmetry. rewrite Ascii.eqb_refl. cbn [andb].
      rewrite app_assoc, existsb_app. cbn [existsb].
      rewrite Ascii.eqb_refl. now rewrite orb_true_r. }
  unfold _handleCTCP. cbn [tl]. rewrite app_assoc, Hcut, Hparts.
  cbn [hd_error tl length].
  rewrite (str_eqb_neq (lit "ACTION " ++ body) (lit "VERSION"))
    by discriminate.
  rewrite Hjoin. unfold split_on_space. rewrite Hsplit.
  reflexivity.
Qed.

End Client.

Lemma ctcp_action_received_witness :
  case_PRIVMSG 512 (lit "#&") (fun s => s)
    (message_from (lit "alice") (lit "PRIVMSG")
       [lit "#chan"; SOH :: lit "ACTION " ++ lit "waves" ++ [SOH]])
    connected_client
  = (Ok tt, connected_client,
     [Emit (lit "ctcp")
        [of_ostr (Some (lit "alice")); VString (lit "#chan");
         VString (lit "ACTION " ++ lit "waves"); VString (lit "privmsg");
         VMessage (message_from (lit "alice") (lit "PRIVMSG")
                     [lit "#chan"; SOH :: lit "ACTION " ++ lit "waves" ++ [SOH]])];
      Emit (lit "ctcp-privmsg")
        [of_ostr (Some (lit "alice")); VString (lit "#chan");
         VString (lit "ACTION " ++ lit "waves");
         VMessage (message_from (lit "alice") (lit "PRIVMSG")
                     [lit "#chan"; SOH :: lit "ACTION " ++ lit "waves" ++ [SOH]])];
      Emit (lit "action")
        [of_ostr (Some (lit "alice")); VString (lit "#chan"); VString (lit "waves");
         VMessage (message_from (lit "alice") (lit "PRIVMSG")
                     [lit "#chan"; SOH :: lit "ACTION " ++ lit "waves" ++ [SOH]])]]).
Proof.
  apply (ctcp_action_received 512 (lit "#&") (fun s => s) connected_client
           (message_from (lit "alice") (lit "PRIVMSG")
              [lit "#chan"; SOH :: lit "ACTION " ++ lit "waves" ++ [SOH]])
           (lit "#chan") (lit "waves") eq_refl eq_refl).
Defined.

End CtcpProofs.

(** ** The names reply *)

Module NamesProofs.

Import ParseMessage ParseMessageProofs Irc IrcProofs IrcMore Wire Names.

Lemma span_spaces (pad : nat) (l : str) :
  snd (span is_ws (repeat " "%char pad ++ l)) = snd (span is_ws l).
Proof.
  induction pad as [|pad IH]; [reflexivity|].
  cbn [repeat app span]. change (is_ws " ") with true. cbv iota.
  destruct (span is_ws (repeat " "%char pad ++ l)) as [a b]. exact IH.
Qed.

Lemma rev_spaces (pad : nat) : rev (repeat " "%char pad) = repeat " "%char pad.
Proof.
  induction pad as [|pad IH]; [reflexivity|].
  cbn [repeat rev]. rewrite IH. symmetry. apply repeat_cons.
Qed.

Lemma trimRight_spaces (w : str) (pad : nat) :
  trimRight (w ++ repeat " "%char pad) = trimRight w.
Proof.
  unfold trimRight. now rewrite rev_app_distr, rev_spaces, span_spaces.
Qed.

Lemma trimRight_names (m1 : str) (ms : list str) :
  middle m1 = true ->
  Forall (fun m => middle m = true) ms ->
  trimRight (m1 ++ join_params ms) = m1 ++ join_params ms.
Proof.
  intros Hm1 Hms.
  destruct ms as [|m2 ms'].
  - cbn [join_params flat_map]. rewrite app_nil_r.
    destruct (middle_parts m1 Hm1) as (Hne & Hw & _ & _).
    destruct (exists_last Hne) as (w & z & ->).
    rewrite forallb_app in Hw. apply andb_prop in Hw as [_ Hz].
    cbn in Hz. rewrite andb_true_r in Hz. apply negb_true_iff in Hz.
    now apply ParseMessageMore.trimRight_last.
  - destruct (@exists_last _ (m2 :: ms') ltac:(discriminate)) as (l & ml & E).
    rewrite E in *. apply Forall_app in Hms as [_ Hml].
    inversion Hml; subst.
    rewrite SendProofs.join_params_last, app_assoc.
    now apply trimRight_middle.
Qed.

Lemma trim_names (m1 : str) (ms : list str) (pad : nat) :
  middle m1 = true ->
  Forall (fun m => middle m = true) ms ->
  split_spaces (trim (join_with_space (m1 :: ms) ++ repeat " "%char pad))
  = m1 :: ms.
Proof.
  intros Hm1 Hms. rewrite SendProofs.join_with_space_params.
  destruct (middle_parts m1 Hm1) as (Hne & Hw & _ & _).
  unfold trim.
  assert (Hspan : span is_ws ((m1 ++ join_params ms) ++ repeat " "%char pad)
                  = ([], (m1 ++ join_params ms) ++ repeat " "%char pad)).
  { destruct m1 as [|x m1]; [congruence|].
    cbn [forallb] in Hw. apply andb_prop in Hw as [Hx _].
    apply negb_true_iff in Hx. cbn [app]. now apply span_none. }
  rewrite Hspan. cbn [snd].
  rewrite trimRight_spaces, trimRight_names by assumption.
  unfold split_spaces.
  now rewrite (ParseMessageMore.split_spaces_middles ms m1 []).
Qed.

Lemma match_name_middle (m : str) :
  middle m = true ->
  exists (c : ascii) (r : str), m = c :: r /\ match_name m = Some (c, r).
Proof.
  intros Hm. destruct (middle_parts m Hm) as (Hne & Hw & _ & _).
  destruct m as [|c r]; [congruence|]. exists c, r. split; [reflexivity|].
  assert (Hdot : forallb is_dot (c :: r) = true).
  { eapply forallb_weaken; [|exact Hw]. apply not_ws_is_dot. }
  cbn [forallb] in Hdot. cbn [match_name]. now rewrite Hdot.
Qed.

(** The loop of the names reply over names that are free of white
    space. *)
Lemma names_loop (k : str) (names : list str) :
  forall (cl : Client) (ch : Channel),
  dict_get k (chans cl) = Some ch ->
  Forall (fun m => middle m = true) names ->
  forEach names (fun user =>
    match match_name user with
    | Some (c, r) =>
        cl <~ get ;;
        if dict_has [c] (modeForPrefix cl)
        then update_channel k
               (fun ch => set_users (dict_set r (Some [c]) (users ch)) ch)
        else update_channel k
               (fun ch => set_users (dict_set (c :: r) (Some []) (users ch)) ch)
    | None => ret tt
    end) cl
  = (Ok tt,
     set_chans
       (dict_set k
          (set_users (enter (modeForPrefix cl) names (users ch)) ch) (chans cl))
       cl, []).
Proof.
  induction names as [|m names IH]; intros cl ch Hch Hall.
  - cbn [forEach enter fold_left]. unfold ret.
    replace (set_users (users ch) ch) with ch by (now destruct ch).
    rewrite (dict_set_same_value _ k ch (chans cl) Hch). now destruct cl.
  - inversion Hall as [|? ? Hm Hrest]; subst.
    destruct (match_name_middle m Hm) as (c & r & -> & Hmatch).
    set (u1 := dict_set (fst (listed (modeForPrefix cl) (c :: r)))
                 (snd (listed (modeForPrefix cl) (c :: r))) (users ch)).
    set (ch1 := set_users u1 ch).
    set (cl1 := set_chans (dict_set k ch1 (chans cl)) cl).
    assert (Hhead :
      (cl0 <~ get ;;
       if dict_has [c] (modeForPrefix cl0)
       then update_channel k
              (fun ch => set_users (dict_set r (Some [c]) (users ch)) ch)
       else update_channel k
              (fun ch => set_users (dict_set (c :: r) (Some []) (users ch)) ch))
        cl
      = (Ok tt, cl1, [])).
    { unfold mbind, get, update_channel, modify. cbn [fst snd app].
      subst cl1 ch1 u1. unfold listed.
      destruct (dict_has [c] (modeForPrefix cl)); rewrite Hch; reflexivity. }
    assert (Hch1 : dict_get k (chans cl1) = Some ch1).
    { subst cl1. cbn [chans set_chans]. apply dict_get_set_same. }
    pose proof (IH cl1 ch1 Hch1 Hrest) as Hrest_run.
    cbn [forEach]. rewrite Hmatch. unfold mbind at 1. rewrite Hhead.
    cbv beta iota. rewrite Hrest_run. cbn [app]. f_equal. f_equal.
    subst cl1 ch1. cbn [chans set_chans modeForPrefix users set_users].
    rewrite dict_set_twice. unfold enter. cbn [fold_left]. fold u1.
    clearbody u1. clear. now destruct cl, ch.
Qed.

Lemma enter_other (mfp : dict (option str)) (names : list str) (n : str) :
  forall u : dict (option str),
  ~ In n (map (fun name => fst (listed mfp name)) names) ->
  dict_get n (enter mfp names u) = dict_get n u.
Proof.
  induction names as [|m names IH]; intros u Hnot; [reflexivity|].
  change (enter mfp (m :: names) u)
    with (enter mfp names
            (dict_set (fst (listed mfp m)) (snd (listed mfp m)) u)).
  cbn [map In] in Hnot.
  rewrite IH by tauto. apply dict_get_set_other. intros ->. tauto.
Qed.

Lemma enter_listed (mfp : dict (option str)) (names : list str) (name : str) :
  forall u : dict (option str),
  NoDup (map (fun name => fst (listed mfp name)) names) ->
  In name names ->
  dict_get (fst (listed mfp name)) (enter mfp names u)
  = Some (snd (listed mfp name)).
Proof.
  induction names as [|m names IH]; intros u Hnd Hin; [contradiction|].
  cbn [map] in Hnd. inversion Hnd as [|? ? Hnotin Hnd']; subst.
  change (enter mfp (m :: names) u)
    with (enter mfp names
            (dict_set (fst (listed mfp m)) (snd (listed mfp m)) u)).
  destruct Hin as [->|Hin].
  - rewrite enter_other by assumption. apply dict_get_set_same.
  - now apply IH.
Qed.



End NamesProofs.
